(** * RunnableParallel (core/runnable-parallel.js): fan-out / fan-in of named Runnables

    A shallow embedding of the class [RunnableParallel]: its constructor,
    [_call] (the body run by [invoke]), the async generator [_stream] and
    [batch].  Asynchrony is made explicit: promises live in a store, and
    a run is driven by a schedule of events chosen by the environment (a
    branch promise settles; a suspended continuation is resumed).  Every
    statement about "completion order" quantifies over these schedules. *)

From Stdlib Require Import ZArith NArith Ascii String.
From Stdlib Require PrimFloat Uint63.
From stdpp Require Import base list strings pretty.

Local Open Scope string_scope.
Local Open Scope list_scope.

(** ** Plain JavaScript objects as ordered property lists

    [Object.keys], [Object.entries] and spread enumerate the own
    string-keyed properties of an ordinary object with the array-index
    keys first, in ascending numeric order, followed by the other
    string keys in the order they were created.  An object is kept as
    its properties in that enumeration order. *)
Module JsObj.

Definition digit_of (a : ascii) : option N :=
  let n := N_of_ascii a in
  if ((48 <=? n) && (n <=? 57))%N then Some (n - 48)%N else None.

Fixpoint parse_digits (s : string) (acc : N) : option N :=
  match s with
  | EmptyString => Some acc
  | String a s' =>
      match digit_of a with
      | Some d => parse_digits s' (10 * acc + d)%N
      | None => None
      end
  end.

(** A property key is an array index when it is the canonical decimal
    form of an integer below 2^32 - 1. *)
Definition array_index (s : string) : option N :=
  match s with
  | EmptyString => None
  | String "0" EmptyString => Some 0%N
  | String "0" _ => None
  | _ =>
      match parse_digits s 0 with
      | Some n => if (n <? 2 ^ 32 - 1)%N then Some n else None
      | None => None
      end
  end.

(** [key_before k1 k2]: a property named [k2] created after the
    property [k1] is enumerated after it.  Two different keys never
    have the same index, so [<=?] on indices of different keys is [<?]. *)
Definition key_before (k1 k2 : string) : bool :=
  match array_index k1, array_index k2 with
  | Some n, Some m => (n <=? m)%N
  | Some _, None => true
  | None, Some _ => false
  | None, None => true
  end.

Fixpoint keys_ordered (ks : list string) : bool :=
  match ks with
  | [] => true
  | k :: ks' =>
      forallb (fun k' => key_before k k' && negb (String.eqb k k')) ks'
      && keys_ordered ks'
  end.

Section Ops.
Context {A : Type}.

Fixpoint obj_get (k : string) (o : list (string * A)) : option A :=
  match o with
  | [] => None
  | (k', v) :: o' => if String.eqb k' k then Some v else obj_get k o'
  end.

Definition obj_has (k : string) (o : list (string * A)) : bool :=
  match obj_get k o with Some _ => true | None => false end.

Fixpoint obj_replace (k : string) (v : A) (o : list (string * A)) : list (string * A) :=
  match o with
  | [] => []
  | (k', v') :: o' =>
      if String.eqb k' k then (k', v) :: o' else (k', v') :: obj_replace k v o'
  end.

Fixpoint obj_insert_index (n : N) (k : string) (v : A) (o : list (string * A))
  : list (string * A) :=
  match o with
  | [] => [(k, v)]
  | (k', v') :: o' =>
      match array_index k' with
      | Some m =>
          if (m <=? n)%N then (k', v') :: obj_insert_index n k v o'
          else (k, v) :: o
      | None => (k, v) :: o
      end
  end.

(** The own property [k] of [o] is created, or given a new value if
    it exists. *)
Definition obj_set (k : string) (v : A) (o : list (string * A)) : list (string * A) :=
  match obj_get k o with
  | Some _ => obj_replace k v o
  | None =>
      match array_index k with
      | Some n => obj_insert_index n k v o
      | None => o ++ [(k, v)]
      end
  end.

(** [o[k] = v] for an [o] made by [{}].  The prototype of such an
    object is [Object.prototype], where [__proto__] is an accessor:
    assigning under that name calls its setter, which changes the
    prototype of [o], or does nothing, and creates no own property.
    The new prototype is not kept here: the class reads own properties
    only ([Object.entries], spread, [delete]), and what it assigns
    under [__proto__], a promise or the result of a branch, is taken
    to have neither an accessor nor a read-only property under the
    name of a branch. *)
Definition obj_assign (k : string) (v : A) (o : list (string * A)) : list (string * A) :=
  if String.eqb k "__proto__" then o else obj_set k v o.

(** [delete o[k]] *)
Fixpoint obj_delete (k : string) (o : list (string * A)) : list (string * A) :=
  match o with
  | [] => []
  | (k', v) :: o' =>
      if String.eqb k' k then obj_delete k o' else (k', v) :: obj_delete k o'
  end.

Definition Object_keys (o : list (string * A)) : list string := map fst o.
Definition Object_entries (o : list (string * A)) : list (string * A) := o.

(** [{ ...o }]: every own property of [o] is defined on a new object. *)
Definition spread (o : list (string * A)) : list (string * A) :=
  fold_left (fun acc e => obj_set (fst e) (snd e) acc) (Object_entries o) [].

(** The enumeration order every ordinary object has: no key twice,
    array indices ascending, then the other keys. *)
Definition own_keys_ordered (o : list (string * A)) : bool :=
  keys_ordered (Object_keys o).

End Ops.

(** An object literal whose keys are computed ([{ [k1]: v1, ... }], so
    that [__proto__] is a key like any other): the properties are
    defined left to right. *)
Definition obj_of_list {A} (l : list (string * A)) : list (string * A) :=
  fold_left (fun acc e => obj_set (fst e) (snd e) acc) l [].

End JsObj.

Import JsObj.


(** ** JavaScript values, as far as the constructor inspects them *)
#[local] Set Warnings "-register-all".

Section Model.

(** [V]: values branches resolve with; [E]: reasons they reject with;
    [I]: inputs; [C]: config objects (by reference). *)
Context {V E I C : Type}.

Inductive settled : Type :=
| Fulfilled (v : V)
| Rejected (e : E).

(** [JsObject own proto]: the own enumerable properties in enumeration
    order, and the properties reachable through the prototype chain
    (a Runnable instance inherits [invoke] from its class).
    [JsArray items props]: the elements, and the properties the array
    has or inherits besides its indices, [length] and the members of
    [Array.prototype].

    A function is a [callable]: what calling it as [f(input, config)]
    does, and the properties it has or inherits besides the members of
    [Function.prototype].  Called, it returns a promise that, if and
    when it settles, settles as [call] says: the [invoke] of a Runnable
    is an async method.  (A function that returns something else, or
    throws before it returns, is outside the model.) *)
Inductive js_value : Type :=
| JsUndefined
| JsNull
| JsBoolean (b : bool)
| JsNumber (n : Z)
| JsNaN
| JsString (s : string)
| JsFunction (f : callable)
| JsArray (items : list js_value) (props : list (string * js_value))
| JsObject (own : list (string * js_value)) (proto : list (string * js_value))
with callable : Type :=
| Callable (call : I -> C -> settled) (props : list (string * js_value)).

Definition fn_call (f : callable) : I -> C -> settled :=
  match f with Callable call _ => call end.

Definition fn_props (f : callable) : list (string * js_value) :=
  match f with Callable _ props => props end.

Definition typeof (v : js_value) : string :=
  match v with
  | JsUndefined => "undefined"
  | JsNull => "object"
  | JsBoolean _ => "boolean"
  | JsNumber _ | JsNaN => "number"
  | JsString _ => "string"
  | JsFunction _ => "function"
  | JsArray _ _ => "object"
  | JsObject _ _ => "object"
  end.

Definition Array_isArray (v : js_value) : bool :=
  match v with JsArray _ _ => true | _ => false end.

(** [!v] is [negb (to_boolean v)] *)
Definition to_boolean (v : js_value) : bool :=
  match v with
  | JsUndefined | JsNull | JsNaN => false
  | JsBoolean b => b
  | JsNumber n => negb (n =? 0)%Z
  | JsString s => negb (String.eqb s "")
  | JsFunction _ | JsArray _ _ | JsObject _ _ => true
  end.

(** [v.name] for a [v] that is neither [null] nor [undefined].  The
    built-in prototypes of primitives, arrays and functions have no
    property [invoke], the only name looked up on such values. *)
Definition get_property (v : js_value) (name : string) : js_value :=
  match v with
  | JsObject own proto =>
      match obj_get name own with
      | Some x => x
      | None =>
          match obj_get name proto with
          | Some x => x
          | None => JsUndefined
          end
      end
  | JsFunction f =>
      match obj_get name (fn_props f) with
      | Some x => x
      | None => JsUndefined
      end
  | JsArray _ props =>
      match obj_get name props with
      | Some x => x
      | None => JsUndefined
      end
  | _ => JsUndefined
  end.

Inductive exn : Type :=
| Error (message : string)
| TypeError (message : string)
| Reason (e : E).

Record RunnableParallel : Type := {
  runnables : list (string * js_value);
  runnableNames : list string
}.

(** [!runnable || typeof runnable.invoke !== 'function'] *)
Definition not_a_runnable (runnable : js_value) : bool :=
  negb (to_boolean runnable)
  || negb (String.eqb (typeof (get_property runnable "invoke")) "function").

(** [new RunnableParallel(options)], lines 22-38.  [options = {}] is a
    default parameter: it replaces an argument that is [undefined].
    [Object.keys(null)] throws a TypeError. *)
Definition RunnableParallel_new (arg : js_value) : exn + RunnableParallel :=
  let options := match arg with JsUndefined => JsObject [] [] | _ => arg end in
  if negb (String.eqb (typeof options) "object") || Array_isArray options then
    inl (Error "RunnableParallel requires an object of named Runnables")
  else
    match options with
    | JsObject own _ =>
        match find (fun e => not_a_runnable (snd e)) (Object_entries own) with
        | Some (name, _) =>
            inl (Error ("Property '" +:+ name +:+ "' must be a Runnable with an invoke() method"))
        | None => inr {| runnables := own; runnableNames := Object_keys own |}
        end
    | _ => inl (TypeError "Cannot convert undefined or null to object")
    end.

(** ** Promises and the environment *)

(** A promise in the store: how it will settle, whether it has, and
    the slot of the result map its [then]-callback writes (only the
    promises made by [_stream] carry one). *)
Record promise : Type := {
  fate : settled;
  is_settled : bool;
  reaction : option string
}.

Record invocation : Type := {
  inv_name : string;
  inv_input : I;
  inv_config : C
}.

(** The part of the world outside the group: the promise store and
    the record of branch invocations made so far. *)
Record world : Type := {
  store : list promise;
  calls : list invocation
}.

Definition empty_world : world := {| store := []; calls := [] |}.

(** [runnable.invoke(input, config)]: a call that is recorded and
    returns a new pending promise; a TypeError when [invoke] is not a
    function. *)
Definition call_invoke (name : string) (runnable : js_value) (input : I) (config : C)
    (then_slot : option string) (w : world) : world * (exn + nat) :=
  match get_property runnable "invoke" with
  | JsFunction f =>
      ({| store := store w ++ [{| fate := fn_call f input config; is_settled := false;
                                  reaction := then_slot |}];
          calls := calls w ++ [{| inv_name := name; inv_input := input;
                                  inv_config := config |}] |},
       inr (length (store w)))
  | _ => (w, inl (TypeError "runnable.invoke is not a function"))
  end.

Inductive event : Type :=
| Settle (p : nat)
| Resume.

#[global] Instance event_eq_dec : EqDecision event.
Proof. solve_decision. Defined.

Definition mark_settled (pr : promise) : promise :=
  {| fate := fate pr; is_settled := true; reaction := reaction pr |}.

Definition settled_in (ps : list promise) (p : nat) : bool :=
  match ps !! p with
  | Some pr => is_settled pr
  | None => false
  end.

(** ** [_call], lines 47-62 *)

(** First loop: start every branch with the same input and config. *)
Fixpoint call_start_all (entries : list (string * js_value)) (input : I) (config : C)
    (promises : list (string * nat)) (w : world) : world * (exn + list (string * nat)) :=
  match entries with
  | [] => (w, inr promises)
  | (name, runnable) :: rest =>
      match call_invoke name runnable input config None w with
      | (w', inr p) => call_start_all rest input config (obj_assign name p promises) w'
      | (w', inl err) => (w', inl err)
      end
  end.

(** The async function is suspended at [await promise] for the entry
    [current] of [Object.entries(promises)], with the entries [rest]
    still to visit; or it has returned; or it has thrown. *)
Inductive call_status : Type :=
| Awaiting (current : string * nat) (rest : list (string * nat)) (results : list (string * V))
| Returned (results : list (string * V))
| Thrown (err : exn).

(** Head of the second loop: return when the entries are exhausted,
    otherwise suspend at the next [await]. *)
Definition call_loop (todo : list (string * nat)) (results : list (string * V)) : call_status :=
  match todo with
  | [] => Returned results
  | current :: rest => Awaiting current rest results
  end.

Definition _call (g : RunnableParallel) (input : I) (config : C) (w : world)
    : world * call_status :=
  match call_start_all (Object_entries (runnables g)) input config [] w with
  | (w', inr promises) => (w', call_loop (Object_entries promises) [])
  | (w', inl err) => (w', Thrown err)
  end.

(** The continuation of [await promise] runs once the promise has
    settled: [results[name] = value], or the rejection is thrown. *)
Definition call_resume (ps : list promise) (st : call_status) : call_status :=
  match st with
  | Awaiting (name, p) rest results =>
      match ps !! p with
      | Some pr =>
          if is_settled pr then
            match fate pr with
            | Fulfilled v => call_loop rest (obj_assign name v results)
            | Rejected e => Thrown (Reason e)
            end
          else st
      | None => st
      end
  | _ => st
  end.

Definition call_step (ev : event) (s : world * call_status) : world * call_status :=
  match ev with
  | Settle p =>
      ({| store := alter mark_settled p (store (fst s)); calls := calls (fst s) |}, snd s)
  | Resume => (fst s, call_resume (store (fst s)) (snd s))
  end.

Definition call_run (evs : list event) (s : world * call_status) : world * call_status :=
  fold_left (fun s ev => call_step ev s) evs s.

(** One [invoke] of the group in an otherwise empty world, driven by
    the schedule [evs]. *)
Definition run_invoke (g : RunnableParallel) (input : I) (config : C) (evs : list event)
    : world * call_status :=
  call_run evs (_call g input config empty_world).


(** ** [_stream], lines 71-101 *)

(** Where the generator is: not yet started (the body runs at the
    first [next()]); suspended at [await nextPromise], the race being
    already won by [winner] or not; suspended at [yield], with
    [completedName] in scope; returned; thrown. *)
Inductive phase : Type :=
| NotStarted
| Racing (winner : option string)
| Suspended (completedName : string)
| Finished
| Failed (err : exn).

(** [heap] holds the result maps by reference: the accumulating
    [results] at [results_ref] and every snapshot handed out. *)
Record stream_state : Type := {
  heap : list (list (string * V));
  results_ref : nat;
  promises : list (string * nat);
  completed : nat;
  yielded : list nat;
  phase_of : phase
}.

Definition not_started : stream_state :=
  {| heap := []; results_ref := 0; promises := []; completed := 0; yielded := [];
     phase_of := NotStarted |}.

Definition with_phase (ph : phase) (st : stream_state) : stream_state :=
  {| heap := heap st; results_ref := results_ref st; promises := promises st;
     completed := completed st; yielded := yielded st; phase_of := ph |}.

Definition with_heap (h : list (list (string * V))) (st : stream_state) : stream_state :=
  {| heap := h; results_ref := results_ref st; promises := promises st;
     completed := completed st; yielded := yielded st; phase_of := phase_of st |}.

Definition with_promises (proms : list (string * nat)) (st : stream_state) : stream_state :=
  {| heap := heap st; results_ref := results_ref st; promises := proms;
     completed := completed st; yielded := yielded st; phase_of := phase_of st |}.

(** First loop: [promises[name] = this.runnables[name].invoke(input, config).then(...)];
    the callback is kept with the promise as its [reaction]. *)
Fixpoint stream_start_all (g : RunnableParallel) (names : list string) (input : I) (config : C)
    (proms : list (string * nat)) (w : world) : world * (exn + list (string * nat)) :=
  match names with
  | [] => (w, inr proms)
  | name :: rest =>
      match obj_get name (runnables g) with
      | Some runnable =>
          match call_invoke name runnable input config (Some name) w with
          | (w', inr p) => stream_start_all g rest input config (obj_assign name p proms) w'
          | (w', inl err) => (w', inl err)
          end
      | None => (w, inl (TypeError "Cannot read properties of undefined (reading 'invoke')"))
      end
  end.

(** [Promise.race(Object.entries(promises).map(([name, p]) => p.then(() => name)))]:
    among promises already settled the first entry wins. *)
Definition race (ps : list promise) (proms : list (string * nat)) : option string :=
  fst <$> find (fun e => settled_in ps (snd e)) (Object_entries proms).

(** Head of the [while] loop. *)
Definition stream_loop (g : RunnableParallel) (ps : list promise) (st : stream_state)
    : stream_state :=
  if Nat.ltb (completed st) (length (runnableNames g))
  then with_phase (Racing (race ps (promises st))) st
  else with_phase Finished st.

(** [const promises = {}; const results = {};]: [results] is a new
    object. *)
Definition stream_begin (st : stream_state) : stream_state :=
  {| heap := heap st ++ [[]]; results_ref := length (heap st); promises := [];
     completed := 0; yielded := []; phase_of := phase_of st |}.

(** [completed++; yield { ...results }]: the copy is a new object. *)
Definition stream_yield (completedName : string) (results : list (string * V))
    (st : stream_state) : stream_state :=
  {| heap := heap st ++ [spread results];
     results_ref := results_ref st;
     promises := promises st;
     completed := S (completed st);
     yielded := yielded st ++ [length (heap st)];
     phase_of := Suspended completedName |}.

(** The generator runs from where it is suspended to its next
    suspension point. *)
Definition stream_resume (g : RunnableParallel) (input : I) (config : C)
    (s : world * stream_state) : world * stream_state :=
  let (w, st) := s in
  match phase_of st with
  | NotStarted =>
      match stream_start_all g (runnableNames g) input config [] w with
      | (w', inr proms) =>
          (w', stream_loop g (store w') (with_promises proms (stream_begin st)))
      | (w', inl err) => (w', with_phase (Failed err) (stream_begin st))
      end
  | Racing (Some name) =>
      match obj_get name (promises st) ≫= (fun p => store w !! p) with
      | Some pr =>
          match fate pr with
          | Fulfilled _ =>
              match heap st !! results_ref st with
              | Some results => (w, stream_yield name results st)
              | None => (w, st)
              end
          | Rejected e => (w, with_phase (Failed (Reason e)) st)
          end
      | None => (w, st)
      end
  | Racing None => (w, st)
  | Suspended completedName =>
      (w, stream_loop g (store w)
            (with_promises (obj_delete completedName (promises st)) st))
  | Finished | Failed _ => (w, st)
  end.

(** The callback [result => { results[name] = result; return result; }]
    of a promise that fulfils. *)
Definition run_reaction (pr : promise) (st : stream_state) : stream_state :=
  match fate pr, reaction pr with
  | Fulfilled v, Some name =>
      with_heap (alter (obj_assign name v) (results_ref st) (heap st)) st
  | _, _ => st
  end.

(** An undecided race is won by the first of its promises to settle. *)
Definition decide_race (p : nat) (st : stream_state) : stream_state :=
  match phase_of st with
  | Racing None =>
      with_phase
        (Racing (fst <$> find (fun e => Nat.eqb (snd e) p) (Object_entries (promises st)))) st
  | _ => st
  end.

(** A promise made by [_stream] settles. *)
Definition stream_settle (p : nat) (s : world * stream_state) : world * stream_state :=
  let (w, st) := s in
  match store w !! p with
  | Some pr =>
      if is_settled pr then (w, st)
      else ({| store := alter mark_settled p (store w); calls := calls w |},
            decide_race p (run_reaction pr st))
  | None => (w, st)
  end.

Definition stream_step (g : RunnableParallel) (input : I) (config : C) (ev : event)
    (s : world * stream_state) : world * stream_state :=
  match ev with
  | Settle p => stream_settle p s
  | Resume => stream_resume g input config s
  end.

(** One [_stream] of the group in an otherwise empty world; [Resume]
    stands for the consumer's [next()] when the generator is at a
    [yield] or not started, and for the continuation of the [await]
    otherwise. *)
Definition run_stream (g : RunnableParallel) (input : I) (config : C) (evs : list event)
    : world * stream_state :=
  fold_left (fun s ev => stream_step g input config ev s) evs (empty_world, not_started).

(** The snapshots handed to the consumer so far, oldest first, as
    they are in the heap now. *)
Definition snapshots (st : stream_state) : list (list (string * V)) :=
  omap (fun l => heap st !! l) (yielded st).

(** ** [batch], lines 110-114 *)

Inductive all_status : Type :=
| AllPending
| AllFulfilled (values : list (list (string * V)))
| AllRejected (err : exn).

Record batch_state : Type := {
  runs : list call_status;
  joined : all_status
}.

Inductive batch_event : Type :=
| BSettle (p : nat)
| BResume (i : nat).

(** [inputs.map(input => this._call(input, config))]: each call runs
    up to its first [await] before the next one starts. *)
Fixpoint batch_start_all (g : RunnableParallel) (inputs : list I) (config : C) (w : world)
    : world * list call_status :=
  match inputs with
  | [] => (w, [])
  | input :: rest =>
      let (w1, st) := _call g input config w in
      let (w2, sts) := batch_start_all g rest config w1 in
      (w2, st :: sts)
  end.

Definition all_returned (sts : list call_status) : option (list (list (string * V))) :=
  mapM (fun st => match st with Returned r => Some r | _ => None end) sts.

(** A pending [Promise.all] learns that one of its promises is now as
    [st]: it rejects with the first rejection it sees, and fulfils
    with all the values, in the order of the array, once none is
    missing. *)
Definition promise_all_observe (st : call_status) (sts : list call_status) (cur : all_status)
    : all_status :=
  match cur with
  | AllPending =>
      match st with
      | Thrown err => AllRejected err
      | Returned _ =>
          match all_returned sts with
          | Some values => AllFulfilled values
          | None => AllPending
          end
      | Awaiting _ _ _ => AllPending
      end
  | _ => cur
  end.

Definition is_thrown (st : call_status) : bool :=
  match st with Thrown _ => true | _ => false end.

(** [Promise.all(promises)], as it stands once the reactions to the
    promises already settled have run (in the order of the array):
    rejected by the first one already rejected, fulfilled if all are
    already fulfilled (so for the empty array), pending otherwise. *)
Definition Promise_all (sts : list call_status) : all_status :=
  match find is_thrown sts with
  | Some (Thrown err) => AllRejected err
  | _ =>
      match all_returned sts with
      | Some values => AllFulfilled values
      | None => AllPending
      end
  end.

Definition batch (g : RunnableParallel) (inputs : list I) (config : C) (w : world)
    : world * batch_state :=
  let (w', sts) := batch_start_all g inputs config w in
  (w', {| runs := sts; joined := Promise_all sts |}).

Definition batch_step (ev : batch_event) (s : world * batch_state) : world * batch_state :=
  let (w, b) := s in
  match ev with
  | BSettle p => ({| store := alter mark_settled p (store w); calls := calls w |}, b)
  | BResume i =>
      match runs b !! i with
      | Some st =>
          let st' := call_resume (store w) st in
          let sts := <[i := st']> (runs b) in
          (w, {| runs := sts; joined := promise_all_observe st' sts (joined b) |})
      | None => (w, b)
      end
  end.

Definition run_batch (g : RunnableParallel) (inputs : list I) (config : C)
    (evs : list batch_event) : world * batch_state :=
  fold_left (fun s ev => batch_step ev s) evs (batch g inputs config empty_world).

(** ** The accessors, lines 116-135 *)

(** [this.runnables] is the options object itself, with whatever it
    inherits; the record keeps its own properties, and [proto] stands
    for the properties it reaches through its prototype chain. *)
Definition this_runnables (g : RunnableParallel) (proto : list (string * js_value)) : js_value :=
  JsObject (runnables g) proto.

(** [name in v]: an own property or an inherited one.  It is only
    asked of [this.runnables], which is an object ([in] throws on a
    primitive). *)
Definition has_property (v : js_value) (name : string) : bool :=
  match v with
  | JsObject own proto => obj_has name own || obj_has name proto
  | _ => false
  end.

Definition getRunnames (g : RunnableParallel) : list string := runnableNames g.

Definition hasRunnable (g : RunnableParallel) (proto : list (string * js_value))
    (name : string) : bool :=
  has_property (this_runnables g proto) name.

Definition getRunnable (g : RunnableParallel) (proto : list (string * js_value))
    (name : string) : js_value :=
  get_property (this_runnables g proto) name.

(** ** Vocabulary of the statements *)

(** How the promise returned by [runnable.invoke(input, config)]
    settles, when [invoke] is a function. *)
Definition branch_fate (input : I) (config : C) (runnable : js_value) : option settled :=
  match get_property runnable "invoke" with
  | JsFunction f => Some (fn_call f input config)
  | _ => None
  end.

Definition mk_invocation (input : I) (config : C) (name : string) : invocation :=
  {| inv_name := name; inv_input := input; inv_config := config |}.

Fixpoint count_resumes (evs : list event) : nat :=
  match evs with
  | [] => 0
  | Resume :: evs' => S (count_resumes evs')
  | Settle _ :: evs' => count_resumes evs'
  end.

(** A schedule in which every promise of [needed] settles and the
    suspended code is then resumed at least [budget] times. *)
Definition fair_schedule (needed : list nat) (budget : nat) (evs : list event) : Prop :=
  exists evs1 evs2,
    evs = evs1 ++ evs2 /\
    Forall (fun p => Settle p ∈ evs1) needed /\
    budget <= count_resumes evs2.

(** What a suspended call ends as when the promises it awaits settle
    the way they are fated to. *)
Fixpoint join_todo (ps : list promise) (todo : list (string * nat))
    (results : list (string * V)) : option call_status :=
  match todo with
  | [] => Some (Returned results)
  | (name, p) :: rest =>
      match ps !! p with
      | Some pr =>
          match fate pr with
          | Fulfilled v => join_todo ps rest (obj_assign name v results)
          | Rejected e => Some (Thrown (Reason e))
          end
      | None => None
      end
  end.

Definition call_outcome (ps : list promise) (st : call_status) : option call_status :=
  match st with
  | Awaiting current rest results => join_todo ps (current :: rest) results
  | _ => Some st
  end.

(** The promises a suspended call has yet to await before it ends. *)
Fixpoint needs_todo (ps : list promise) (todo : list (string * nat)) : list nat :=
  match todo with
  | [] => []
  | (_, p) :: rest =>
      p :: match fate <$> ps !! p with
           | Some (Fulfilled _) => needs_todo ps rest
           | _ => []
           end
  end.

Definition call_needs (ps : list promise) (st : call_status) : list nat :=
  match st with
  | Awaiting current rest _ => needs_todo ps (current :: rest)
  | _ => []
  end.

(** Both methods start the branches the same way, up to the callback
    attached to each promise. *)
Fixpoint launch_all (slot : string -> option string) (entries : list (string * js_value))
    (input : I) (config : C) (proms : list (string * nat)) (w : world)
    : world * (exn + list (string * nat)) :=
  match entries with
  | [] => (w, inr proms)
  | (name, runnable) :: rest =>
      match call_invoke name runnable input config (slot name) w with
      | (w', inr p) => launch_all slot rest input config (obj_assign name p proms) w'
      | (w', inl err) => (w', inl err)
      end
  end.

(** [w'] is [w] after one pending promise per entry was created, in
    order, and [new] names them. *)
Definition launched (slot : string -> option string) (input : I) (config : C)
    (entries : list (string * js_value)) (w w' : world) (new : list (string * nat)) : Prop :=
  new.*1 = Object_keys entries /\
  new.*2 = seq (length (store w)) (length entries) /\
  calls w' = calls w ++ (mk_invocation input config <$> Object_keys entries) /\
  length (store w') = length (store w) + length entries /\
  (forall q, q < length (store w) -> store w' !! q = store w !! q) /\
  (forall i e, entries !! i = Some e ->
     exists f, branch_fate input config e.2 = Some f /\
       store w' !! (length (store w) + i)
       = Some {| fate := f; is_settled := false; reaction := slot e.1 |}).

(** The entry [t] of a [promises] object holds the promise of the
    branch [e]. *)
Definition holds_promise_of (input : I) (config : C) (ps : list promise)
    (t : string * nat) (e : string * js_value) : Prop :=
  t.1 = e.1 /\ exists pr, ps !! t.2 = Some pr /\ branch_fate input config e.2 = Some (fate pr).

(** The moves of a stream run, one constructor for each way
    [stream_step] can act. *)
Inductive stream_trans (g : RunnableParallel) (input : I) (config : C)
  : world * stream_state -> world * stream_state -> Prop :=
| trans_idle s : stream_trans g input config s s
| trans_settle w st p pr :
    store w !! p = Some pr -> is_settled pr = false ->
    stream_trans g input config (w, st)
      ({| store := alter mark_settled p (store w); calls := calls w |},
       decide_race p (run_reaction pr st))
| trans_start w st w' proms :
    phase_of st = NotStarted ->
    stream_start_all g (runnableNames g) input config [] w = (w', inr proms) ->
    stream_trans g input config (w, st)
      (w', stream_loop g (store w') (with_promises proms (stream_begin st)))
| trans_start_fail w st w' err :
    phase_of st = NotStarted ->
    stream_start_all g (runnableNames g) input config [] w = (w', inl err) ->
    stream_trans g input config (w, st) (w', with_phase (Failed err) (stream_begin st))
| trans_yield w st name p pr v results :
    phase_of st = Racing (Some name) ->
    obj_get name (promises st) = Some p -> store w !! p = Some pr ->
    fate pr = Fulfilled v -> heap st !! results_ref st = Some results ->
    stream_trans g input config (w, st) (w, stream_yield name results st)
| trans_reject w st name p pr e :
    phase_of st = Racing (Some name) ->
    obj_get name (promises st) = Some p -> store w !! p = Some pr ->
    fate pr = Rejected e ->
    stream_trans g input config (w, st) (w, with_phase (Failed (Reason e)) st)
| trans_next w st name :
    phase_of st = Suspended name ->
    stream_trans g input config (w, st)
      (w, stream_loop g (store w) (with_promises (obj_delete name (promises st)) st)).

(** The branches whose promise is kept by [promises[name] = ...], and
    so is awaited: all but a branch named [__proto__]. *)
Definition awaited (g : RunnableParallel) : list (string * js_value) :=
  obj_delete "__proto__" (runnables g).

(** How the branch under [name] settles. *)
Definition name_fate (g : RunnableParallel) (input : I) (config : C) (name : string)
    : option settled :=
  obj_get name (runnables g) ≫= branch_fate input config.

(** Every entry of [a] is an entry of [b], with the same value. *)
Definition sub_obj (a b : list (string * V)) : Prop :=
  forall k v, obj_get k a = Some v -> obj_get k b = Some v.

(** What holds of every state of every stream run, whatever the group. *)
Record stream_sound (g : RunnableParallel) (input : I) (config : C)
    (s : world * stream_state) : Prop := {
  sound_idle : phase_of s.2 = NotStarted -> store s.1 = [] /\ yielded s.2 = [];
  sound_fates : forall p pr name,
    store s.1 !! p = Some pr -> reaction pr = Some name ->
    name_fate g input config name = Some (fate pr);
  sound_results_ref : phase_of s.2 <> NotStarted -> results_ref s.2 < length (heap s.2);
  sound_yielded :
    Forall (fun l => l < length (heap s.2) /\ l <> results_ref s.2) (yielded s.2);
  sound_nodup : NoDup (yielded s.2);
  sound_results : forall results,
    heap s.2 !! results_ref s.2 = Some results ->
    own_keys_ordered results = true
    /\ forall k v, obj_get k results = Some v ->
                   name_fate g input config k = Some (Fulfilled v);
  sound_below : forall l snap results,
    l ∈ yielded s.2 -> heap s.2 !! l = Some snap ->
    heap s.2 !! results_ref s.2 = Some results -> sub_obj snap results;
  sound_chain : forall i j li lj si sj,
    i <= j -> yielded s.2 !! i = Some li -> yielded s.2 !! j = Some lj ->
    heap s.2 !! li = Some si -> heap s.2 !! lj = Some sj -> sub_obj si sj;
  sound_complete : forall p pr name v results,
    store s.1 !! p = Some pr -> is_settled pr = true -> fate pr = Fulfilled v ->
    reaction pr = Some name -> name <> "__proto__" ->
    heap s.2 !! results_ref s.2 = Some results ->
    obj_get name results = Some v;
  sound_own : forall results,
    heap s.2 !! results_ref s.2 = Some results -> obj_get "__proto__" results = None
}.

(** Resumptions left before a started generator has handed out the
    result of every branch it awaits, when no await has to wait. *)
Definition resumes_left (g : RunnableParallel) (st : stream_state) : nat :=
  match phase_of st with
  | Racing _ => 2 * (length (awaited g) - completed st)
  | Suspended _ => S (2 * (length (awaited g) - completed st))
  | _ => 0
  end.

(** What holds of every state of a started stream of a group built by
    the constructor. *)
Record stream_live (g : RunnableParallel) (s : world * stream_state) : Prop := {
  live_store : length (store s.1) = length (runnableNames g);
  live_reactions : forall p name,
    runnableNames g !! p = Some name -> reaction <$> store s.1 !! p = Some (Some name);
  live_results : is_Some (heap s.2 !! results_ref s.2);
  live_promises : forall name p,
    obj_get name (promises s.2) = Some p -> runnableNames g !! p = Some name;
  live_nodup : NoDup (Object_keys (promises s.2));
  live_bound : completed s.2 <= length (awaited g);
  live_phase :
    match phase_of s.2 with
    | NotStarted => False
    | Racing winner =>
        completed s.2 + length (promises s.2) = length (awaited g)
        /\ completed s.2 < length (runnableNames g)
        /\ match winner with
           | None => Forall (fun t => settled_in (store s.1) t.2 = false) (promises s.2)
           | Some name =>
               exists p, obj_get name (promises s.2) = Some p
                         /\ settled_in (store s.1) p = true
           end
    | Suspended name =>
        completed s.2 + length (promises s.2) = S (length (awaited g))
        /\ name ∈ Object_keys (promises s.2)
    | Finished => completed s.2 = length (runnableNames g) /\ promises s.2 = []
    | Failed _ => True
    end;
  live_yielded : length (yielded s.2) = completed s.2;
  live_last : forall name,
    name ∈ Object_keys (awaited g) ->
    name ∉ Object_keys (promises s.2) \/ phase_of s.2 = Suspended name ->
    exists l snap v,
      last (yielded s.2) = Some l /\ heap s.2 !! l = Some snap /\ obj_get name snap = Some v;
  live_left : resumes_left g s.2 <= 2 * length (runnableNames g);
  live_own : "__proto__" ∉ Object_keys (promises s.2)
}.

(** A stream schedule is fair when the consumer asks for the first
    value, every branch promise settles, and generator and consumer
    are then resumed often enough: twice per branch. *)
Definition fair_stream_schedule (n : nat) (evs : list event) : Prop :=
  exists evs0 evs',
    evs = evs0 ++ evs' /\ Resume ∈ evs0 /\ fair_schedule (seq 0 n) (2 * n) evs'.

(** A live state of a stream that has not thrown. *)
Definition stream_good (g : RunnableParallel) (input : I) (config : C)
    (s : world * stream_state) : Prop :=
  stream_live g s /\ stream_sound g input config s /\ forall err, phase_of s.2 <> Failed err.

Definition all_settled (n : nat) (ps : list promise) : Prop :=
  forall p, p < n -> settled_in ps p = true.

Fixpoint count_bresumes (i : nat) (evs : list batch_event) : nat :=
  match evs with
  | [] => 0
  | BResume j :: evs' =>
      if Nat.eqb i j then S (count_bresumes i evs') else count_bresumes i evs'
  | BSettle _ :: evs' => count_bresumes i evs'
  end.

(** A batch schedule in which each of the first [np] promises settles
    and each of the [nr] calls is then resumed at least [budget]
    times. *)
Definition fair_batch_schedule (np nr budget : nat) (evs : list batch_event) : Prop :=
  exists evs1 evs2,
    evs = evs1 ++ evs2 /\
    Forall (fun p => BSettle p ∈ evs1) (seq 0 np) /\
    forall i, i < nr -> budget <= count_bresumes i evs2.

(** [Promise.all] is as the calls it joins warrant. *)
Definition batch_sync (b : batch_state) : Prop :=
  match joined b with
  | AllPending =>
      (forall i err, runs b !! i <> Some (Thrown err)) /\ all_returned (runs b) = None
  | AllFulfilled values => all_returned (runs b) = Some values
  | AllRejected err => exists i, runs b !! i = Some (Thrown err)
  end.

(** [st] is a call of the group on [input] that has started its
    branches: it awaits the promises it kept, in enumeration order. *)
Definition call_of (g : RunnableParallel) (input : I) (config : C) (ps : list promise)
    (st : call_status) : Prop :=
  exists todo,
    st = call_loop todo []
    /\ Forall2 (holds_promise_of input config ps) todo (awaited g).

(** The promises the [i]-th call of a batch has yet to await. *)
Definition batch_needs (s : world * batch_state) (i : nat) : list nat :=
  match runs s.2 !! i with
  | Some st => call_needs (store s.1) st
  | None => []
  end.

(** Each call of a batch is a call of the group on its input, on its
    way to the end it was bound to from the start. *)
Definition batch_tracks (g : RunnableParallel) (inputs : list I) (config : C)
    (s : world * batch_state) : Prop :=
  forall i input st,
    inputs !! i = Some input -> runs s.2 !! i = Some st ->
    exists todo k,
      Forall2 (holds_promise_of input config (store s.1)) todo (awaited g)
      /\ call_outcome (store s.1) st = join_todo (store s.1) todo []
      /\ call_needs (store s.1) st = drop k (needs_todo (store s.1) todo).

(** [err] is the reason with which a branch of the group rejects on
    [input]. *)
Definition raised_by_branch (g : RunnableParallel) (input : I) (config : C) (err : exn)
    : Prop :=
  exists br e,
    br ∈ runnables g /\ branch_fate input config br.2 = Some (Rejected e) /\ err = Reason e.

(** [results] has the names of the [entries], in their order, each
    with the value its branch resolves to on [input]. *)
Definition result_map_of (entries : list (string * js_value)) (input : I) (config : C)
    (results : list (string * V)) : Prop :=
  Forall2 (fun br kv => kv.1 = br.1 /\ branch_fate input config br.2 = Some (Fulfilled kv.2))
          entries results.

Definition is_awaiting (st : call_status) : bool :=
  match st with Awaiting _ _ _ => true | _ => false end.

(** [invoke(input, config)] ends as [final]: it does so on every fair
    schedule, and on no schedule does it end in another way. *)
Definition invoke_ends_as (g : RunnableParallel) (input : I) (config : C)
    (final : call_status) : Prop :=
  let n := length (runnableNames g) in
  (forall evs, fair_schedule (seq 0 n) n evs -> (run_invoke g input config evs).2 = final)
  /\ (forall evs, is_awaiting (run_invoke g input config evs).2 = false ->
                  (run_invoke g input config evs).2 = final).

End Model.

Arguments settled : clear implicits.
Arguments callable : clear implicits.
Arguments js_value : clear implicits.
Arguments exn : clear implicits.
Arguments RunnableParallel : clear implicits.
Arguments promise : clear implicits.
Arguments invocation : clear implicits.
Arguments world : clear implicits.
Arguments call_status : clear implicits.
Arguments phase : clear implicits.
Arguments stream_state : clear implicits.
Arguments all_status : clear implicits.
Arguments batch_state : clear implicits.

(** ** Config objects *)
Module Config.

(** Modelled from the spec: RunnableConfig and its [child()]
    (core/context.js is not among the sources).  "attributes:
    callbacks, metadata, tags, recursionLimit"; "child() returns a
    copy with recursionLimit decremented by one; invoking child()
    when recursionLimit is already zero is an error"; "never mutated
    in place; merge(other) and child() always return a new object". *)
Record RunnableConfig : Type := {
  callbacks : list nat;
  metadata : list (string * string);
  tags : list string;
  recursionLimit : nat
}.

Definition decremented (cfg : RunnableConfig) (limit : nat) : RunnableConfig :=
  {| callbacks := callbacks cfg; metadata := metadata cfg; tags := tags cfg;
     recursionLimit := limit |}.

(** Config objects live in a store and are passed by reference;
    [child] allocates the copy. *)
Definition child (cs : list RunnableConfig) (c : nat) : option (nat * list RunnableConfig) :=
  match cs !! c with
  | Some cfg =>
      match recursionLimit cfg with
      | O => None
      | S limit => Some (length cs, cs ++ [decremented cfg limit])
      end
  | None => None
  end.

(** [c'] is a config derived from [c] by [child()]. *)
Definition child_of (cs : list RunnableConfig) (c c' : nat) : Prop :=
  c' <> c /\
  exists cfg cfg', cs !! c = Some cfg /\ cs !! c' = Some cfg' /\
                   S (recursionLimit cfg') = recursionLimit cfg.

End Config.

(** ** The groups of the tutorial (tutorial/02_agent_advance/03_modern_ai/01_parallel_orchestration.js) *)
Module Tutorial.

(** [new LabelRunnable(label, delayMs)]: [_call] resolves, after the
    delay, with [`${label}: ${input}`]; [invoke] is inherited. *)
Definition LabelRunnable (label : string) (delayMs : Z) : js_value string string string nat :=
  JsObject [("label", JsString label); ("delayMs", JsNumber delayMs)]
           [("invoke", JsFunction (Callable (fun input _ => Fulfilled (label +:+ ": " +:+ input))
                                            []))].

(** A Runnable whose [_call] throws [reason]. *)
Definition FailingRunnable (reason : string) : js_value string string string nat :=
  JsObject [] [("invoke", JsFunction (Callable (fun _ _ => Rejected reason) []))].

Definition options : list (string * js_value string string string nat) :=
  [("summary", LabelRunnable "summary" 400);
   ("keywords", LabelRunnable "keywords" 200);
   ("sentiment", LabelRunnable "sentiment" 300)].

(** [new RunnableParallel({ summary, keywords, sentiment })] *)
Definition parallel : RunnableParallel string string string nat :=
  {| runnables := options; runnableNames := ["summary"; "keywords"; "sentiment"] |}.

Definition input : string := "Local LLMs enable privacy-first AI.".

(** Two groups that differ in which branch fails, with the same error. *)
Definition first_fails : RunnableParallel string string string nat :=
  {| runnables := [("a", FailingRunnable "boom"); ("b", LabelRunnable "b" 0)];
     runnableNames := ["a"; "b"] |}.

Definition second_fails : RunnableParallel string string string nat :=
  {| runnables := [("a", LabelRunnable "a" 0); ("b", FailingRunnable "boom")];
     runnableNames := ["a"; "b"] |}.

(** Two branches fail; the second one fails first in time. *)
Definition both_fail : RunnableParallel string string string nat :=
  {| runnables := [("ok", LabelRunnable "ok" 0); ("slow", FailingRunnable "slow failure");
                   ("fast", FailingRunnable "fast failure")];
     runnableNames := ["ok"; "slow"; "fast"] |}.

(** An options object written with a plain name before an
    integer-like one, [{ b: ..., 1: ... }]: the properties in the order
    they are written. *)
Definition name_then_index : list (string * js_value string string string nat) :=
  [("b", LabelRunnable "b" 0); ("1", LabelRunnable "1" 0)].

(** The same, with two branches that fail. *)
Definition name_then_index_failing : list (string * js_value string string string nat) :=
  [("b", FailingRunnable "b failed"); ("1", FailingRunnable "1 failed")].

(** A group with a branch named [__proto__], as
    [new RunnableParallel({ ['__proto__']: p, a })] or a mapping read
    by [JSON.parse] builds one. *)
Definition proto_named : RunnableParallel string string string nat :=
  {| runnables := [("__proto__", LabelRunnable "p" 0); ("a", LabelRunnable "a" 0)];
     runnableNames := ["__proto__"; "a"] |}.

(** The branches complete by increasing delay: keywords (200 ms),
    sentiment (300 ms), summary (400 ms). *)
Definition by_delay : list event :=
  [Settle 1; Resume; Settle 2; Settle 0; Resume; Resume; Resume].

(** The same completion order for a stream: the consumer asks for the
    first value, then for the next one as soon as it has one. *)
Definition stream_by_delay : list event :=
  [Resume; Settle 1; Resume; Resume; Settle 2; Settle 0;
   Resume; Resume; Resume; Resume; Resume; Resume].

(** The config of the tutorial, alone in the store of config objects,
    with the recursion limit of the README's example. *)
Definition config_store : list Config.RunnableConfig :=
  [{| Config.callbacks := [];
      Config.metadata := [("lesson", "parallel-orchestration")];
      Config.tags := ["modern-ai"; "parallel"];
      Config.recursionLimit := 25 |}].

(** An options object whose values are all LabelRunnables, as the
    one [main] builds: a name, a label and a delay for each. *)
Definition labelled (specs : list (string * string * Z))
    : list (string * js_value string string string nat) :=
  (fun spec => (spec.1.1, LabelRunnable spec.1.2 spec.2)) <$> specs.

(** What a LabelRunnable resolves to: [`${this.label}: ${input}`]. *)
Definition label_of (input : string) (spec : string * string * Z) : string :=
  spec.1.2 +:+ ": " +:+ input.

(** Two inputs for [parallel.batch(inputs, config)]. *)
Definition batch_inputs : list string :=
  [input; "Agents compose small tools."].

(** The call on the second input completes before the call on the
    first one. *)
Definition second_input_first : list batch_event :=
  [BSettle 4; BSettle 5; BSettle 3; BResume 1; BResume 1; BSettle 1; BSettle 2; BSettle 0;
   BResume 1; BResume 0; BResume 1; BResume 0; BResume 1; BResume 0].

End Tutorial.

(** * Logger (utils/logger.js), the logger [main] writes with *)
Module Logger.

Inductive console : Type := console_error | console_warn | console_log.

(** What [this.levels[name]] can be: the number under an own key, a
    member of [Object.prototype] (a function or an object: truthy, and
    [NaN] once converted to a number), or [undefined]. *)
Inductive level_value : Type :=
| LevelNumber (n : Z)
| LevelInherited
| LevelUndefined.

Record options : Type := {
  opt_level : option string;
  opt_prefix : option string;
  opt_includeTimestamp : option bool;
  opt_includeLevel : option bool
}.

Record Logger : Type := {
  level : string;
  prefix : string;
  includeTimestamp : bool;
  includeLevel : bool;
  currentLevel : level_value
}.

(** [this.levels], lines 13-18 *)
Definition levels : list (string * Z) :=
  [("error", 0%Z); ("warn", 1%Z); ("info", 2%Z); ("debug", 3%Z)].

(** [s || d], for a string or [undefined]: the empty string is falsy. *)
Definition string_or (s : option string) (d : string) : string :=
  match s with
  | Some s' => if String.eqb s' "" then d else s'
  | None => d
  end.

(** [v || 2] *)
Definition or_2 (v : level_value) : level_value :=
  match v with
  | LevelNumber n => if (n =? 0)%Z then LevelNumber 2 else LevelNumber n
  | LevelInherited => LevelInherited
  | LevelUndefined => LevelNumber 2
  end.

(** [a >= b]: false as soon as one side is [NaN]. *)
Definition ge (a b : level_value) : bool :=
  match a, b with
  | LevelNumber n, LevelNumber m => (m <=? n)%Z
  | _, _ => false
  end.

(** Upper case of an ASCII letter; [_format] is only called with the
    four level names. *)
Definition upper_ascii (a : ascii) : ascii :=
  let n := nat_of_ascii a in
  if Nat.leb 97 n && Nat.leb n 122 then ascii_of_nat (n - 32) else a.

Fixpoint toUpperCase (s : string) : string :=
  match s with
  | EmptyString => EmptyString
  | String a s' => String (upper_ascii a) (toUpperCase s')
  end.

Definition newline : string := String (ascii_of_nat 10) EmptyString.

Section WithPrototype.

(** [inherited name]: [Object.prototype] has a member called [name]
    (as it has [toString], [constructor] or [__proto__]). *)
Variable inherited : string -> bool.

(** [this.levels[name]] *)
Definition levels_get (name : string) : level_value :=
  match obj_get name levels with
  | Some n => LevelNumber n
  | None => if inherited name then LevelInherited else LevelUndefined
  end.

(** [new Logger(options)], lines 7-21 *)
Definition new (o : options) : Logger :=
  let lvl := string_or (opt_level o) "info" in
  {| level := lvl;
     prefix := string_or (opt_prefix o) "[AI-Agent]";
     includeTimestamp := default true (opt_includeTimestamp o);
     includeLevel := default true (opt_includeLevel o);
     currentLevel := or_2 (levels_get lvl) |}.

(** [_getTimestamp()], lines 26-31; [time] is what
    [new Date().toLocaleTimeString()] returns at the call. *)
Definition _getTimestamp (lg : Logger) (time : string) : string :=
  if negb (includeTimestamp lg) then "" else "[" +:+ time +:+ "] ".

(** [_format(level, message, data)], lines 36-51; [data] is the text
    [JSON.stringify(data, null, 2)] when [data] is truthy, and [None]
    when it is falsy or absent. *)
Definition _format (lg : Logger) (time : string) (lvl message : string) (data : option string)
    : string :=
  let output := _getTimestamp lg time in
  let output := output +:+ prefix lg +:+ " " in
  let output :=
    if includeLevel lg then output +:+ "[" +:+ toUpperCase lvl +:+ "] " else output in
  let output := output +:+ message in
  match data with
  | Some json => output +:+ newline +:+ json
  | None => output
  end.

(** The four logging methods, lines 56-87: what they write to the
    console. *)
Definition error (lg : Logger) (time message : string) (data : option string)
    : list (console * string) :=
  if ge (currentLevel lg) (levels_get "error")
  then [(console_error, _format lg time "error" message data)] else [].

Definition warn (lg : Logger) (time message : string) (data : option string)
    : list (console * string) :=
  if ge (currentLevel lg) (levels_get "warn")
  then [(console_warn, _format lg time "warn" message data)] else [].

Definition info (lg : Logger) (time message : string) (data : option string)
    : list (console * string) :=
  if ge (currentLevel lg) (levels_get "info")
  then [(console_log, _format lg time "info" message data)] else [].

Definition debug (lg : Logger) (time message : string) (data : option string)
    : list (console * string) :=
  if ge (currentLevel lg) (levels_get "debug")
  then [(console_log, _format lg time "debug" message data)] else [].

(** [setLevel(level)], lines 92-95 *)
Definition setLevel (lg : Logger) (lvl : string) : Logger :=
  {| level := lvl;
     prefix := prefix lg;
     includeTimestamp := includeTimestamp lg;
     includeLevel := includeLevel lg;
     currentLevel := or_2 (levels_get lvl) |}.

End WithPrototype.

End Logger.

(** * TokenCounter (utils/token-counter.js)

    A text is the list of its UTF-16 code units, whatever they are:
    the class only takes lengths and prefixes.  Numbers are integers:
    a counter is one whose [estimationRatio], a number of code units
    per token, and [contextSize] are whole numbers, as the defaults
    [4] and [4096] are.
    On integers below 2^53 the floating-point operations of the class
    are exact: [Math.ceil(n / r)] is the ceiling of the quotient, and
    [Math.floor(n * 0.1)] is [n / 10] for every length a string can
    have. *)
Module TokenCounter.

Section WithCodeUnits.
Context {U : Type}.

(** [tokenizer]: what [tokenizer.encode(text).length] is, or [None]
    when [encode] throws. *)
Record TokenCounter : Type := {
  tokenizer : option (list U -> option Z);
  estimationRatio : Z;
  contextSize : Z
}.

Record options : Type := {
  opt_tokenizer : option (list U -> option Z);
  opt_estimationRatio : option Z;
  opt_contextSize : option Z
}.

(** [n || d], for a number or [undefined]: [0] is falsy. *)
Definition number_or (n : option Z) (d : Z) : Z :=
  match n with
  | Some n' => if (n' =? 0)%Z then d else n'
  | None => d
  end.

(** [new TokenCounter(options)], lines 9-13 *)
Definition new (o : options) : TokenCounter :=
  {| tokenizer := opt_tokenizer o;
     estimationRatio := number_or (opt_estimationRatio o) 4;
     contextSize := number_or (opt_contextSize o) 4096 |}.

(** [Math.ceil(n / r)] *)
Definition ceil_div (n r : Z) : Z := (- ((- n) / r))%Z.

(** [count(text)], lines 20-34; the warning printed when the tokenizer
    throws is left out. *)
Definition count (tc : TokenCounter) (text : list U) : Z :=
  match text with
  | [] => 0%Z
  | _ =>
      let estimate := ceil_div (Z.of_nat (length text)) (estimationRatio tc) in
      match tokenizer tc with
      | Some encode =>
          match encode text with
          | Some n => n
          | None => estimate
          end
      | None => estimate
      end
  end.

(** [countMessages(messages)], lines 41-51.  [None] stands for an
    argument that is not an array; a message is given by its
    [content], [None] when it has none. *)
Definition countMessages (tc : TokenCounter) (messages : option (list (option (list U)))) : Z :=
  match messages with
  | None => 0%Z
  | Some msgs =>
      fold_left (fun total message => (total + count tc (default [] message) + 4)%Z) msgs 0%Z
  end.

Record limit_report : Type := {
  isWithinLimit_ : bool;
  tokenCount : Z;
  remainingTokens : Z
}.

(** [isWithinLimit(text, bufferTokens = 512)], lines 59-68 *)
Definition isWithinLimit (tc : TokenCounter) (text : list U) (bufferTokens : option Z)
    : limit_report :=
  let buffer := default 512%Z bufferTokens in
  let tokenCount := count tc text in
  let remainingTokens := (contextSize tc - tokenCount - buffer)%Z in
  {| isWithinLimit_ := (0 <? remainingTokens)%Z;
     tokenCount := tokenCount;
     remainingTokens := Z.max 0 remainingTokens |}.

(** [Math.max(1, Math.floor(estimate.length * 0.1))] *)
Definition chunkSize (estimate : list U) : nat := Nat.max 1 (length estimate / 10).

(** The [while] loop of [truncateToTokens], lines 80-84; [None] when
    [fuel] iterations are not enough. *)
Fixpoint truncate_loop (tc : TokenCounter) (maxTokens : Z) (fuel : nat) (estimate : list U)
    : option (list U) :=
  if (maxTokens <? count tc estimate)%Z && Nat.ltb 0 (length estimate) then
    match fuel with
    | 0 => None
    | S fuel' =>
        truncate_loop tc maxTokens fuel' (take (length estimate - chunkSize estimate) estimate)
    end
  else Some estimate.

(** [truncateToTokens(text, maxTokens)], lines 76-86 *)
Definition truncateToTokens (tc : TokenCounter) (text : list U) (maxTokens : Z)
    : option (list U) :=
  match text with
  | [] => Some []
  | _ => truncate_loop tc maxTokens (length text) text
  end.

End WithCodeUnits.

Arguments TokenCounter : clear implicits.
Arguments options : clear implicits.

End TokenCounter.

(** * RetryManager (utils/retry.js)

    [fn] is called once per attempt: [fn k] is what the call made at
    attempt [k] settles as, a value or an error.  A run is the list of
    what it does, in order, and how it ends. *)
Module RetryManager.

(** The numbers of JavaScript, with what the class does with a delay:
    an integer literal of the source, the test of [||], [a * b] and
    [Math.min(a, b)]. *)
Class Number (num : Type) : Type := {
  of_Z : Z -> num;
  falsy : num -> bool;
  mul : num -> num -> num;
  Math_min : num -> num -> num
}.

(** The integers, with exact products: the numbers of JavaScript as
    long as every delay and every product of a delay and the
    multiplier is an integer of magnitude at most [2 ^ 53]. *)
#[global] Instance safe_integer : Number Z := {|
  of_Z := fun z => z;
  falsy := fun n => (n =? 0)%Z;
  mul := Z.mul;
  Math_min := Z.min
|}.

(** The doubles, by the kernel's binary64 operations.  [Math.min] is
    [NaN] when an argument is, and takes [-0] to be below [+0]. *)
Definition float_of_Z (z : Z) : PrimFloat.float :=
  match z with
  | Z0 => PrimFloat.zero
  | Zpos _ => PrimFloat.of_uint63 (Uint63.of_Z z)
  | Zneg p => PrimFloat.opp (PrimFloat.of_uint63 (Uint63.of_Z (Zpos p)))
  end.

Definition float_min (a b : PrimFloat.float) : PrimFloat.float :=
  if PrimFloat.is_nan a || PrimFloat.is_nan b then PrimFloat.nan
  else if PrimFloat.ltb a b then a
  else if PrimFloat.ltb b a then b
  else if PrimFloat.get_sign a then a else b.

#[global] Instance double : Number PrimFloat.float := {|
  of_Z := float_of_Z;
  falsy := fun x => PrimFloat.is_zero x || PrimFloat.is_nan x;
  mul := PrimFloat.mul;
  Math_min := float_min
|}.

Section WithTypes.
Context {num : Type} {number : Number num} {A Err : Type}.

(** [error.message] *)
Variable message : Err -> string.

Record RetryManager : Type := {
  maxRetries : Z;
  initialDelay : num;
  backoffMultiplier : num;
  maxDelay : num;
  shouldRetry : Err -> bool
}.

Record options : Type := {
  opt_maxRetries : option Z;
  opt_initialDelay : option num;
  opt_backoffMultiplier : option num;
  opt_maxDelay : option num;
  opt_shouldRetry : option (Err -> bool)
}.

(** [n || d], for a number or [undefined]: [0] is falsy. *)
Definition number_or (n : option Z) (d : Z) : Z :=
  match n with
  | Some n' => if (n' =? 0)%Z then d else n'
  | None => d
  end.

Definition delay_or (n : option num) (d : num) : num :=
  match n with
  | Some n' => if falsy n' then d else n'
  | None => d
  end.

(** [new RetryManager(options)], lines 7-13 *)
Definition new (o : options) : RetryManager :=
  {| maxRetries := number_or (opt_maxRetries o) 3;
     initialDelay := delay_or (opt_initialDelay o) (of_Z 1000);
     backoffMultiplier := delay_or (opt_backoffMultiplier o) (of_Z 2);
     maxDelay := delay_or (opt_maxDelay o) (of_Z 30000);
     shouldRetry := default (fun _ => true) (opt_shouldRetry o) |}.

(** What [execute] throws: the error of [fn] itself, an [Error] of
    its own, or the [TypeError] of reading [lastError.message] when
    [lastError] is [undefined]. *)
Inductive thrown : Type :=
| Rethrown (error : Err)
| Error (message : string)
| TypeError (message : string).

(** [Log before delay after] is [console.log] of the template literal
    that reads [before], then the delay as a string, then [after]. *)
Inductive effect : Type :=
| Call (attempt : nat)
| Log (before : string) (delay : num) (after : string)
| Sleep (ms : num).

(** After the loop, lines 46-48. *)
Definition failed_after (rm : RetryManager) (lastError : option Err) : thrown :=
  match lastError with
  | Some error =>
      Error ("Failed after " +:+ pretty (maxRetries rm + 1)%Z +:+ " attempts: "
             +:+ message error)
  | None => TypeError "Cannot read properties of undefined (reading 'message')"
  end.

(** The [for] loop of [execute], lines 24-44, with [left] iterations
    to go. *)
Fixpoint attempts (rm : RetryManager) (fn : nat -> A + Err) (left attempt : nat) (delay : num)
    (lastError : option Err) : list effect * (A + thrown) :=
  match left with
  | 0 => ([], inr (failed_after rm lastError))
  | S left' =>
      match fn attempt with
      | inl value => ([Call attempt], inl value)
      | inr error =>
          if negb (shouldRetry rm error) then ([Call attempt], inr (Rethrown error))
          else if (Z.of_nat attempt <? maxRetries rm)%Z then
            let before := "Attempt " +:+ pretty (Z.of_nat attempt + 1)%Z +:+ " failed: "
                          +:+ message error +:+ ". Retrying in " in
            let next := attempts rm fn left' (S attempt)
                          (Math_min (mul delay (backoffMultiplier rm)) (maxDelay rm))
                          (Some error) in
            (Call attempt :: Log before delay "ms..." :: Sleep delay :: next.1, next.2)
          else
            let next := attempts rm fn left' (S attempt) delay (Some error) in
            (Call attempt :: next.1, next.2)
      end
  end.

(** [execute(fn)], lines 20-49: [attempt] runs from [0] to
    [maxRetries]. *)
Definition execute (rm : RetryManager) (fn : nat -> A + Err) : list effect * (A + thrown) :=
  attempts rm fn (Z.to_nat (maxRetries rm + 1)) 0 (initialDelay rm) None.

(** The attempts made and the delays slept, in order. *)
Definition calls_made (effects : list effect) : list nat :=
  omap (fun ef => match ef with Call attempt => Some attempt | _ => None end) effects.

Definition sleeps_made (effects : list effect) : list num :=
  omap (fun ef => match ef with Sleep ms => Some ms | _ => None end) effects.

(** The delay before the retry that follows attempt [k]: line 41. *)
Fixpoint backoff (rm : RetryManager) (k : nat) : num :=
  match k with
  | 0 => initialDelay rm
  | S k' => Math_min (mul (backoff rm k') (backoffMultiplier rm)) (maxDelay rm)
  end.

End WithTypes.

Arguments RetryManager : clear implicits.
Arguments options : clear implicits.
Arguments thrown : clear implicits.
Arguments effect : clear implicits.

End RetryManager.

(** * The utilities as tutorial 04 sets them up
    (tutorial/02_agent_advance/03_modern_ai/04_resilient_llm_call.js) *)
Module Resilient.

(** [new RetryManager({ maxRetries: 2, initialDelay: 300,
    backoffMultiplier: 2, maxDelay: 2000 })] *)
Definition retry : RetryManager.RetryManager Z string :=
  RetryManager.new
    {| RetryManager.opt_maxRetries := Some 2%Z;
       RetryManager.opt_initialDelay := Some 300%Z;
       RetryManager.opt_backoffMultiplier := Some 2%Z;
       RetryManager.opt_maxDelay := Some 2000%Z;
       RetryManager.opt_shouldRetry := None |}.

(** [new TokenCounter({ contextSize: 4096 })] *)
Definition counter : TokenCounter.TokenCounter ascii :=
  TokenCounter.new
    {| TokenCounter.opt_tokenizer := None;
       TokenCounter.opt_estimationRatio := None;
       TokenCounter.opt_contextSize := Some 4096%Z |}.

Definition prompt : list ascii :=
  list_ascii_of_string "Summarize why local LLMs are good for privacy and latency.".

(** An [fn] that fails twice, then succeeds; one that always fails. *)
Definition flaky_twice (attempt : nat) : string + string :=
  if Nat.ltb attempt 2 then inr "Transient LLM/network error" else inl "{}".

Definition always_failing (attempt : nat) : string + string :=
  inr "Transient LLM/network error".

(** The logger of tutorial 01: [new Logger({ level: "info", prefix: "[Parallel]" })],
    and one made with the level [error]. *)
Definition logger_options : Logger.options :=
  {| Logger.opt_level := Some "info"; Logger.opt_prefix := Some "[Parallel]";
     Logger.opt_includeTimestamp := None; Logger.opt_includeLevel := None |}.

Definition errors_only_options : Logger.options :=
  {| Logger.opt_level := Some "error"; Logger.opt_prefix := None;
     Logger.opt_includeTimestamp := Some false; Logger.opt_includeLevel := None |}.

End Resilient.

(** * Properties *)

(** ** Ordered property lists *)
Section JsObjFacts.
Context {A : Type}.
Implicit Types (o : list (string * A)) (k : string) (v : A).

Lemma key_before_trans k1 k2 k3 :
  key_before k1 k2 = true -> key_before k2 k3 = true -> key_before k1 k3 = true.
Proof.
  unfold key_before.
  destruct (array_index k1), (array_index k2), (array_index k3);
    try discriminate; try reflexivity.
  rewrite !N.leb_le. lia.
Qed.

Lemma obj_get_None k o : obj_get k o = None <-> k ∉ Object_keys o.
Proof.
  induction o as [|[k' v'] o IH]; simpl.
  - split; [intros _; apply not_elem_of_nil | done].
  - rewrite not_elem_of_cons. destruct (String.eqb_spec k' k) as [->|Hne].
    + split; [discriminate | intros [? _]; done].
    + rewrite IH. split; [intros ?; split; [congruence | done] | intros [_ ?]; done].
Qed.

Lemma obj_get_Some_in k v o : obj_get k o = Some v -> (k, v) ∈ o.
Proof.
  induction o as [|[k' v'] o IH]; simpl; [discriminate|].
  destruct (String.eqb_spec k' k) as [->|Hne].
  - intros [= ->]. apply list_elem_of_here.
  - intros H. apply list_elem_of_further, IH, H.
Qed.

Lemma obj_get_is_Some k o : is_Some (obj_get k o) <-> k ∈ Object_keys o.
Proof.
  destruct (obj_get k o) as [v|] eqn:Hg.
  - split; [intros _ | eauto].
    destruct (decide (k ∈ Object_keys o)) as [|Hn]; [done|].
    apply obj_get_None in Hn. congruence.
  - split; [intros [? ?]; discriminate|]. apply obj_get_None in Hg. done.
Qed.

Lemma obj_get_replace k v k0 o :
  obj_get k0 (obj_replace k v o)
  = if String.eqb k k0 then (match obj_get k o with Some _ => Some v | None => None end)
    else obj_get k0 o.
Proof.
  induction o as [|[k' v'] o IH]; simpl.
  - by destruct (String.eqb k k0).
  - destruct (String.eqb_spec k' k) as [->|Hne]; simpl.
    + destruct (String.eqb_spec k k0); done.
    + rewrite IH. destruct (String.eqb_spec k k0) as [<-|Hne'].
      * destruct (String.eqb_spec k' k); done.
      * done.
Qed.

Lemma obj_get_insert_index n k v k0 o :
  obj_get k o = None ->
  obj_get k0 (obj_insert_index n k v o) = if String.eqb k k0 then Some v else obj_get k0 o.
Proof.
  induction o as [|[k' v'] o IH]; simpl; [done|].
  destruct (String.eqb_spec k' k) as [->|Hne]; [discriminate|]. intros Hnone.
  destruct (array_index k') as [m|]; [destruct (m <=? n)%N|]; simpl; try done.
  rewrite IH by done.
  destruct (String.eqb_spec k k0) as [<-|?]; [|done].
  destruct (String.eqb_spec k' k); done.
Qed.

Lemma obj_get_app k o1 o2 :
  obj_get k (o1 ++ o2) = match obj_get k o1 with Some x => Some x | None => obj_get k o2 end.
Proof.
  induction o1 as [|[k' v'] o1 IH]; simpl; [done|].
  destruct (String.eqb k' k); done.
Qed.

(** Reading after [o[k] = v]. *)
Lemma obj_get_set k v k0 o :
  obj_get k0 (obj_set k v o) = if String.eqb k k0 then Some v else obj_get k0 o.
Proof.
  unfold obj_set. destruct (obj_get k o) as [x|] eqn:Hg.
  - rewrite obj_get_replace, Hg. done.
  - destruct (array_index k) as [n|].
    + by apply obj_get_insert_index.
    + rewrite obj_get_app. simpl.
      destruct (String.eqb_spec k k0) as [<-|?]; [by rewrite Hg|].
      by destruct (obj_get k0 o).
Qed.

Lemma obj_insert_index_last n k v o :
  array_index k = Some n ->
  Forall (fun k' => key_before k' k = true) (Object_keys o) ->
  obj_insert_index n k v o = o ++ [(k, v)].
Proof.
  intros Hk. induction o as [|[k' v'] o IH]; simpl; [done|].
  intros Hall. apply Forall_cons in Hall as [Hb Hall].
  unfold key_before in Hb. rewrite Hk in Hb.
  destruct (array_index k') as [m|]; [|discriminate].
  rewrite Hb. f_equal. by apply IH.
Qed.

(** A property created after all the others, with a key no earlier
    key has to follow, goes last. *)
Lemma obj_set_fresh_last k v o :
  k ∉ Object_keys o ->
  Forall (fun k' => key_before k' k = true) (Object_keys o) ->
  obj_set k v o = o ++ [(k, v)].
Proof.
  intros Hfresh Hall. apply obj_get_None in Hfresh.
  unfold obj_set. rewrite Hfresh.
  destruct (array_index k) as [n|] eqn:Hk; [|done].
  by apply obj_insert_index_last.
Qed.

Lemma keys_ordered_cons k ks :
  keys_ordered (k :: ks) = true <->
  Forall (fun k' => key_before k k' = true /\ k <> k') ks /\ keys_ordered ks = true.
Proof.
  simpl. rewrite andb_true_iff, forallb_forall, Forall_forall.
  split; intros [H1 H2]; (split; [|done]); intros k' Hin.
  - apply list_elem_of_In, H1 in Hin. apply andb_true_iff in Hin as [? Hne].
    split; [done|]. intros ->. by rewrite String.eqb_refl in Hne.
  - apply list_elem_of_In, H1 in Hin as [Hb Hne]. rewrite Hb. simpl.
    by destruct (String.eqb_spec k k').
Qed.

Lemma keys_ordered_app_cons ks1 k ks2 :
  keys_ordered (ks1 ++ k :: ks2) = true ->
  (k ∉ ks1) /\ Forall (fun k' => key_before k' k = true) ks1.
Proof.
  induction ks1 as [|k1 ks1 IH]; intros Hord.
  - split; [apply not_elem_of_nil | constructor].
  - change ((k1 :: ks1) ++ k :: ks2) with (k1 :: (ks1 ++ k :: ks2)) in Hord.
    apply keys_ordered_cons in Hord as [Hall Hord].
    destruct (IH Hord) as [Hnin Hbef].
    rewrite Forall_forall in Hall.
    destruct (Hall k) as [Hb Hne]; [apply elem_of_app; right; apply list_elem_of_here|].
    split; [rewrite not_elem_of_cons; split; [congruence | done] | by constructor].
Qed.

Lemma keys_ordered_NoDup ks : keys_ordered ks = true -> NoDup ks.
Proof.
  induction ks as [|k ks IH]; [constructor|].
  intros [Hall Hord]%keys_ordered_cons. constructor; [|by apply IH].
  intros Hin. rewrite Forall_forall in Hall. by destruct (Hall k Hin).
Qed.

Lemma Object_keys_replace k v o : Object_keys (obj_replace k v o) = Object_keys o.
Proof.
  induction o as [|[k' v'] o IH]; simpl; [done|].
  destruct (String.eqb k' k); simpl; [done | by rewrite IH].
Qed.

Lemma keys_ordered_snoc ks k :
  keys_ordered ks = true -> k ∉ ks ->
  Forall (fun k' => key_before k' k = true) ks ->
  keys_ordered (ks ++ [k]) = true.
Proof.
  induction ks as [|k1 ks IH]; intros Hord Hnin Hall; [done|].
  apply keys_ordered_cons in Hord as [Hall1 Hord].
  apply not_elem_of_cons in Hnin as [Hne Hnin].
  apply Forall_cons in Hall as [Hb Hall].
  change ((k1 :: ks) ++ [k]) with (k1 :: (ks ++ [k])).
  apply keys_ordered_cons. split; [|by apply IH].
  apply Forall_app. split; [done|]. constructor; [split; congruence | constructor].
Qed.

Lemma keys_ordered_insert_index n k v o :
  array_index k = Some n -> k ∉ Object_keys o ->
  own_keys_ordered o = true ->
  own_keys_ordered (obj_insert_index n k v o) = true
  /\ (forall k0, k0 ∈ Object_keys (obj_insert_index n k v o) <-> k0 = k \/ k0 ∈ Object_keys o).
Proof.
  unfold own_keys_ordered. intros Hk.
  induction o as [|[k' v'] o IH]; simpl; intros Hnin Hord.
  - split; [done|]. intros k0. rewrite list_elem_of_singleton, elem_of_nil. tauto.
  - apply not_elem_of_cons in Hnin as [Hne Hnin].
    pose proof Hord as Hord0.
    apply keys_ordered_cons in Hord as [Hall Hord].
    assert (Hstop : key_before k k' = true ->
              keys_ordered (k :: k' :: Object_keys o) = true).
    { intros Hb. apply keys_ordered_cons. split; [|done].
      constructor; [done|]. rewrite Forall_forall in Hall |- *.
      intros k0 Hin. destruct (Hall k0 Hin) as [Hb' _].
      split; [by eapply key_before_trans | congruence]. }
    destruct (array_index k') as [m|] eqn:Hk'; [destruct (m <=? n)%N eqn:Hle|]; simpl.
    + destruct (IH Hnin Hord) as [IH1 IH2]. split.
      * apply keys_ordered_cons. split; [|done].
        rewrite Forall_forall in Hall |- *. intros k0 [->|Hin]%IH2; [|by apply Hall].
        split; [|congruence]. unfold key_before. by rewrite Hk', Hk.
      * intros k0. rewrite !elem_of_cons, IH2. tauto.
    + split; [|intros k0; rewrite !elem_of_cons; tauto].
      apply Hstop. unfold key_before. rewrite Hk, Hk'.
      apply N.leb_le. apply N.leb_gt in Hle. lia.
    + split; [|intros k0; rewrite !elem_of_cons; tauto].
      apply Hstop. unfold key_before. by rewrite Hk, Hk'.
Qed.

(** Assignment keeps the enumeration order of an ordinary object. *)
Lemma own_keys_ordered_set k v o :
  own_keys_ordered o = true -> own_keys_ordered (obj_set k v o) = true.
Proof.
  intros Hord. unfold obj_set. destruct (obj_get k o) as [x|] eqn:Hg.
  - unfold own_keys_ordered. by rewrite Object_keys_replace.
  - apply obj_get_None in Hg.
    destruct (array_index k) as [n|] eqn:Hk.
    + by apply keys_ordered_insert_index.
    + unfold own_keys_ordered, Object_keys. rewrite map_app. simpl.
      apply keys_ordered_snoc; [done..|].
      apply Forall_forall. intros k' _. unfold key_before. rewrite Hk.
      by destruct (array_index k').
Qed.

Lemma elem_of_keys_set k v k0 o :
  k0 ∈ Object_keys (obj_set k v o) <-> k0 = k \/ k0 ∈ Object_keys o.
Proof.
  rewrite <-!obj_get_is_Some, obj_get_set.
  destruct (String.eqb_spec k k0) as [->|Hne].
  - split; [by left | eauto].
  - split; [by right | intros [->|?]; done].
Qed.

(** An assignment under a name other than [__proto__] creates or
    overwrites the own property. *)
Lemma obj_assign_ne k v o : k <> "__proto__" -> obj_assign k v o = obj_set k v o.
Proof. unfold obj_assign. by destruct (String.eqb_spec k "__proto__"). Qed.

(** No assignment makes [__proto__] an own property. *)
Lemma obj_get_assign k v k0 o :
  obj_get k0 (obj_assign k v o)
  = if String.eqb k "__proto__" then obj_get k0 o
    else if String.eqb k k0 then Some v else obj_get k0 o.
Proof. unfold obj_assign. destruct (String.eqb k "__proto__"); [done | apply obj_get_set]. Qed.

Lemma own_keys_ordered_assign k v o :
  own_keys_ordered o = true -> own_keys_ordered (obj_assign k v o) = true.
Proof.
  unfold obj_assign. destruct (String.eqb k "__proto__"); [done | apply own_keys_ordered_set].
Qed.

Lemma keys_ordered_app_drop ks1 k ks2 :
  keys_ordered (ks1 ++ k :: ks2) = true -> keys_ordered (ks1 ++ ks2) = true.
Proof.
  induction ks1 as [|k1 ks1 IH]; intros Hord.
  - by apply keys_ordered_cons in Hord as [_ ?].
  - change ((k1 :: ks1) ++ k :: ks2) with (k1 :: (ks1 ++ k :: ks2)) in Hord.
    change ((k1 :: ks1) ++ ks2) with (k1 :: (ks1 ++ ks2)).
    apply keys_ordered_cons in Hord as [Hall Hord]. apply keys_ordered_cons.
    split; [|by apply IH]. apply Forall_app in Hall as [H1 H2].
    apply Forall_cons in H2 as [_ H2]. by apply Forall_app.
Qed.

End JsObjFacts.

(** Creating the properties of an ordinary object again, in its own
    enumeration order, gives the same enumeration. *)
Lemma rebuild_ordered {A B} (f : string * A -> B) (o1 o2 : list (string * A)) :
    own_keys_ordered (o1 ++ o2) = true ->
    fold_left (fun acc e => obj_set (fst e) (f e) acc) o2 (map (fun e => (fst e, f e)) o1)
    = map (fun e => (fst e, f e)) (o1 ++ o2).
  Proof.
    revert o1. induction o2 as [|[k a] o2 IH]; intros o1 Hord; cbn [fold_left fst].
    - by rewrite app_nil_r.
    - unfold own_keys_ordered, Object_keys in Hord. rewrite map_app in Hord. simpl in Hord.
      pose proof (keys_ordered_app_cons _ _ _ Hord) as [Hnin Hall].
      rewrite obj_set_fresh_last.
      + specialize (IH (o1 ++ [(k, a)])). rewrite map_app in IH. simpl in IH.
        rewrite <-app_assoc in IH. simpl in IH. apply IH.
        unfold own_keys_ordered, Object_keys. rewrite map_app. simpl. done.
      + unfold Object_keys. by rewrite map_map.
      + unfold Object_keys. by rewrite map_map.
  Qed.

(** Properties none of which is named by an array index are
    enumerated in the order they were created. *)
Lemma obj_of_list_plain {A} (l : list (string * A)) :
  NoDup l.*1 -> Forall (fun kv => array_index kv.1 = None) l -> obj_of_list l = l.
Proof.
  assert (Hgen : forall acc : list (string * A),
            NoDup (acc ++ l).*1 -> Forall (fun kv => array_index kv.1 = None) l ->
            fold_left (fun acc e => obj_set (fst e) (snd e) acc) l acc = acc ++ l).
  { induction l as [|[k v] l IH]; intros acc Hnd Hplain; cbn [fold_left fst snd].
    - by rewrite app_nil_r.
    - apply Forall_cons in Hplain as [Hk Hplain]. simpl in Hk.
      assert (obj_set k v acc = acc ++ [(k, v)]) as ->.
      { unfold obj_set. rewrite Hk.
        assert (obj_get k acc = None) as ->; [|done].
        apply obj_get_None. rewrite fmap_app in Hnd. apply NoDup_app in Hnd as (_ & Hdisj & _).
        intros Hin. apply (Hdisj k); [done | apply list_elem_of_here]. }
      rewrite (IH (acc ++ [(k, v)])), <-app_assoc; [done| |done].
      by rewrite <-app_assoc. }
  intros Hnd Hplain. by apply (Hgen []).
Qed.

Section JsObjFacts2.
Context {A : Type}.
Implicit Types (o : list (string * A)) (k : string) (v : A).

Lemma spread_ordered o : own_keys_ordered o = true -> spread o = o.
Proof.
  intros Hord. unfold spread, Object_entries.
  pose proof (rebuild_ordered snd [] o Hord) as H. simpl in H.
  rewrite H. clear. induction o as [|[??] o IH]; simpl; [done | by rewrite IH].
Qed.

Lemma elem_of_keys_delete k k0 o :
  k0 ∈ Object_keys (obj_delete k o) <-> k0 <> k /\ k0 ∈ Object_keys o.
Proof.
  induction o as [|[k' v'] o IH]; simpl.
  - rewrite elem_of_nil. tauto.
  - destruct (String.eqb_spec k' k) as [->|Hne]; simpl; rewrite ?elem_of_cons, IH.
    + split; [tauto|]. intros [? [?|?]]; done.
    + split; [intros [->|[? ?]]; eauto | tauto].
Qed.

Lemma obj_get_delete k k0 o :
  obj_get k0 (obj_delete k o) = if String.eqb k k0 then None else obj_get k0 o.
Proof.
  induction o as [|[k' v'] o IH]; simpl; [by destruct (String.eqb k k0)|].
  destruct (String.eqb_spec k' k) as [->|Hne]; simpl.
  - rewrite IH. destruct (String.eqb_spec k k0); done.
  - rewrite IH. destruct (String.eqb_spec k k0) as [<-|?]; [|done].
    by destruct (String.eqb_spec k' k).
Qed.

Lemma NoDup_keys_delete k o : NoDup (Object_keys o) -> NoDup (Object_keys (obj_delete k o)).
Proof.
  induction o as [|[k' v'] o IH]; simpl; [done|].
  intros [Hnin Hnd]%NoDup_cons. destruct (String.eqb k' k); [by apply IH|].
  simpl. apply NoDup_cons. split; [|by apply IH].
  intros Hin. apply elem_of_keys_delete in Hin as [_ Hin]. done.
Qed.

Lemma obj_delete_sublist k o : obj_delete k o `sublist_of` o.
Proof.
  induction o as [|[k' v'] o IH]; simpl; [done|].
  destruct (String.eqb k' k); by constructor.
Qed.

Lemma obj_delete_fresh k o : k ∉ Object_keys o -> obj_delete k o = o.
Proof.
  induction o as [|[k' v'] o IH]; simpl; [done|].
  intros [Hne Hnin]%not_elem_of_cons.
  destruct (String.eqb_spec k' k); [congruence|]. by rewrite IH.
Qed.

Lemma obj_delete_length k o :
  NoDup (Object_keys o) -> k ∈ Object_keys o ->
  S (length (obj_delete k o)) = length o.
Proof.
  induction o as [|[k' v'] o IH]; simpl.
  - intros _ []%elem_of_nil.
  - intros [Hnin Hnd]%NoDup_cons Hin.
    destruct (String.eqb_spec k' k) as [->|Hne].
    + by rewrite obj_delete_fresh.
    + simpl. apply elem_of_cons in Hin as [?|Hin]; [congruence|]. by rewrite IH.
Qed.

Lemma obj_delete_length_le k o : length (obj_delete k o) <= length o.
Proof. apply sublist_length, obj_delete_sublist. Qed.

Lemma obj_delete_app k o1 o2 : obj_delete k (o1 ++ o2) = obj_delete k o1 ++ obj_delete k o2.
Proof.
  induction o1 as [|[k' v'] o1 IH]; simpl; [done|].
  destruct (String.eqb k' k); simpl; by rewrite IH.
Qed.

Lemma own_keys_ordered_delete k o :
  own_keys_ordered o = true -> own_keys_ordered (obj_delete k o) = true.
Proof.
  unfold own_keys_ordered. induction o as [|[k' v'] o IH]; simpl; [done|].
  intros Hord. pose proof Hord as [Hall Hord']%andb_true_iff.
  destruct (String.eqb k' k); [by apply IH|].
  change (keys_ordered (k' :: Object_keys (obj_delete k o)) = true).
  apply keys_ordered_cons. apply keys_ordered_cons in Hord as [Hbefore _].
  split; [|by apply IH]. rewrite Forall_forall in Hbefore |- *.
  intros k0 Hk0. apply Hbefore. by apply elem_of_keys_delete in Hk0 as [_ ?].
Qed.

End JsObjFacts2.

(** Two objects with the same keys lose the same entries. *)
Lemma Forall2_obj_delete {A B} (P : string * A -> string * B -> Prop) k
    (o1 : list (string * A)) (o2 : list (string * B)) :
  (forall t e, P t e -> t.1 = e.1) ->
  Forall2 P o1 o2 -> Forall2 P (obj_delete k o1) (obj_delete k o2).
Proof.
  intros Hkey Hall. induction Hall as [|[k1 a] [k2 b] o1 o2 Hp _ IH]; simpl; [done|].
  pose proof (Hkey _ _ Hp) as Heq. simpl in Heq. subst k2.
  destruct (String.eqb k1 k); [done | by constructor].
Qed.

Lemma Object_keys_delete_eq {A B} k (o1 : list (string * A)) (o2 : list (string * B)) :
  Object_keys o1 = Object_keys o2 ->
  Object_keys (obj_delete k o1) = Object_keys (obj_delete k o2).
Proof.
  revert o2. induction o1 as [|[k1 a] o1 IH]; intros [|[k2 b] o2]; simpl; try done.
  intros [= -> Heq]. destruct (String.eqb k2 k); simpl; [by apply IH | by rewrite (IH o2)].
Qed.

(** ** The promise store *)
Section StoreFacts.
Context {V E : Type}.
Implicit Types (ps : list (promise V E)) (p q : nat).

Lemma lookup_settle ps p q :
  alter mark_settled p ps !! q
  = (fun pr => if decide (p = q) then mark_settled pr else pr) <$> ps !! q.
Proof.
  destruct (decide (p = q)) as [->|Hne].
  - by rewrite list_lookup_alter_eq.
  - rewrite list_lookup_alter_ne by done. by destruct (ps !! q).
Qed.

(** Settling never changes how a promise is fated, nor its callback. *)
Lemma fate_settle ps p q : fate <$> alter mark_settled p ps !! q = fate <$> ps !! q.
Proof. rewrite lookup_settle. destruct (ps !! q); simpl; [|done]. by case_decide. Qed.

Lemma reaction_settle ps p q :
  reaction <$> alter mark_settled p ps !! q = reaction <$> ps !! q.
Proof. rewrite lookup_settle. destruct (ps !! q); simpl; [|done]. by case_decide. Qed.

Lemma settled_in_settle_eq ps p : p < length ps -> settled_in (alter mark_settled p ps) p = true.
Proof.
  intros Hlt. unfold settled_in. rewrite list_lookup_alter_eq.
  destruct (lookup_lt_is_Some_2 ps p Hlt) as [pr ->]. done.
Qed.

(** A settled promise stays settled. *)
Lemma settled_in_settle_mono ps p q :
  settled_in ps q = true -> settled_in (alter mark_settled p ps) q = true.
Proof.
  unfold settled_in. rewrite lookup_settle. destruct (ps !! q); simpl; [|done].
  by case_decide.
Qed.

Lemma settled_in_lt ps p : settled_in ps p = true -> p < length ps.
Proof.
  unfold settled_in. destruct (ps !! p) eqn:Hp; [|done].
  intros _. by eapply lookup_lt_Some.
Qed.

End StoreFacts.

(** ** [_call] as a machine: its end does not depend on the schedule *)
Section CallFacts.
Context {V E I C : Type}.
Implicit Types (ps : list (promise V E)) (st : call_status V E)
  (s : world V E I C * call_status V E) (evs : list event).

Lemma join_todo_ext ps ps' todo results :
  (forall q, fate <$> ps !! q = fate <$> ps' !! q) ->
  join_todo ps todo results = join_todo ps' todo results.
Proof.
  intros Hext. revert results. induction todo as [|[name p] todo IH]; intros results; simpl.
  - done.
  - specialize (Hext p).
    destruct (ps !! p) as [pr|], (ps' !! p) as [pr'|]; simpl in Hext; try done.
    injection Hext as ->. destruct (fate pr'); [apply IH | done].
Qed.

Lemma needs_todo_ext ps ps' todo :
  (forall q, fate <$> ps !! q = fate <$> ps' !! q) ->
  needs_todo ps todo = needs_todo ps' todo.
Proof.
  intros Hext. induction todo as [|[name p] todo IH]; simpl; [done|].
  rewrite (Hext p), IH. done.
Qed.

Lemma call_outcome_loop ps todo results :
  call_outcome ps (call_loop todo results) = join_todo ps todo results.
Proof. by destruct todo. Qed.

Lemma call_needs_loop ps todo results :
  call_needs ps (call_loop todo results) = needs_todo ps todo.
Proof. by destruct todo. Qed.

(** Resuming performs the next step of the join, or nothing. *)
Lemma call_outcome_resume ps st : call_outcome ps (call_resume ps st) = call_outcome ps st.
Proof.
  destruct st as [[name p] rest results| |]; simpl; try done.
  destruct (ps !! p) as [pr|] eqn:Hp; simpl; [|by rewrite Hp].
  destruct (is_settled pr); simpl; [|by rewrite Hp].
  destruct (fate pr); [apply call_outcome_loop | done].
Qed.

Lemma call_outcome_step ev s :
  call_outcome (store (call_step ev s).1) (call_step ev s).2
  = call_outcome (store s.1) s.2.
Proof.
  destruct s as [w st], ev as [p|]; cbn [call_step fst snd store].
  - destruct st as [cur rest results| |]; [|done..].
    apply (join_todo_ext _ _ (cur :: rest)). intros q. apply fate_settle.
  - apply call_outcome_resume.
Qed.

Lemma call_run_app evs1 evs2 s : call_run (evs1 ++ evs2) s = call_run evs2 (call_run evs1 s).
Proof. apply fold_left_app. Qed.

Lemma call_outcome_run evs s :
  call_outcome (store (call_run evs s).1) (call_run evs s).2
  = call_outcome (store s.1) s.2.
Proof.
  revert s. induction evs as [|ev evs IH]; intros s; simpl; [done|].
  rewrite IH. apply call_outcome_step.
Qed.

(** Whenever the call has ended, it has ended as [call_outcome] says. *)
Lemma call_run_ended evs s :
  is_awaiting (call_run evs s).2 = false ->
  call_outcome (store s.1) s.2 = Some (call_run evs s).2.
Proof.
  intros Hend. rewrite <-(call_outcome_run evs s).
  by destruct (call_run evs s).2.
Qed.

Lemma call_run_calls evs s : calls (call_run evs s).1 = calls s.1.
Proof.
  revert s. induction evs as [|ev evs IH]; intros s; simpl; [done|].
  rewrite IH. by destruct ev, s.
Qed.

Lemma call_run_store_length evs s : length (store (call_run evs s).1) = length (store s.1).
Proof.
  revert s. induction evs as [|ev evs IH]; intros s; simpl; [done|].
  rewrite IH. destruct ev, s; simpl; [apply length_alter | done].
Qed.

Lemma call_run_settled_mono evs s q :
  settled_in (store s.1) q = true -> settled_in (store (call_run evs s).1) q = true.
Proof.
  revert s. induction evs as [|ev evs IH]; intros s Hq; simpl; [done|].
  apply IH. destruct ev, s; simpl in *; [by apply settled_in_settle_mono | done].
Qed.

Lemma call_run_settles evs s q :
  Settle q ∈ evs -> q < length (store s.1) ->
  settled_in (store (call_run evs s).1) q = true.
Proof.
  revert s. induction evs as [|ev evs IH]; intros s Hin Hlt; [by apply elem_of_nil in Hin|].
  simpl. apply elem_of_cons in Hin as [<-|Hin].
  - apply call_run_settled_mono. destruct s. simpl. by apply settled_in_settle_eq.
  - apply IH; [done|]. destruct ev, s; simpl in *; [by rewrite length_alter | done].
Qed.

Lemma call_needs_step_settle p s : call_needs (store (call_step (Settle p) s).1) (call_step (Settle p) s).2
  = call_needs (store s.1) s.2.
Proof.
  destruct s as [w st]. cbn [call_step fst snd store].
  destruct st as [cur rest results| |]; [|done..].
  apply (needs_todo_ext _ _ (cur :: rest)). intros q. apply fate_settle.
Qed.

(** With the promises it needs settled, every resumption takes the
    call one [await] further. *)
Lemma call_needs_resume ps st :
  Forall (fun p => settled_in ps p = true) (call_needs ps st) ->
  call_needs ps (call_resume ps st) = tail (call_needs ps st).
Proof.
  destruct st as [[name p] rest results| |]; simpl; try done.
  intros [Hp _]%Forall_cons. unfold settled_in in Hp.
  destruct (ps !! p) as [pr|] eqn:Hlk; [|done]. simpl. rewrite Hp.
  destruct (fate pr); [apply call_needs_loop | done].
Qed.

Lemma call_needs_nil ps st : call_needs ps st = [] -> is_awaiting st = false.
Proof. by destruct st as [[??]??| |]. Qed.

Lemma call_run_progress evs s :
  Forall (fun p => settled_in (store s.1) p = true) (call_needs (store s.1) s.2) ->
  call_needs (store (call_run evs s).1) (call_run evs s).2
  = drop (count_resumes evs) (call_needs (store s.1) s.2).
Proof.
  revert s. induction evs as [|ev evs IH]; intros s Hall; simpl.
  - by rewrite drop_0.
  - destruct ev as [p|].
    + rewrite IH; rewrite call_needs_step_settle; [done|].
      eapply Forall_impl; [done|]. intros q Hq. destruct s. by apply settled_in_settle_mono.
    + rewrite IH; destruct s as [w st]; simpl in *; rewrite call_needs_resume by done.
      * destruct (call_needs (store w) st); simpl; [by rewrite drop_nil | done].
      * by apply Forall_tail.
Qed.

Lemma call_needs_resume_suffix ps st :
  exists k, call_needs ps (call_resume ps st) = drop k (call_needs ps st).
Proof.
  destruct st as [[name p] rest results| |]; simpl; try (by exists 0).
  destruct (ps !! p) as [pr|] eqn:Hlk; simpl; [|exists 0; simpl; by rewrite Hlk].
  destruct (is_settled pr); [|exists 0; simpl; by rewrite Hlk].
  exists 1. simpl. rewrite drop_0. destruct (fate pr); [apply call_needs_loop | done].
Qed.

Lemma call_run_needs_suffix evs s :
  exists k, call_needs (store (call_run evs s).1) (call_run evs s).2
            = drop k (call_needs (store s.1) s.2).
Proof.
  revert s. induction evs as [|ev evs IH]; intros s; simpl; [by exists 0|].
  destruct (IH (call_step ev s)) as [k ->]. destruct ev as [p|].
  - exists k. by rewrite call_needs_step_settle.
  - destruct s as [w st]. simpl. destruct (call_needs_resume_suffix (store w) st) as [k' ->].
    exists (k' + k). by rewrite drop_drop.
Qed.

(** A fair schedule brings the call to its end. *)
Lemma call_run_fair needed budget evs s :
  fair_schedule needed budget evs ->
  call_needs (store s.1) s.2 ⊆ needed ->
  Forall (fun p => p < length (store s.1)) needed ->
  length (call_needs (store s.1) s.2) <= budget ->
  call_outcome (store s.1) s.2 = Some (call_run evs s).2
  /\ is_awaiting (call_run evs s).2 = false.
Proof.
  intros (evs1 & evs2 & -> & Hsettle & Hbudget) Hsub Hlt Hlen.
  assert (Hend : is_awaiting (call_run (evs1 ++ evs2) s).2 = false);
    [|split; [by apply call_run_ended | done]].
  rewrite call_run_app.
  apply (call_needs_nil (store (call_run evs2 (call_run evs1 s)).1)).
  destruct (call_run_needs_suffix evs1 s) as [k Hk].
  rewrite call_run_progress; rewrite Hk.
  - apply drop_ge. rewrite length_drop. lia.
  - apply Forall_forall. intros p Hp.
    assert (p ∈ needed) as Hin by (apply Hsub; eapply subseteq_drop; done).
    rewrite Forall_forall in Hsettle, Hlt.
    apply call_run_settles; [by apply Hsettle | by apply Hlt].
Qed.

End CallFacts.

(** ** The constructor and the start of the branches *)
Section StartFacts.
Context {V E I C : Type}.
Implicit Types (g : RunnableParallel V E I C) (w : world V E I C)
  (entries : list (string * js_value V E I C)).

Lemma not_a_runnable_false (r : js_value V E I C) :
  not_a_runnable r = false -> exists f, get_property r "invoke" = JsFunction f.
Proof.
  unfold not_a_runnable. intros [_ H]%orb_false_elim.
  apply negb_false_iff in H. destruct (get_property r "invoke"); try discriminate. eauto.
Qed.

(** What the constructor guarantees of the group it returns. *)
Lemma RunnableParallel_new_inr arg g :
  RunnableParallel_new arg = inr g ->
  runnableNames g = Object_keys (runnables g)
  /\ Forall (fun e => not_a_runnable e.2 = false) (runnables g)
  /\ (arg = JsUndefined /\ runnables g = [] \/ exists proto, arg = JsObject (runnables g) proto).
Proof.
  unfold RunnableParallel_new.
  destruct arg; simpl; try discriminate.
  - intros [= <-]. simpl. split; [done|]. split; [constructor | by left].
  - destruct (find _ (Object_entries own)) as [[name r]|] eqn:Hfind; [discriminate|].
    intros [= <-]. simpl. split; [done|]. split; [|by eauto].
    apply Forall_forall. intros e He.
    apply (find_none _ _ Hfind). by apply list_elem_of_In.
Qed.

Lemma call_invoke_function name r f input config slot w :
  get_property r "invoke" = JsFunction f ->
  call_invoke name r input config slot w
  = ({| store := store w ++ [{| fate := fn_call f input config; is_settled := false;
                                reaction := slot |}];
        calls := calls w ++ [mk_invocation input config name] |},
     inr (length (store w))).
Proof. unfold call_invoke. by intros ->. Qed.

Lemma call_start_all_launch entries input config proms w :
  call_start_all entries input config proms w
  = launch_all (fun _ => None) entries input config proms w.
Proof.
  revert proms w. induction entries as [|[name r] entries IH]; intros proms w; simpl; [done|].
  destruct (call_invoke name r input config None w) as [w' [err|p]]; [done | apply IH].
Qed.

Lemma obj_get_NoDup {A} k (v : A) (o : list (string * A)) :
  NoDup (Object_keys o) -> (k, v) ∈ o -> obj_get k o = Some v.
Proof.
  induction o as [|[k' v'] o IH]; simpl; [by intros _ ?%elem_of_nil|].
  intros [Hnin Hnd]%NoDup_cons [Heq|Hin]%elem_of_cons.
  - injection Heq as -> ->. by rewrite String.eqb_refl.
  - destruct (String.eqb_spec k' k) as [->|Hne]; [|by apply IH].
    exfalso. apply Hnin. apply list_elem_of_fmap. by exists (k, v).
Qed.

Lemma stream_start_all_launch g entries input config proms w :
  Forall (fun e => obj_get e.1 (runnables g) = Some e.2) entries ->
  stream_start_all g (Object_keys entries) input config proms w
  = launch_all Some entries input config proms w.
Proof.
  revert proms w. induction entries as [|[name r] entries IH]; intros proms w; simpl; [done|].
  intros [Hget Hall]%Forall_cons. simpl in Hget. rewrite Hget.
  destruct (call_invoke name r input config (Some name) w) as [w' [err|p]]; [done | by apply IH].
Qed.

(** Starting validated branches: one pending promise each, allocated
    in enumeration order; [new] names them all, and the [promises]
    object holds them in the same order, but for the promise of a
    branch named [__proto__]. *)
Lemma launch_all_spec slot entries input config proms w :
  Forall (fun e => not_a_runnable e.2 = false) entries ->
  keys_ordered (Object_keys proms ++ Object_keys entries) = true ->
  exists w' new,
    launch_all slot entries input config proms w
    = (w', inr (proms ++ obj_delete "__proto__" new))
    /\ launched slot input config entries w w' new.
Proof.
  revert proms w. induction entries as [|[name r] entries IH]; intros proms w Hvalid Hord.
  - exists w, []. simpl. rewrite app_nil_r. split; [done|].
    unfold launched. simpl. rewrite !app_nil_r, Nat.add_0_r.
    repeat split; done.
  - apply Forall_cons in Hvalid as [Hr Hvalid]. simpl in Hr.
    destruct (not_a_runnable_false _ Hr) as [f Hf].
    simpl. rewrite (call_invoke_function _ _ f) by done.
    pose proof (keys_ordered_app_cons _ _ _ Hord) as [Hnin Hbefore].
    set (w1 := {| store := store w ++ [_]; calls := _ |}).
    assert (exists w' new,
              launch_all slot entries input config (obj_assign name (length (store w)) proms) w1
              = (w', inr (proms ++ obj_delete "__proto__" ((name, length (store w)) :: new)))
              /\ launched slot input config entries w1 w' new)
      as (w' & new & Hrun & Hl).
    { unfold obj_assign. simpl. destruct (String.eqb_spec name "__proto__") as [->|Hne].
      - apply IH; [done|]. by eapply keys_ordered_app_drop.
      - rewrite obj_set_fresh_last by done.
        destruct (IH (proms ++ [(name, length (store w))]) w1 Hvalid)
          as (w' & new & Hrun & Hl).
        { unfold Object_keys in *. rewrite map_app. simpl. by rewrite <-app_assoc. }
        exists w', new. split; [|done]. rewrite Hrun, <-app_assoc. done. }
    exists w', ((name, length (store w)) :: new).
    split; [done|].
    destruct Hl as (Hk & Hp & Hc & Hlen & Hold & Hnew).
    subst w1. simpl in *. rewrite length_app in *. simpl in *.
    unfold launched. cbn [fmap list_fmap fst snd length Object_keys map seq]. repeat split.
    + f_equal. exact Hk.
    + f_equal. rewrite <-Nat.add_1_r. exact Hp.
    + rewrite Hc, <-app_assoc. done.
    + lia.
    + intros q Hq. rewrite Hold by lia. by apply lookup_app_l.
    + intros [|i] e He; simpl in He.
      * injection He as <-. exists (fn_call f input config). split.
        { unfold branch_fate. simpl. by rewrite Hf. }
        rewrite Nat.add_0_r, Hold by lia.
        rewrite lookup_app_r by lia. by rewrite Nat.sub_diag.
      * destruct (Hnew i e He) as (f' & Hf' & Hlk). exists f'. split; [done|].
        rewrite <-Hlk. f_equal. lia.
Qed.

End StartFacts.

(** ** [_call]: the join *)
Section JoinFacts.
Context {V E I C : Type}.
Implicit Types (g : RunnableParallel V E I C) (w : world V E I C)
  (ps : list (promise V E)) (entries : list (string * js_value V E I C))
  (todo : list (string * nat)).

Lemma launched_holds slot input config entries w w' new :
  launched slot input config entries w w' new ->
  Forall2 (holds_promise_of input config (store w')) new entries
  /\ Forall2 (fun t e => reaction <$> store w' !! t.2 = Some (slot e.1)
                         /\ settled_in (store w') t.2 = false) new entries.
Proof.
  intros (Hk & Hp & _ & _ & _ & Hnew).
  assert (Hlen : length new = length entries).
  { rewrite <-(length_fmap fst new), Hk. unfold Object_keys. by rewrite length_map. }
  assert (Hi : forall i t e, new !! i = Some t -> entries !! i = Some e ->
            t.1 = e.1 /\ exists f, branch_fate input config e.2 = Some f /\
              store w' !! t.2 = Some {| fate := f; is_settled := false; reaction := slot e.1 |}).
  { intros i t e Ht He. split.
    - assert (new.*1 !! i = Some t.1) as H1 by (by rewrite list_lookup_fmap, Ht).
      rewrite Hk in H1. unfold Object_keys in H1.
      change (map fst entries) with (fst <$> entries) in H1.
      rewrite list_lookup_fmap, He in H1. by injection H1.
    - assert (new.*2 !! i = Some t.2) as H2 by (by rewrite list_lookup_fmap, Ht).
      rewrite Hp in H2. apply lookup_seq in H2 as [-> _]. by apply Hnew. }
  split; apply Forall2_same_length_lookup_2; try done; intros i t e Ht He;
    destruct (Hi i t e Ht He) as (H1 & f & Hf & Hlk).
  - split; [done|]. eexists. split; [done|]. done.
  - unfold settled_in. by rewrite Hlk.
Qed.

(** Every awaited branch resolves: the call returns the results under
    the names and in the order of the entries. *)
Lemma join_todo_fulfilled input config ps todo entries (vs : list V) results :
  Forall2 (holds_promise_of input config ps) todo entries ->
  Forall2 (fun e v => branch_fate input config e.2 = Some (Fulfilled v)) entries vs ->
  keys_ordered (Object_keys results ++ Object_keys entries) = true ->
  "__proto__" ∉ Object_keys entries ->
  join_todo ps todo results = Some (Returned (results ++ zip (Object_keys entries) vs))
  /\ needs_todo ps todo = todo.*2.
Proof.
  intros Hholds. revert vs results.
  induction Hholds as [|[name p] [name' r] todo entries Hh _ IH];
    intros vs results Hvs Hord Hown.
  - apply Forall2_nil_inv_l in Hvs as ->. simpl. by rewrite app_nil_r.
  - apply Forall2_cons_inv_l in Hvs as (v & vs' & Hv & Hvs & ->).
    destruct Hh as [Hname (pr & Hp & Hf)]. simpl in *. subst name'.
    apply not_elem_of_cons in Hown as [Hne Hown].
    rewrite Hv in Hf. injection Hf as Hf. rewrite Hp. simpl. rewrite <-Hf.
    pose proof (keys_ordered_app_cons _ _ _ Hord) as [Hnin Hbefore].
    rewrite obj_assign_ne by done. rewrite obj_set_fresh_last by done.
    destruct (IH vs' (results ++ [(name, v)]) Hvs) as [-> ->]; [|done|].
    + unfold Object_keys in *. rewrite map_app. simpl. by rewrite <-app_assoc.
    + by rewrite <-app_assoc.
Qed.

(** The first branch, in enumeration order, to reject decides the
    error, whatever the later branches do. *)
Lemma join_todo_rejected input config ps pre name p post entries (vs : list V) (e : E) results :
  Forall2 (holds_promise_of input config ps) pre entries ->
  Forall2 (fun e v => branch_fate input config e.2 = Some (Fulfilled v)) entries vs ->
  fate <$> ps !! p = Some (Rejected e) ->
  join_todo ps (pre ++ (name, p) :: post) results = Some (Thrown (Reason e))
  /\ needs_todo ps (pre ++ (name, p) :: post) = pre.*2 ++ [p].
Proof.
  intros Hholds. revert vs results.
  induction Hholds as [|[name1 p1] [name' r] todo entries Hh _ IH]; intros vs results Hvs Hrej.
  - simpl. destruct (ps !! p) as [pr|]; [|done]. simpl in *. injection Hrej as ->. done.
  - apply Forall2_cons_inv_l in Hvs as (v & vs' & Hv & Hvs & ->).
    destruct Hh as [Hname (pr & Hp & Hf)]. simpl in *.
    rewrite Hv in Hf. injection Hf as Hf. rewrite Hp. simpl. rewrite <-Hf.
    destruct (IH vs' (obj_assign name1 v results) Hvs Hrej) as [-> ->]. done.
Qed.

(** A call that returns has the result of every branch it awaited,
    under the names and in the order of the entries. *)
Lemma join_todo_returned (input : I) (config : C) ps todo
    (entries : list (string * js_value V E I C)) results r :
  Forall2 (holds_promise_of input config ps) todo entries ->
  keys_ordered (Object_keys results ++ Object_keys entries) = true ->
  "__proto__" ∉ Object_keys entries ->
  join_todo ps todo results = Some (Returned r) ->
  exists kvs,
    r = results ++ kvs
    /\ Forall2 (fun br kv => kv.1 = br.1
                              /\ branch_fate input config br.2 = Some (Fulfilled kv.2))
               entries kvs.
Proof.
  intros Hholds. revert results.
  induction Hholds as [|[name p] [name' rn] todo entries Hh _ IH]; intros results Hord Hown;
    simpl.
  - intros [= <-]. exists []. by rewrite app_nil_r.
  - destruct Hh as [Hname (pr & Hp & Hf)]. simpl in *. subst name'. rewrite Hp.
    apply not_elem_of_cons in Hown as [Hne Hown].
    destruct (fate pr) as [v|e] eqn:Hfate; [|done].
    pose proof (keys_ordered_app_cons _ _ _ Hord) as [Hnin Hbefore].
    rewrite obj_assign_ne by done. rewrite obj_set_fresh_last by done. intros Hjoin.
    destruct (IH (results ++ [(name, v)])) as (kvs & -> & Hkvs); [|done|done|].
    + unfold Object_keys in *. rewrite map_app. simpl. by rewrite <-app_assoc.
    + exists ((name, v) :: kvs). rewrite <-app_assoc. split; [done|]. by constructor.
Qed.

(** A call that throws throws the rejection reason of a branch. *)
Lemma join_todo_thrown (input : I) (config : C) ps todo
    (entries : list (string * js_value V E I C)) results err :
  Forall2 (holds_promise_of input config ps) todo entries ->
  join_todo ps todo results = Some (Thrown err) ->
  exists br e,
    br ∈ entries /\ branch_fate input config br.2 = Some (Rejected e) /\ err = Reason e.
Proof.
  intros Hholds. revert results.
  induction Hholds as [|[name p] [name' rn] todo entries Hh _ IH]; intros results; simpl.
  - done.
  - destruct Hh as [Hname (pr & Hp & Hf)]. simpl in *. rewrite Hp.
    destruct (fate pr) as [v|e] eqn:Hfate.
    + intros Hjoin. destruct (IH _ Hjoin) as (br & e & Hin & Hb & ->).
      exists br, e. split; [by apply list_elem_of_further | done].
    + intros [= <-]. exists (name', rn), e. split; [apply list_elem_of_here | done].
Qed.

(** The state in which [_call] first suspends (or returns, when it
    kept no promise): every branch has been started, [started] names
    the promises, and those that were kept are to be awaited. *)
Lemma call_initial arg g input config w :
  RunnableParallel_new arg = inr g ->
  own_keys_ordered (runnables g) = true ->
  exists w' started,
    _call g input config w = (w', call_loop (obj_delete "__proto__" started) [])
    /\ launched (fun _ => None) input config (runnables g) w w' started.
Proof.
  intros Hnew Hord. apply RunnableParallel_new_inr in Hnew as (_ & Hvalid & _).
  unfold _call, Object_entries. rewrite call_start_all_launch.
  destruct (launch_all_spec (fun _ => None) (runnables g) input config [] w Hvalid)
    as (w' & todo & -> & Hl); [done|].
  by exists w', todo.
Qed.

(** The promises that were kept are those of the awaited branches. *)
Lemma launched_awaited slot input config entries w w' new :
  launched slot input config entries w w' new ->
  Forall2 (holds_promise_of input config (store w'))
          (obj_delete "__proto__" new) (obj_delete "__proto__" entries)
  /\ obj_delete "__proto__" new `sublist_of` new
  /\ Forall (fun t => t.2 < length (store w')) new.
Proof.
  intros Hl. pose proof (launched_holds _ _ _ _ _ _ _ Hl) as [Hholds _].
  split; [|split].
  - apply Forall2_obj_delete; [|done]. by intros t e [? _].
  - apply obj_delete_sublist.
  - rewrite Forall_forall. intros t Ht.
    destruct (list_elem_of_lookup_1 _ _ Ht) as [i Hi].
    destruct (Forall2_lookup_l _ _ _ _ _ Hholds Hi) as (e & _ & _ & pr & Hpr & _).
    by eapply lookup_lt_Some.
Qed.

(** A group with no branch named [__proto__] keeps every promise. *)
Lemma launched_plain slot input config entries w w' new :
  launched slot input config entries w w' new ->
  "__proto__" ∉ Object_keys entries ->
  obj_delete "__proto__" new = new.
Proof.
  intros (Hk & _) Hown. apply obj_delete_fresh.
  unfold Object_keys in *. change (map fst new) with (new.*1). by rewrite Hk.
Qed.

End JoinFacts.

(** ** [invoke] *)
Section InvokeFacts.
Context {V E I C : Type}.
Implicit Types (g : RunnableParallel V E I C) (w : world V E I C)
  (entries : list (string * js_value V E I C)) (evs : list event).

Lemma run_invoke_settles g (input : I) (config : C) w' todo final needed budget :
  _call g input config empty_world = (w', call_loop todo []) ->
  join_todo (store w') todo [] = Some final ->
  needs_todo (store w') todo ⊆ needed ->
  Forall (fun p => p < length (store w')) needed ->
  length (needs_todo (store w') todo) <= budget ->
  (forall evs, fair_schedule needed budget evs -> (run_invoke g input config evs).2 = final)
  /\ (forall evs, is_awaiting (run_invoke g input config evs).2 = false ->
                  (run_invoke g input config evs).2 = final).
Proof.
  intros Hcall Hjoin Hsub Hlt Hlen. unfold run_invoke. rewrite Hcall.
  split; intros evs Hevs.
  - destruct (call_run_fair needed budget evs (w', call_loop todo [])) as [Hout _]; try done.
    + simpl. by rewrite call_needs_loop.
    + simpl. by rewrite call_needs_loop.
    + simpl in Hout. rewrite call_outcome_loop, Hjoin in Hout. by injection Hout.
  - apply call_run_ended in Hevs. simpl in Hevs.
    rewrite call_outcome_loop, Hjoin in Hevs. by injection Hevs.
Qed.

Lemma obj_get_zip {A} (ks : list string) (xs : list A) i k x :
  NoDup ks -> ks !! i = Some k -> xs !! i = Some x -> obj_get k (zip ks xs) = Some x.
Proof.
  revert xs i. induction ks as [|k0 ks IH]; intros xs i Hnd Hk Hx; [done|].
  destruct xs as [|x0 xs]; [done|]. apply NoDup_cons in Hnd as [Hnin Hnd].
  destruct i as [|i]; simpl in *.
  - injection Hk as ->. injection Hx as ->. by rewrite String.eqb_refl.
  - destruct (String.eqb_spec k0 k) as [->|Hne]; [|by eapply IH].
    exfalso. apply Hnin. by eapply list_elem_of_lookup_2.
Qed.

Lemma first_rejection (input : I) (config : C) entries :
  Forall (fun e => not_a_runnable e.2 = false) entries ->
  Exists (fun e => exists err : E, branch_fate input config e.2 = Some (Rejected err)) entries ->
  exists pre name r post (vs : list V) (err : E),
    entries = pre ++ (name, r) :: post
    /\ Forall2 (fun e v => branch_fate input config e.2 = Some (Fulfilled v)) pre vs
    /\ branch_fate input config r = Some (Rejected err).
Proof.
  induction entries as [|[name r] entries IH]; intros Hvalid Hex; [by apply Exists_nil in Hex|].
  apply Forall_cons in Hvalid as [Hr Hvalid]. simpl in Hr.
  destruct (not_a_runnable_false _ Hr) as [f Hf].
  destruct (fn_call f input config) as [v|err] eqn:Hfate.
  - apply Exists_cons in Hex as [[err Herr]|Hex].
    { unfold branch_fate in Herr. simpl in Herr. rewrite Hf, Hfate in Herr. discriminate. }
    destruct (IH Hvalid Hex) as (pre & name' & r' & post & vs & err & -> & Hvs & Herr).
    exists ((name, r) :: pre), name', r', post, (v :: vs), err.
    split; [done|]. split; [|done]. constructor; [|done].
    unfold branch_fate. simpl. by rewrite Hf, Hfate.
  - exists [], name, r, entries, [], err. split; [done|]. split; [constructor|].
    unfold branch_fate. by rewrite Hf, Hfate.
Qed.

(** A group with no branch named [__proto__] keeps, and awaits, the
    promise of every branch. *)
Lemma call_initial_plain arg g input config w :
  RunnableParallel_new arg = inr g ->
  own_keys_ordered (runnables g) = true ->
  "__proto__" ∉ runnableNames g ->
  exists w' todo,
    _call g input config w = (w', call_loop todo [])
    /\ launched (fun _ => None) input config (runnables g) w w' todo.
Proof.
  intros Hnew Hord Hown.
  destruct (call_initial arg g input config w Hnew Hord) as (w' & todo & Hcall & Hl).
  pose proof (RunnableParallel_new_inr _ _ Hnew) as (Hnames & _ & _).
  rewrite Hnames in Hown. rewrite (launched_plain _ _ _ _ _ _ _ Hl Hown) in Hcall.
  by exists w', todo.
Qed.

(** The call of a group whose first rejecting branch, in enumeration
    order, is [name]: it awaits the promises up to that branch's and
    throws its reason. *)
Lemma invoke_first_rejection arg g (input : I) (config : C) pre name r post (vs : list V) (e : E) :
  RunnableParallel_new arg = inr g ->
  own_keys_ordered (runnables g) = true ->
  "__proto__" ∉ runnableNames g ->
  runnables g = pre ++ (name, r) :: post ->
  Forall2 (fun e v => branch_fate input config e.2 = Some (Fulfilled v)) pre vs ->
  branch_fate input config r = Some (Rejected e) ->
  exists w' todo,
    _call g input config empty_world = (w', call_loop todo [])
    /\ join_todo (store w') todo [] = Some (Thrown (Reason e))
    /\ needs_todo (store w') todo = seq 0 (S (length pre))
    /\ length (store w') = length (runnableNames g)
    /\ S (length pre) <= length (runnableNames g).
Proof.
  intros Hnew Hord Hown Hsplit Hvs Hrej.
  destruct (call_initial_plain arg g input config empty_world Hnew Hord Hown)
    as (w' & todo & Hcall & Hl).
  pose proof (RunnableParallel_new_inr _ _ Hnew) as (Hnames & _ & _).
  pose proof (launched_holds _ _ _ _ _ _ _ Hl) as [Hholds _].
  destruct Hl as (_ & Hp & _ & Hlen & _ & _). simpl in *.
  rewrite Hsplit in Hholds.
  apply Forall2_app_inv_r in Hholds as (tpre & trest & Hpre & Hrest & ->).
  apply Forall2_cons_inv_r in Hrest as ([tname p] & tpost & Hhead & _ & ->).
  destruct Hhead as [_ (pr & Hlk & Hfate)]. simpl in *.
  rewrite Hrej in Hfate. injection Hfate as Hfate.
  destruct (join_todo_rejected input config (store w') tpre tname p tpost pre vs e [] Hpre Hvs)
    as [Hjoin Hneeds]; [by rewrite Hlk; simpl; rewrite <-Hfate|].
  assert (Hlenpre : length tpre = length pre) by (by eapply Forall2_length).
  assert (HN : length (runnableNames g) = length (runnables g)).
  { rewrite Hnames. unfold Object_keys. by rewrite length_map. }
  exists w', (tpre ++ (tname, p) :: tpost). split; [done|]. split; [done|].
  split; [|split; [lia|]].
  - rewrite Hneeds.
    assert (take (S (length tpre)) ((tpre ++ (tname, p) :: tpost).*2)
            = tpre.*2 ++ [p]) as <-.
    { rewrite <-fmap_take. replace (S (length tpre)) with (length tpre + 1) by lia.
      rewrite take_app_add' by done. by rewrite fmap_app. }
    rewrite Hp, take_seq, Hlenpre.
    replace (S (length pre) `min` length (runnables g)) with (S (length pre)); [done|].
    rewrite Hsplit, length_app. cbn [length]. lia.
  - rewrite HN, Hsplit, length_app. simpl. lia.
Qed.

(** The call of a group whose branches all resolve. *)
Lemma run_invoke_fulfilled arg g (input : I) (config : C) (vs : list V) :
  RunnableParallel_new arg = inr g ->
  own_keys_ordered (runnables g) = true ->
  "__proto__" ∉ runnableNames g ->
  Forall2 (fun e v => branch_fate input config e.2 = Some (Fulfilled v)) (runnables g) vs ->
  invoke_ends_as g input config (Returned (zip (runnableNames g) vs)).
Proof.
  intros Hnew Hord Hown Hvs. unfold invoke_ends_as.
  set (n := length (runnableNames g)). set (results := zip (runnableNames g) vs).
  destruct (call_initial_plain arg g input config empty_world Hnew Hord Hown)
    as (w' & todo & Hcall & Hl).
  pose proof (RunnableParallel_new_inr _ _ Hnew) as (Hnames & _ & _).
  pose proof (launched_holds _ _ _ _ _ _ _ Hl) as [Hholds _].
  destruct (join_todo_fulfilled input config (store w') todo (runnables g) vs [] Hholds Hvs Hord)
    as [Hjoin Hneeds]; [by rewrite <-Hnames|].
  destruct Hl as (_ & Hp & Hcalls & Hlen & _ & _). simpl in *.
  assert (Hn : n = length (runnables g)).
  { subst n. rewrite Hnames. unfold Object_keys. by rewrite length_map. }
  rewrite <-Hnames in Hjoin. fold results in Hjoin.
  apply (run_invoke_settles g input config w' todo (Returned results) (seq 0 n) n);
    try done.
  - by rewrite Hneeds, Hp, Hn.
  - apply Forall_forall. intros p Hin%elem_of_seq. lia.
  - rewrite Hneeds, Hp, length_seq. lia.
Qed.

Lemma run_invoke_calls arg g (input : I) (config : C) evs :
  RunnableParallel_new arg = inr g ->
  own_keys_ordered (runnables g) = true ->
  calls (run_invoke g input config evs).1 = mk_invocation input config <$> runnableNames g.
Proof.
  intros Hnew Hord.
  destruct (call_initial arg g input config empty_world Hnew Hord) as (w' & todo & Hcall & Hl).
  pose proof (RunnableParallel_new_inr _ _ Hnew) as (Hnames & _ & _).
  destruct Hl as (_ & _ & Hcalls & _). simpl in *.
  unfold run_invoke. rewrite call_run_calls, Hcall. simpl. by rewrite Hcalls, Hnames.
Qed.

(** How a call ends depends on the branches it awaits only: not on
    where their promises are in the store. *)
Lemma join_todo_entries (input : I) (config : C) ps ps' todo todo' entries results :
  Forall2 (holds_promise_of input config ps) todo entries ->
  Forall2 (holds_promise_of input config ps') todo' entries ->
  join_todo ps todo results = join_todo ps' todo' results
  /\ is_Some (join_todo ps todo results).
Proof.
  intros Hholds. revert todo' results.
  induction Hholds as [|[name p] [name' r] todo entries Hh _ IH]; intros todo' results Hholds'.
  - apply Forall2_nil_inv_r in Hholds' as ->. simpl. by eauto.
  - apply Forall2_cons_inv_r in Hholds' as ([name2 p2] & todo2 & Hh' & Hholds' & ->).
    destruct Hh as [Hname (pr & Hp & Hf)], Hh' as [Hname' (pr' & Hp' & Hf')]. simpl in *.
    subst name name2. rewrite Hp, Hp'. rewrite Hf in Hf'. injection Hf' as <-.
    destruct (fate pr); [by apply IH | by eauto].
Qed.

Lemma join_todo_ended (ps : list (promise V E)) todo results final :
  join_todo ps todo results = Some final -> is_awaiting final = false.
Proof.
  revert results. induction todo as [|[name p] todo IH]; intros results; simpl.
  - by intros [= <-].
  - destruct (ps !! p) as [pr|]; [|done]. destruct (fate pr); [apply IH | by intros [= <-]].
Qed.

(** The promises a started call awaits are among those it made. *)
Lemma needs_todo_sublist (ps : list (promise V E)) todo :
  needs_todo ps todo `sublist_of` todo.*2.
Proof.
  induction todo as [|[name p] todo IH]; simpl; [done|].
  apply sublist_skip. destruct (fate <$> ps !! p) as [[v|e]|]; [done|apply sublist_nil_l..].
Qed.

(** A call of a constructed group ends as its awaited branches
    warrant, on every fair schedule. *)
Lemma invoke_ends_as_join arg g (input : I) (config : C) ps todo final :
  RunnableParallel_new arg = inr g ->
  own_keys_ordered (runnables g) = true ->
  Forall2 (holds_promise_of input config ps) todo (awaited g) ->
  join_todo ps todo [] = Some final ->
  invoke_ends_as g input config final.
Proof.
  intros Hnew Hord Hholds Hjoin. unfold invoke_ends_as.
  set (n := length (runnableNames g)).
  destruct (call_initial arg g input config empty_world Hnew Hord) as (w' & started & Hcall & Hl).
  pose proof (RunnableParallel_new_inr _ _ Hnew) as (Hnames & _ & _).
  destruct (launched_awaited _ _ _ _ _ _ _ Hl) as (Hkept & Hsub & Hlt).
  destruct (join_todo_entries input config _ _ _ _ _ [] Hkept Hholds) as [Heq _].
  rewrite Hjoin in Heq.
  destruct Hl as (_ & Hp & _ & Hlen & _ & _). simpl in Hp, Hlen.
  assert (Hn : n = length (runnables g)).
  { subst n. rewrite Hnames. unfold Object_keys. by rewrite length_map. }
  assert (Hneeds : needs_todo (store w') (obj_delete "__proto__" started)
                   `sublist_of` seq 0 n).
  { etrans; [apply needs_todo_sublist|]. rewrite Hn, <-Hp. by apply fmap_sublist. }
  apply (run_invoke_settles g input config w' (obj_delete "__proto__" started) final
           (seq 0 n) n); try done.
  - by apply sublist_subseteq.
  - apply Forall_forall. intros p Hin%elem_of_seq. lia.
  - apply sublist_length in Hneeds. by rewrite length_seq in Hneeds.
Qed.

Lemma fair_schedule_exists (needed : list nat) (budget : nat) :
  fair_schedule needed budget ((Settle <$> needed) ++ replicate budget Resume).
Proof.
  exists (Settle <$> needed), (replicate budget Resume). split; [done|]. split.
  - apply Forall_forall. intros p Hp. by apply list_elem_of_fmap_2.
  - clear. induction budget as [|budget IH]; simpl; lia.
Qed.

(** [invoke] ends in one way only. *)
Lemma invoke_ends_as_inj g (input : I) (config : C) final1 final2 :
  invoke_ends_as g input config final1 -> invoke_ends_as g input config final2 ->
  final1 = final2.
Proof.
  intros [H1 _] [H2 _].
  rewrite <-(H1 _ (fair_schedule_exists _ _)). apply H2, fair_schedule_exists.
Qed.

(** What a result map has under a key. *)
Lemma result_map_of_get entries (input : I) (config : C) (results : list (string * V)) k :
  result_map_of entries input config results ->
  obj_get k results
  = obj_get k entries ≫= fun r => match branch_fate input config r with
                                  | Some (Fulfilled v) => Some v
                                  | _ => None
                                  end.
Proof.
  intros Hres. induction Hres as [|[k1 r] [k2 v] entries results [Hk Hv] _ IH]; simpl; [done|].
  simpl in Hk, Hv. subst k2. destruct (String.eqb k1 k); [|done]. simpl. by rewrite Hv.
Qed.

(** A group with no branch named [__proto__] awaits every branch. *)
Lemma awaited_plain g : "__proto__" ∉ Object_keys (runnables g) -> awaited g = runnables g.
Proof. apply obj_delete_fresh. Qed.

(** Every call of a constructed group ends, in the way its awaited
    branches warrant. *)
Lemma invoke_ends arg g (input : I) (config : C) :
  RunnableParallel_new arg = inr g ->
  own_keys_ordered (runnables g) = true ->
  exists final,
    invoke_ends_as g input config final
    /\ match final with
       | Awaiting _ _ _ => False
       | Returned results => result_map_of (awaited g) input config results
       | Thrown err =>
           exists br e, br ∈ awaited g
                        /\ branch_fate input config br.2 = Some (Rejected e) /\ err = Reason e
       end.
Proof.
  intros Hnew Hord.
  destruct (call_initial arg g input config empty_world Hnew Hord) as (w' & started & Hcall & Hl).
  destruct (launched_awaited _ _ _ _ _ _ _ Hl) as (Hkept & _ & _).
  destruct (join_todo_entries input config _ _ _ _ _ [] Hkept Hkept) as [_ [final Hjoin]].
  exists final. split; [by eapply invoke_ends_as_join|].
  destruct final as [cur rest results|results|err].
  - by apply join_todo_ended in Hjoin.
  - pose proof (own_keys_ordered_delete "__proto__" _ Hord) as Hord'.
    destruct (join_todo_returned input config _ _ _ [] results Hkept Hord') as (kvs & -> & Hkvs);
      [|done..].
    intros Hin. by apply elem_of_keys_delete in Hin as [? _].
  - by eapply join_todo_thrown.
Qed.

End InvokeFacts.

Section InvokeClaims.
Context {V E I C : Type}.
Implicit Types (g : RunnableParallel V E I C) (evs : list event).


End InvokeClaims.



Section RejectionClaims.
Context {V E I C : Type}.
Implicit Types (g : RunnableParallel V E I C) (evs : list event).

(** C2 (as amended).  If some branch of a group with no branch named
    [__proto__] rejects on [input], then on every fair schedule
    [invoke] rejects, and on no schedule does it return a result map;
    the error it rejects with is the rejection reason [e] of a
    rejecting branch, as it is: nothing is added to it, so it does not
    say which branch failed. *)
Theorem invoke_rejects_with_bare_branch_error arg g (input : I) (config : C) :
  RunnableParallel_new arg = inr g ->
  own_keys_ordered (runnables g) = true ->
  "__proto__" ∉ runnableNames g ->
  Exists (fun b => exists err : E, branch_fate input config b.2 = Some (Rejected err))
         (runnables g) ->
  let n := length (runnableNames g) in
  exists name r (e : E),
    (name, r) ∈ runnables g
    /\ branch_fate input config r = Some (Rejected e)
    /\ (forall evs, fair_schedule (seq 0 n) n evs ->
                    (run_invoke g input config evs).2 = Thrown (Reason e))
    /\ (forall evs results, (run_invoke g input config evs).2 <> Returned results).
Proof.
  intros Hnew Hord Hown Hex n.
  pose proof (RunnableParallel_new_inr _ _ Hnew) as (_ & Hvalid & _).
  destruct (first_rejection (V:=V) input config (runnables g) Hvalid Hex)
    as (pre & name & r & post & vs & e & Hsplit & Hvs & Hrej).
  destruct (invoke_first_rejection arg g input config pre name r post vs e)
    as (w' & todo & Hcall & Hjoin & Hneeds & Hlen & Hle); try done.
  destruct (run_invoke_settles g input config w' todo (Thrown (Reason e)) (seq 0 n) n)
    as [Hfair Hended]; try done.
  - rewrite Hneeds. intros p. rewrite !elem_of_seq. subst n. lia.
  - apply Forall_forall. intros p Hin%elem_of_seq. subst n. lia.
  - rewrite Hneeds, length_seq. done.
  - exists name, r, e. split; [|split; [done|split; [done|]]].
    + rewrite Hsplit. apply elem_of_app. right. apply list_elem_of_here.
    + intros evs results Hret.
      assert (is_awaiting (run_invoke g input config evs).2 = false) as Hend
        by (by rewrite Hret).
      apply Hended in Hend. congruence.
Qed.

(** C10 (as amended).  In a group with no branch named [__proto__],
    when the branch [name] rejects with [e] and every branch before it
    in the enumeration order of the mapping resolves, [invoke] rejects
    with [e]: on every schedule in which the promises up to that
    branch's settle, and never with anything else on any schedule,
    whatever the branches [post] after it do and whenever they do
    it. *)
Theorem invoke_error_decided_by_enumeration_order
    arg g (input : I) (config : C) pre name r post (vs : list V) (e : E) :
  RunnableParallel_new arg = inr g ->
  own_keys_ordered (runnables g) = true ->
  "__proto__" ∉ runnableNames g ->
  runnables g = pre ++ (name, r) :: post ->
  Forall2 (fun b v => branch_fate input config b.2 = Some (Fulfilled v)) pre vs ->
  branch_fate input config r = Some (Rejected e) ->
  let n := S (length pre) in
  (forall evs, fair_schedule (seq 0 n) n evs ->
               (run_invoke g input config evs).2 = Thrown (Reason e))
  /\ (forall evs, is_awaiting (run_invoke g input config evs).2 = false ->
                  (run_invoke g input config evs).2 = Thrown (Reason e)).
Proof.
  intros Hnew Hord Hown Hsplit Hvs Hrej n.
  destruct (invoke_first_rejection arg g input config pre name r post vs e)
    as (w' & todo & Hcall & Hjoin & Hneeds & Hlen & Hle); try done.
  apply (run_invoke_settles g input config w' todo (Thrown (Reason e)) (seq 0 n) n);
    try done.
  - by rewrite Hneeds.
  - apply Forall_forall. intros p Hin%elem_of_seq. subst n. lia.
  - by rewrite Hneeds, length_seq.
Qed.

End RejectionClaims.

Lemma no_proto_name (names : list string) :
  forallb (fun name => negb (String.eqb name "__proto__")) names = true ->
  "__proto__" ∉ names.
Proof.
  intros Hall Hin. rewrite forallb_forall in Hall.
  apply list_elem_of_In, Hall in Hin. by rewrite String.eqb_refl in Hin.
Defined.

Lemma invoke_rejects_with_bare_branch_error_witness :
  exists name r e,
    (name, r) ∈ runnables Tutorial.first_fails
    /\ branch_fate Tutorial.input 0 r = Some (Rejected e)
    /\ (forall evs, fair_schedule (seq 0 2) 2 evs ->
                    (run_invoke Tutorial.first_fails Tutorial.input 0 evs).2 = Thrown (Reason e))
    /\ (forall evs results,
          (run_invoke Tutorial.first_fails Tutorial.input 0 evs).2 <> Returned results).
Proof.
  apply (invoke_rejects_with_bare_branch_error
           (JsObject (runnables Tutorial.first_fails) []) Tutorial.first_fails Tutorial.input 0);
    [reflexivity | reflexivity | by apply no_proto_name |].
  apply Exists_cons_hd. exists "boom". reflexivity.
Defined.

(** C2, as stated, fails.  These two groups reject with the same
    error, although it is the branch [a] that failed in the one and the
    branch [b] in the other: were the failing branch identified by the
    error, it could be read off the error. *)
Lemma invoke_error_identifies_branch_counterexample :
  (run_invoke Tutorial.first_fails Tutorial.input 0 [Settle 0; Settle 1; Resume; Resume]).2
  = Thrown (Reason "boom")
  /\ (run_invoke Tutorial.second_fails Tutorial.input 0 [Settle 0; Settle 1; Resume; Resume]).2
     = Thrown (Reason "boom")
  /\ ~ exists failing_branch : exn string -> string,
         forall g, g ∈ [Tutorial.first_fails; Tutorial.second_fails] ->
         forall err,
           (run_invoke g Tutorial.input 0 [Settle 0; Settle 1; Resume; Resume]).2 = Thrown err ->
           exists r e, obj_get (failing_branch err) (runnables g) = Some r
                       /\ branch_fate Tutorial.input 0 r = Some (Rejected e).
Proof.
  split; [reflexivity|]. split; [reflexivity|].
  intros [failing_branch H].
  destruct (H Tutorial.first_fails ltac:(repeat constructor) (Reason "boom") eq_refl)
    as (r1 & e1 & Hget1 & Hrej1).
  destruct (H Tutorial.second_fails ltac:(repeat constructor) (Reason "boom") eq_refl)
    as (r2 & e2 & Hget2 & Hrej2).
  apply obj_get_Some_in in Hget1, Hget2.
  assert (failing_branch (Reason "boom") = "a") as Ha.
  { apply elem_of_cons in Hget1 as [[= ? ?]|Hget1]; [done|].
    apply list_elem_of_singleton in Hget1 as [= ? ->]. discriminate. }
  rewrite Ha in Hget2.
  apply elem_of_cons in Hget2 as [[= ->]|Hget2]; [discriminate|].
  by apply list_elem_of_singleton in Hget2 as [= ?].
Qed.

(** Two branches fail, the later one in enumeration order first in
    time: the error is that of the earlier one. *)
Lemma invoke_error_decided_by_enumeration_order_witness :
  (run_invoke Tutorial.both_fail Tutorial.input 0
     [Settle 2; Settle 0; Resume; Settle 1; Resume; Resume]).2
  = Thrown (Reason "slow failure").
Proof.
  refine (proj1 (invoke_error_decided_by_enumeration_order
                   (JsObject (runnables Tutorial.both_fail) []) Tutorial.both_fail
                   Tutorial.input 0 [("ok", Tutorial.LabelRunnable "ok" 0)] "slow"
                   (Tutorial.FailingRunnable "slow failure")
                   [("fast", Tutorial.FailingRunnable "fast failure")]
                   ["ok: Local LLMs enable privacy-first AI."] "slow failure" _ _ _ _ _ _)
                _ _);
    [reflexivity | reflexivity | by apply no_proto_name | reflexivity | repeat constructor
     | reflexivity |].
  exists [Settle 2; Settle 0; Resume; Settle 1], [Resume; Resume].
  split; [reflexivity|]. split; [repeat constructor | simpl; lia].
Defined.

(** C10, as stated, fails.  Of the mapping [{ b: ..., 1: ... }] the
    branch [b] is constructed first, and both branches reject; [invoke]
    rejects with the error of the branch [1], constructed later, also
    when the promise of [b] is the first to settle: the promises are
    awaited in enumeration order, in which an integer-like key comes
    first. *)
Lemma invoke_error_of_first_constructed_counterexample :
  exists g,
    RunnableParallel_new (JsObject (obj_of_list Tutorial.name_then_index_failing) []) = inr g
    /\ head Tutorial.name_then_index_failing = Some ("b", Tutorial.FailingRunnable "b failed")
    /\ branch_fate Tutorial.input 0 (Tutorial.FailingRunnable "b failed")
       = Some (Rejected "b failed")
    /\ runnableNames g = ["1"; "b"]
    /\ (run_invoke g Tutorial.input 0 [Settle 1; Resume; Settle 0; Resume]).2
       = Thrown (Reason "1 failed")
    /\ (run_invoke g Tutorial.input 0 [Settle 0; Settle 1; Resume; Resume]).2
       = Thrown (Reason "1 failed").
Proof. eexists. repeat split; reflexivity. Qed.

(** ** [_stream] as a machine *)
Section StreamFacts.
Context {V E I C : Type}.
Variables (g : RunnableParallel V E I C) (input : I) (config : C).
Implicit Types (w : world V E I C) (st : stream_state V E)
  (s : world V E I C * stream_state V E) (evs : list event).

Lemma stream_step_trans ev s : stream_trans g input config s (stream_step g input config ev s).
Proof.
  destruct s as [w st], ev as [p|]; simpl.
  - destruct (store w !! p) as [pr|] eqn:Hp; [|constructor].
    destruct (is_settled pr) eqn:Hs; [constructor|]. by constructor.
  - destruct (phase_of st) as [|[name|]| | |] eqn:Hph; try constructor.
    + destruct (stream_start_all _ _ _ _ _ _) as [w' [err|proms]] eqn:Hstart;
        by constructor.
    + destruct (obj_get name (promises st)) as [p|] eqn:Hget; simpl; [|constructor].
      destruct (store w !! p) as [pr|] eqn:Hp; [|constructor].
      destruct (fate pr) as [v|e] eqn:Hf.
      * destruct (heap st !! results_ref st) as [results|] eqn:Hr; [|constructor].
        by econstructor.
      * by econstructor.
    + done.
Qed.

Lemma run_stream_app evs1 evs2 :
  run_stream g input config (evs1 ++ evs2)
  = fold_left (fun s ev => stream_step g input config ev s) evs2
      (run_stream g input config evs1).
Proof. apply fold_left_app. Qed.

(** Proving a property of every state of every run. *)
Lemma run_stream_invariant (Inv : world V E I C * stream_state V E -> Prop) :
  Inv (empty_world, not_started) ->
  (forall s s', Inv s -> stream_trans g input config s s' -> Inv s') ->
  forall evs, Inv (run_stream g input config evs).
Proof.
  intros Hinit Hstep evs. induction evs as [|ev evs IH] using rev_ind; [done|].
  rewrite run_stream_app. simpl. eapply Hstep; [done | apply stream_step_trans].
Qed.

(** Whatever the group, the first loop only adds pending promises,
    each fated as its branch and carrying its name, and every
    invocation it makes is on [input] with [config] itself. *)
Lemma stream_start_all_sound names proms w w' res :
  stream_start_all g names input config proms w = (w', res) ->
  exists new newcalls,
    store w' = store w ++ new
    /\ Forall (fun pr => is_settled pr = false /\
                 forall name, reaction pr = Some name ->
                              name_fate g input config name = Some (fate pr)) new
    /\ calls w' = calls w ++ newcalls
    /\ Forall (fun inv => inv_input inv = input /\ inv_config inv = config) newcalls.
Proof.
  revert proms w. induction names as [|name names IH]; intros proms w; simpl.
  - intros [= <- <-]. exists [], []. by rewrite !app_nil_r.
  - destruct (obj_get name (runnables g)) as [r|] eqn:Hget.
    2:{ intros [= <- <-]. exists [], []. by rewrite !app_nil_r. }
    unfold call_invoke. destruct (get_property r "invoke") eqn:Hf;
      try (intros [= <- <-]; exists [], []; by rewrite !app_nil_r).
    intros Hrest. apply IH in Hrest as (new & newcalls & Hs & Hnew & Hc & Hcalls).
    simpl in *. eexists (_ :: new), (_ :: newcalls).
    rewrite Hs, Hc, <-!app_assoc. split; [done|]. split; [|split; [done|]].
    + constructor; [|done]. simpl. split; [done|]. intros ? [= <-].
      unfold name_fate, branch_fate. rewrite Hget. simpl. by rewrite Hf.
    + constructor; done.
Qed.

Lemma stream_loop_fields ps st :
  heap (stream_loop g ps st) = heap st
  /\ results_ref (stream_loop g ps st) = results_ref st
  /\ promises (stream_loop g ps st) = promises st
  /\ completed (stream_loop g ps st) = completed st
  /\ yielded (stream_loop g ps st) = yielded st
  /\ phase_of (stream_loop g ps st) <> NotStarted.
Proof. unfold stream_loop. by destruct (Nat.ltb _ _). Qed.

Lemma decide_race_fields p st :
  heap (decide_race p st) = heap st
  /\ results_ref (decide_race p st) = results_ref st
  /\ promises (decide_race p st) = promises st
  /\ completed (decide_race p st) = completed st
  /\ yielded (decide_race p st) = yielded st
  /\ (phase_of (decide_race p st) = NotStarted -> phase_of st = NotStarted).
Proof.
  unfold decide_race.
  destruct (phase_of st) as [|[?|]| | |] eqn:Hph; simpl; repeat split; congruence.
Qed.

Lemma run_reaction_fields pr st :
  results_ref (run_reaction pr st) = results_ref st
  /\ promises (run_reaction pr st) = promises st
  /\ completed (run_reaction pr st) = completed st
  /\ yielded (run_reaction pr st) = yielded st
  /\ phase_of (run_reaction pr st) = phase_of st
  /\ length (heap (run_reaction pr st)) = length (heap st)
  /\ (forall l, l <> results_ref st -> heap (run_reaction pr st) !! l = heap st !! l).
Proof.
  unfold run_reaction. destruct (fate pr), (reaction pr); simpl; repeat split; try done.
  - apply length_alter.
  - intros l Hl. by apply list_lookup_alter_ne.
Qed.

(** The callback only adds to [results], or writes again what is
    there. *)
Lemma run_reaction_results pr st results :
  (forall name, reaction pr = Some name -> name_fate g input config name = Some (fate pr)) ->
  (forall k v, obj_get k results = Some v ->
               name_fate g input config k = Some (Fulfilled v)) ->
  own_keys_ordered results = true ->
  heap st !! results_ref st = Some results ->
  exists results',
    heap (run_reaction pr st) !! results_ref st = Some results'
    /\ sub_obj results results'
    /\ own_keys_ordered results' = true
    /\ (forall k v, obj_get k results' = Some v ->
                    name_fate g input config k = Some (Fulfilled v))
    /\ (forall name v, fate pr = Fulfilled v -> reaction pr = Some name ->
                       name <> "__proto__" -> obj_get name results' = Some v)
    /\ (obj_get "__proto__" results = None -> obj_get "__proto__" results' = None).
Proof.
  intros Hpr Hres Hord Hlk. unfold run_reaction.
  destruct (fate pr) as [v|e] eqn:Hf, (reaction pr) as [name|] eqn:Hr; simpl;
    try (exists results; split; [done|]; split; [by intros ??|]; split; [done|];
         split; [done|]; split; [intros ??; congruence | done]).
  rewrite list_lookup_alter_eq, Hlk. simpl. eexists. split; [done|].
  specialize (Hpr name eq_refl).
  split; [|split; [by apply own_keys_ordered_assign|split; [|split]]].
  - intros k v' Hk. rewrite obj_get_assign. destruct (String.eqb name "__proto__"); [done|].
    destruct (String.eqb_spec name k) as [<-|]; [|done].
    apply Hres in Hk. congruence.
  - intros k v'. rewrite obj_get_assign. destruct (String.eqb name "__proto__"); [by eauto|].
    destruct (String.eqb_spec name k) as [<-|]; [|by eauto].
    by intros [= <-].
  - intros name' v' [= <-] [= <-] Hne. rewrite obj_get_assign.
    destruct (String.eqb_spec name "__proto__"); [done|]. by rewrite String.eqb_refl.
  - rewrite obj_get_assign. destruct (String.eqb_spec name "__proto__") as [|Hne]; [done|].
    by destruct (String.eqb_spec name "__proto__").
Qed.

Lemma stream_sound_init : stream_sound g input config (empty_world, not_started).
Proof.
  constructor; simpl; try done; try constructor; intros;
    repeat match goal with
           | H : [] !! _ = Some _ |- _ => by rewrite lookup_nil in H
           | H : _ ∈ [] |- _ => by apply elem_of_nil in H
           end.
Qed.

Lemma stream_sound_settle w st p pr :
  stream_sound g input config (w, st) ->
  store w !! p = Some pr -> is_settled pr = false ->
  stream_sound g input config
    ({| store := alter mark_settled p (store w); calls := calls w |},
     decide_race p (run_reaction pr st)).
Proof.
  intros [Hidle Hfates Href Hyl Hnd Hresults Hbelow Hchain Hcompl Hownr] Hp Hpend. simpl in *.
  destruct (decide_race_fields p (run_reaction pr st)) as (Dh & Dr & Dp & Dc & Dy & Dph).
  destruct (run_reaction_fields pr st) as (Rr & Rp & Rc & Ry & Rph & Rlen & Rother).
  assert (Hstarted : phase_of st <> NotStarted).
  { intros Hn. destruct (Hidle Hn) as [Hst _]. rewrite Hst in Hp. by rewrite lookup_nil in Hp. }
  assert (Hyl' : forall l, l ∈ yielded st ->
            heap (run_reaction pr st) !! l = heap st !! l).
  { intros l Hl. apply Rother. rewrite Forall_forall in Hyl. by destruct (Hyl l Hl). }
  assert (Hres' : forall results', heap (run_reaction pr st) !! results_ref st = Some results' ->
            exists results, heap st !! results_ref st = Some results
              /\ sub_obj results results'
              /\ own_keys_ordered results' = true
              /\ (forall k v, obj_get k results' = Some v ->
                    name_fate g input config k = Some (Fulfilled v))
              /\ (forall name v, fate pr = Fulfilled v -> reaction pr = Some name ->
                    name <> "__proto__" -> obj_get name results' = Some v)
              /\ obj_get "__proto__" results' = None).
  { intros results' Hr'. destruct (heap st !! results_ref st) as [results|] eqn:Hr.
    - destruct (Hresults results eq_refl) as [Hord Hval].
      destruct (run_reaction_results pr st results) as (r2 & Hr2 & H1 & H2 & H3 & H4 & H5);
        eauto.
      rewrite Hr' in Hr2. injection Hr2 as <-. exists results.
      repeat (split; [done|]). by apply H5, Hownr.
    - apply lookup_ge_None in Hr. rewrite <-Rlen in Hr. apply lookup_ge_None in Hr.
      congruence. }
  constructor; simpl; rewrite ?Dh, ?Dr, ?Dy, ?Rr, ?Ry, ?Rlen; try done.
  - intros Hn. apply Dph in Hn. by rewrite Rph in Hn.
  - intros q prq name. rewrite lookup_settle.
    destruct (store w !! q) as [pr0|] eqn:Hq; simpl; [|done].
    intros [= <-]. case_decide; simpl; eauto.
  - intros _. by apply Href.
  - intros results' Hr'. destruct (Hres' results' Hr') as (results & _ & _ & ? & ? & _). done.
  - intros l snap results' Hl Hsnap Hr'. rewrite Hyl' in Hsnap by done.
    destruct (Hres' results' Hr') as (results & Hr & Hsub & _).
    intros k v Hk. apply Hsub. by eapply Hbelow.
  - intros i j li lj si sj Hij Hi Hj Hsi Hsj.
    rewrite Hyl' in Hsi by (by eapply list_elem_of_lookup_2).
    rewrite Hyl' in Hsj by (by eapply list_elem_of_lookup_2).
    exact (Hchain i j li lj si sj Hij Hi Hj Hsi Hsj).
  - intros q prq name v results' Hq Hsq Hfq Hrq Hne Hr'.
    destruct (Hres' results' Hr') as (results & Hr & Hsub & _ & _ & Hnew & _).
    rewrite lookup_settle in Hq.
    destruct (store w !! q) as [pr0|] eqn:Hq0; simpl in Hq; [|done].
    injection Hq as <-. case_decide as Hpq.
    + subst q. rewrite Hp in Hq0. injection Hq0 as <-. by apply Hnew.
    + apply Hsub. by eapply Hcompl.
  - intros results' Hr'. by destruct (Hres' results' Hr') as (results & _ & _ & _ & _ & _ & ?).
Qed.

Lemma stream_sound_start w st w' res :
  stream_sound g input config (w, st) ->
  phase_of st = NotStarted ->
  stream_start_all g (runnableNames g) input config [] w = (w', res) ->
  forall st',
    heap st' = heap st ++ [[]] -> results_ref st' = length (heap st) ->
    yielded st' = [] -> phase_of st' <> NotStarted ->
    stream_sound g input config (w', st').
Proof.
  intros [Hidle _ _ _ _ _ _ _ _ _] Hph Hstart st' Hh Hr Hy Hph'. simpl in *.
  destruct (Hidle Hph) as [Hstore _].
  apply stream_start_all_sound in Hstart as (new & newcalls & Hs & Hnew & _).
  rewrite Hstore in Hs. simpl in Hs. rewrite Forall_forall in Hnew.
  assert (Hpending : forall p pr, store w' !! p = Some pr ->
            is_settled pr = false /\
            forall name, reaction pr = Some name ->
                         name_fate g input config name = Some (fate pr)).
  { intros p pr Hp. apply Hnew. rewrite <-Hs. by eapply list_elem_of_lookup_2. }
  constructor; simpl; rewrite ?Hh, ?Hr, ?Hy.
  - done.
  - intros p pr name Hp. by apply (Hpending p pr Hp).
  - intros _. rewrite length_app. simpl. lia.
  - constructor.
  - constructor.
  - intros results. rewrite lookup_app_r, Nat.sub_diag by lia. by intros [= <-].
  - intros l snap results []%elem_of_nil.
  - intros i j li lj si sj _. by rewrite lookup_nil.
  - intros p pr name v results Hp Hsettled. destruct (Hpending p pr Hp). congruence.
  - intros results. rewrite lookup_app_r, Nat.sub_diag by lia. by intros [= <-].
Qed.

Lemma stream_sound_yield w st name results :
  stream_sound g input config (w, st) ->
  phase_of st <> NotStarted ->
  heap st !! results_ref st = Some results ->
  stream_sound g input config (w, stream_yield name results st).
Proof.
  intros [Hidle Hfates Href Hyl Hnd Hresults Hbelow Hchain Hcompl Hownr] Hph Hr. simpl in *.
  specialize (Href Hph).
  destruct (Hresults results Hr) as [Hord Hval].
  assert (Hold : forall l, l < length (heap st) ->
            (heap st ++ [spread results]) !! l = heap st !! l).
  { intros l Hl. by apply lookup_app_l. }
  assert (Hnew : (heap st ++ [spread results]) !! length (heap st) = Some results).
  { rewrite lookup_app_r, Nat.sub_diag by lia. simpl. by rewrite spread_ordered. }
  assert (Hlt : forall l, l ∈ yielded st -> l < length (heap st)).
  { intros l Hl. rewrite Forall_forall in Hyl. by destruct (Hyl l Hl). }
  constructor; simpl.
  - done.
  - done.
  - intros _. rewrite length_app. simpl. lia.
  - rewrite Forall_app. split.
    + eapply Forall_impl; [done|]. simpl. intros l [? ?]. rewrite length_app. simpl.
      split; [lia | done].
    + constructor; [|constructor]. rewrite length_app. simpl. split; lia.
  - apply NoDup_app. split; [done|]. split; [|apply NoDup_singleton].
    intros l Hl ->%list_elem_of_singleton. apply Hlt in Hl. lia.
  - intros results'. rewrite Hold by done. apply Hresults.
  - intros l snap results' Hl Hsnap Hr'. rewrite Hold in Hr' by done.
    rewrite Hr in Hr'. injection Hr' as <-.
    apply elem_of_app in Hl as [Hl | ->%list_elem_of_singleton].
    + rewrite Hold in Hsnap by (by apply Hlt). by eapply Hbelow.
    + rewrite Hnew in Hsnap. injection Hsnap as <-. by intros ??.
  - intros i j li lj si sj Hij Hi Hj Hsi Hsj.
    assert (Hcase : forall i0 l0 snap0, (yielded st ++ [length (heap st)]) !! i0 = Some l0 ->
              (heap st ++ [spread results]) !! l0 = Some snap0 ->
              (i0 < length (yielded st) /\ yielded st !! i0 = Some l0
               /\ heap st !! l0 = Some snap0 /\ sub_obj snap0 results)
              \/ (i0 = length (yielded st) /\ snap0 = results)).
    { intros i0 l0 snap0 Hi0 Hsnap0. destruct (decide (i0 < length (yielded st))) as [Hlt0|Hge].
      - left. rewrite lookup_app_l in Hi0 by done.
        assert (l0 ∈ yielded st) as Hin by (by eapply list_elem_of_lookup_2).
        rewrite Hold in Hsnap0 by (by apply Hlt). repeat split; try done. by eapply Hbelow.
      - right. rewrite lookup_app_r in Hi0 by lia.
        destruct (i0 - length (yielded st)) as [|d] eqn:Hd; simpl in Hi0; [|done].
        injection Hi0 as <-. rewrite Hnew in Hsnap0. injection Hsnap0 as <-. split; [lia | done]. }
    destruct (Hcase i li si Hi Hsi) as [(Hi1 & Hi2 & Hi3 & Hi4)|[Hi1 ->]],
             (Hcase j lj sj Hj Hsj) as [(Hj1 & Hj2 & Hj3 & Hj4)|[Hj1 ->]].
    + exact (Hchain i j li lj si sj Hij Hi2 Hj2 Hi3 Hj3).
    + done.
    + lia.
    + by intros ??.
  - intros p pr name' v results' Hp Hs Hf Hre Hne. rewrite Hold by done. by eapply Hcompl.
  - intros results'. rewrite Hold by done. apply Hownr.
Qed.

Lemma stream_sound_fields w st st' :
  stream_sound g input config (w, st) ->
  heap st' = heap st -> results_ref st' = results_ref st -> yielded st' = yielded st ->
  phase_of st <> NotStarted -> phase_of st' <> NotStarted ->
  stream_sound g input config (w, st').
Proof.
  intros [Hidle Hfates Href Hyl Hnd Hresults Hbelow Hchain Hcompl Hownr] Hh Hr Hy Hph Hph'.
  simpl in *.
  constructor; simpl; rewrite ?Hh, ?Hr, ?Hy; try done.
  intros _. by apply Href.
Qed.

Lemma stream_sound_step s s' :
  stream_sound g input config s -> stream_trans g input config s s' ->
  stream_sound g input config s'.
Proof.
  intros Hs Ht.
  destruct Ht as [s | w st p pr Hp Hpend | w st w' proms Hph Hstart
                 | w st w' err Hph Hstart | w st name p pr v results Hph Hget Hp Hf Hres
                 | w st name p pr e Hph Hget Hp Hf | w st name Hph].
  - done.
  - by apply stream_sound_settle.
  - destruct (stream_loop_fields (store w') (with_promises proms (stream_begin st)))
      as (Lh & Lr & _ & _ & Ly & Lph).
    by eapply stream_sound_start.
  - by eapply stream_sound_start.
  - apply stream_sound_yield; [done | congruence | done].
  - eapply stream_sound_fields; [done..| congruence | done].
  - destruct (stream_loop_fields (store w) (with_promises (obj_delete name (promises st)) st))
      as (Lh & Lr & _ & _ & Ly & Lph).
    eapply stream_sound_fields; [done..| congruence | done].
Qed.

Lemma run_stream_sound evs : stream_sound g input config (run_stream g input config evs).
Proof.
  apply run_stream_invariant; [apply stream_sound_init | apply stream_sound_step].
Qed.

(** A step never touches a snapshot already handed out, and only
    ever appends to the list of snapshots. *)
Lemma stream_trans_stable s s' :
  stream_sound g input config s -> stream_trans g input config s s' ->
  yielded s.2 `prefix_of` yielded s'.2
  /\ forall l, l ∈ yielded s.2 -> heap s'.2 !! l = heap s.2 !! l.
Proof.
  intros [Hidle _ Href Hyl _ _ _ _ _ _] Ht.
  assert (Hlt : forall l, l ∈ yielded s.2 -> l < length (heap s.2) /\ l <> results_ref s.2).
  { intros l Hl. rewrite Forall_forall in Hyl. by apply Hyl. }
  destruct Ht as [s | w st p pr Hp Hpend | w st w' proms Hph Hstart
                 | w st w' err Hph Hstart | w st name p pr v results Hph Hget Hp Hf Hres
                 | w st name p pr e Hph Hget Hp Hf | w st name Hph]; simpl in *.
  - done.
  - destruct (decide_race_fields p (run_reaction pr st)) as (-> & _ & _ & _ & -> & _).
    destruct (run_reaction_fields pr st) as (_ & _ & _ & -> & _ & _ & Rother).
    split; [done|]. intros l Hl. apply Rother. by apply Hlt.
  - destruct (Hidle Hph) as [_ Hy]. rewrite Hy. split; [apply prefix_nil|].
    by intros l []%elem_of_nil.
  - destruct (Hidle Hph) as [_ Hy]. rewrite Hy. split; [apply prefix_nil|].
    by intros l []%elem_of_nil.
  - split; [by apply prefix_app_r|]. intros l Hl. apply lookup_app_l. by apply Hlt.
  - done.
  - destruct (stream_loop_fields (store w) (with_promises (obj_delete name (promises st)) st))
      as (-> & _ & _ & _ & -> & _). done.
Qed.

Lemma run_stream_stable evs1 evs2 :
  let s1 := run_stream g input config evs1 in
  let s2 := run_stream g input config (evs1 ++ evs2) in
  yielded s1.2 `prefix_of` yielded s2.2
  /\ forall l, l ∈ yielded s1.2 -> heap s2.2 !! l = heap s1.2 !! l.
Proof.
  induction evs2 as [|ev evs2 IH] using rev_ind; simpl.
  - by rewrite app_nil_r.
  - rewrite app_assoc, run_stream_app. simpl in *. destruct IH as [IH1 IH2].
    destruct (stream_trans_stable (run_stream g input config (evs1 ++ evs2))
                (stream_step g input config ev (run_stream g input config (evs1 ++ evs2))))
      as [H1 H2]; [apply run_stream_sound | apply stream_step_trans |].
    split; [by etrans|]. intros l Hl. rewrite H2; [by apply IH2|].
    by eapply elem_of_prefix.
Qed.

Lemma stream_trans_started s s' :
  stream_trans g input config s s' -> phase_of s.2 <> NotStarted -> phase_of s'.2 <> NotStarted.
Proof.
  intros Ht. destruct Ht; simpl; try done.
  - intros Hph Hn. apply decide_race_fields in Hn.
    destruct (run_reaction_fields pr st) as (_ & _ & _ & _ & Rph & _). congruence.
  - intros _. apply stream_loop_fields.
Qed.

Lemma stream_resume_started s : phase_of (stream_resume g input config s).2 <> NotStarted.
Proof.
  destruct s as [w st]. simpl.
  destruct (phase_of st) as [|[name|]| | |] eqn:Hph; simpl; rewrite ?Hph; try done.
  - destruct (stream_start_all _ _ _ _ _ _) as [w' [err|proms]]; simpl; [done|].
    apply stream_loop_fields.
  - destruct (obj_get name (promises st) ≫= _) as [pr|]; simpl; [|by rewrite Hph].
    destruct (fate pr); simpl; [|done].
    destruct (heap st !! results_ref st); simpl; [done | by rewrite Hph].
  - apply stream_loop_fields.
Qed.

Lemma stream_run_started evs s :
  phase_of s.2 <> NotStarted ->
  phase_of (fold_left (fun s ev => stream_step g input config ev s) evs s).2 <> NotStarted.
Proof.
  revert s. induction evs as [|ev evs IH]; intros s Hs; simpl; [done|].
  apply IH. eapply stream_trans_started; [apply stream_step_trans | done].
Qed.

(** The first [next()] starts the generator, for good. *)
Lemma run_stream_started evs :
  Resume ∈ evs -> phase_of (run_stream g input config evs).2 <> NotStarted.
Proof.
  intros (evs1 & evs2 & ->)%list_elem_of_split.
  rewrite run_stream_app. cbn [fold_left].
  apply stream_run_started. apply stream_resume_started.
Qed.

End StreamFacts.

(** ** A started stream of a validated group *)
Section StreamLive.
Context {V E I C : Type}.
Variables (g : RunnableParallel V E I C) (input : I) (config : C).
Hypothesis Hvalid : Forall (fun e => not_a_runnable e.2 = false) (runnables g).
Hypothesis Hnames : runnableNames g = Object_keys (runnables g).
Hypothesis Hord : own_keys_ordered (runnables g) = true.
Implicit Types (w : world V E I C) (st : stream_state V E)
  (s : world V E I C * stream_state V E) (evs : list event).

Lemma stream_start_ok :
  exists w' new,
    stream_start_all g (runnableNames g) input config [] empty_world
    = (w', inr (obj_delete "__proto__" new))
    /\ launched Some input config (runnables g) empty_world w' new.
Proof.
  rewrite Hnames, stream_start_all_launch.
  - destruct (launch_all_spec Some (runnables g) input config [] empty_world Hvalid)
      as (w' & new & -> & Hl); [done|]. by exists w', new.
  - apply Forall_forall. intros [name r] Hin. simpl. apply obj_get_NoDup; [|done].
    by apply keys_ordered_NoDup.
Qed.

Lemma race_spec (ps : list (promise V E)) (proms : list (string * nat)) :
  NoDup (Object_keys proms) ->
  match race ps proms with
  | None => Forall (fun t => settled_in ps t.2 = false) proms
  | Some name => exists p, obj_get name proms = Some p /\ settled_in ps p = true
  end.
Proof.
  intros Hnd. unfold race, Object_entries.
  destruct (find _ proms) as [[name p]|] eqn:Hfind; simpl.
  - apply find_some in Hfind as [Hin Hs]. exists p. split; [|done].
    apply obj_get_NoDup; [done|]. by apply list_elem_of_In.
  - apply Forall_forall. intros t Hin. apply (find_none _ _ Hfind). by apply list_elem_of_In.
Qed.

(** At most one branch is not awaited. *)
Lemma awaited_length : length (awaited g) <= length (runnableNames g).
Proof.
  rewrite Hnames. unfold awaited, Object_keys. rewrite length_map. apply obj_delete_length_le.
Qed.

(** The head of the loop, at a state whose counts agree. *)
Lemma stream_loop_phase (ps : list (promise V E)) st :
  NoDup (Object_keys (promises st)) ->
  completed st + length (promises st) = length (awaited g) ->
  match phase_of (stream_loop g ps st) with
  | Racing winner =>
      completed st < length (runnableNames g)
      /\ match winner with
         | None => Forall (fun t => settled_in ps t.2 = false) (promises st)
         | Some name => exists p, obj_get name (promises st) = Some p
                                  /\ settled_in ps p = true
         end
  | Finished => completed st = length (runnableNames g) /\ promises st = []
  | _ => False
  end.
Proof.
  intros Hnd Hcount. unfold stream_loop. pose proof awaited_length as Hle.
  destruct (Nat.ltb_spec (completed st) (length (runnableNames g))) as [Hlt|Hge]; simpl.
  - split; [done|]. by apply race_spec.
  - split; [lia|]. apply length_zero_iff_nil. lia.
Qed.

Lemma stream_live_start w' proms :
  stream_start_all g (runnableNames g) input config [] empty_world = (w', inr proms) ->
  stream_live g (w', stream_loop g (store w') (with_promises proms (stream_begin not_started))).
Proof.
  intros Hstart. destruct stream_start_ok as (w2 & new & Hstart2 & Hl).
  rewrite Hstart in Hstart2. injection Hstart2 as <- ->.
  pose proof (launched_holds _ _ _ _ _ _ _ Hl) as [_ Hpending].
  destruct Hl as (Hk & Hp & _ & Hlen & _ & Hnew). simpl in *.
  set (proms := obj_delete "__proto__" new).
  set (st0 := with_promises proms (stream_begin not_started)).
  destruct (stream_loop_fields g (store w') st0) as (Lh & Lr & Lp & Lc & Ly & Lph).
  pose proof awaited_length as Hle.
  assert (Hn : length (runnableNames g) = length (runnables g)).
  { rewrite Hnames. unfold Object_keys. by rewrite length_map. }
  assert (Hkeys : Object_keys proms = Object_keys (awaited g)).
  { apply Object_keys_delete_eq. exact Hk. }
  assert (Hnd : NoDup (Object_keys proms)).
  { apply NoDup_keys_delete. unfold Object_keys. change (map fst new) with (new.*1).
    rewrite Hk. by apply keys_ordered_NoDup. }
  assert (Hlenproms : length proms = length (awaited g)).
  { apply (f_equal length) in Hkeys. unfold Object_keys in Hkeys.
    by rewrite !length_map in Hkeys. }
  constructor; simpl; rewrite ?Lh, ?Lr, ?Lp, ?Lc, ?Ly; simpl.
  - lia.
  - intros p name Hname. rewrite Hnames in Hname. unfold Object_keys in Hname.
    change (map fst (runnables g)) with ((runnables g).*1) in Hname.
    rewrite list_lookup_fmap in Hname.
    destruct (runnables g !! p) as [e|] eqn:He; [|done]. injection Hname as <-.
    destruct (Hnew p e He) as (f & _ & ->). done.
  - by exists [].
  - intros name p. unfold proms. rewrite obj_get_delete.
    destruct (String.eqb "__proto__" name); [done|]. intros Hget.
    apply obj_get_Some_in, list_elem_of_lookup in Hget as [i Hi].
    assert (new.*2 !! i = Some p) as H2 by (by rewrite list_lookup_fmap, Hi).
    rewrite Hp in H2. apply lookup_seq in H2 as [-> _].
    assert (new.*1 !! i = Some name) as H1 by (by rewrite list_lookup_fmap, Hi).
    rewrite Hk, <-Hnames in H1. done.
  - done.
  - lia.
  - pose proof (stream_loop_phase (store w') st0 Hnd ltac:(simpl; lia)) as Hphase.
    destruct (phase_of (stream_loop g (store w') st0)) as [|winner| | |];
      simpl in Hphase; done.
  - done.
  - intros name Hname [Hnin|Hsusp].
    + exfalso. apply Hnin. by rewrite Hkeys.
    + pose proof (stream_loop_phase (store w') st0 Hnd ltac:(simpl; lia)) as Hphase.
      by rewrite Hsusp in Hphase.
  - pose proof (stream_loop_phase (store w') st0 Hnd ltac:(simpl; lia)) as Hphase.
    unfold resumes_left. rewrite Lc.
    destruct (phase_of (stream_loop g (store w') st0)); simpl; (done || lia).
  - unfold proms. rewrite elem_of_keys_delete. by intros [? _].
Qed.

Lemma stream_live_settle w st p pr :
  stream_live g (w, st) -> stream_sound g input config (w, st) ->
  store w !! p = Some pr -> is_settled pr = false ->
  stream_live g ({| store := alter mark_settled p (store w); calls := calls w |},
                 decide_race p (run_reaction pr st)).
Proof.
  intros [Lstore Lreact Lres Lproms Lnd Lbound Lphase Lyl Llast Lleft Lown]
         [_ _ _ Syl _ _ _ _ _ _] Hp Hpend. simpl in *.
  destruct (decide_race_fields p (run_reaction pr st)) as (Dh & Dr & Dp & Dc & Dy & _).
  destruct (run_reaction_fields pr st) as (Rr & Rp & Rc & Ry & Rph & Rlen & Rother).
  assert (Hplt : p < length (store w)) by (by eapply lookup_lt_Some).
  assert (Hsusp : forall name, phase_of (decide_race p (run_reaction pr st)) = Suspended name ->
            phase_of st = Suspended name).
  { intros name. unfold decide_race. rewrite Rph.
    by destruct (phase_of st) as [|[?|]| | |] eqn:Hph; simpl; rewrite ?Rph, ?Hph. }
  constructor; simpl; rewrite ?Dh, ?Dr, ?Dp, ?Dc, ?Dy, ?Rr, ?Rp, ?Rc, ?Ry.
  - by rewrite length_alter.
  - intros q name Hq. rewrite reaction_settle. by apply Lreact.
  - apply lookup_lt_is_Some. rewrite Rlen. by apply lookup_lt_is_Some.
  - done.
  - done.
  - done.
  - unfold decide_race. rewrite Rph.
    destruct (phase_of st) as [|[name|]|name| |] eqn:Hph; simpl; rewrite ?Rph, ?Hph, ?Rp, ?Rc;
      try done.
    + destruct Lphase as (H1 & H2 & p0 & Hg & Hsett). split; [done|]. split; [done|].
      exists p0. split; [done|]. by apply settled_in_settle_mono.
    + destruct Lphase as (H1 & H2 & Hall). split; [done|]. split; [done|].
      unfold Object_entries.
      destruct (find _ (promises st)) as [[name p']|] eqn:Hfind; simpl.
      * apply find_some in Hfind as [Hin Heq]. simpl in Heq. apply Nat.eqb_eq in Heq.
        subst p'. exists p. split; [|by apply settled_in_settle_eq].
        apply obj_get_NoDup; [done|]. by apply list_elem_of_In.
      * apply Forall_forall. intros t Hin. rewrite Forall_forall in Hall.
        specialize (Hall t Hin).
        pose proof (find_none _ _ Hfind t (proj1 (list_elem_of_In _ _) Hin)) as Hne.
        simpl in Hne. apply Nat.eqb_neq in Hne.
        unfold settled_in in *. by rewrite list_lookup_alter_ne.
  - done.
  - intros name Hname Hcase.
    destruct (Llast name Hname) as (l & snap & v & Hlast & Hsnap & Hget).
    { destruct Hcase as [?|?]; [by left | right; by apply Hsusp]. }
    exists l, snap, v. split; [done|]. split; [|done]. rewrite Rother; [done|].
    apply last_Some_elem_of in Hlast. rewrite Forall_forall in Syl. by destruct (Syl l Hlast).
  - revert Lleft. unfold resumes_left, decide_race. rewrite Rph.
    by destruct (phase_of st) as [|[?|]| | |] eqn:Hph; simpl; rewrite ?Rph, ?Hph, ?Rc.
  - done.
Qed.

Lemma stream_live_yield w st name p pr v results :
  stream_live g (w, st) -> stream_sound g input config (w, st) ->
  phase_of st = Racing (Some name) ->
  obj_get name (promises st) = Some p -> store w !! p = Some pr ->
  fate pr = Fulfilled v -> heap st !! results_ref st = Some results ->
  stream_live g (w, stream_yield name results st).
Proof.
  intros [Lstore Lreact Lres Lproms Lnd Lbound Lphase Lyl Llast Lleft Lown]
         [_ _ Sref Syl _ Sresults Sbelow _ Scompl _] Hph Hget Hp Hf Hres. simpl in *.
  rewrite Hph in Lphase. destruct Lphase as (Hcount & Hlt & p0 & Hget0 & Hsett).
  rewrite Hget in Hget0. injection Hget0 as <-.
  destruct (Sresults results Hres) as [Hordr _].
  assert (Hin : name ∈ Object_keys (promises st)).
  { apply obj_get_is_Some. by rewrite Hget. }
  assert (Hsome : 0 < length (promises st)).
  { destruct (promises st); [by apply elem_of_nil in Hin | simpl; lia]. }
  constructor; simpl.
  - done.
  - done.
  - rewrite lookup_app_l; [done|]. apply Sref. congruence.
  - done.
  - done.
  - lia.
  - split; [lia | done].
  - rewrite length_app. simpl. lia.
  - intros name' Hname' Hcase.
    exists (length (heap st)), results.
    assert (exists v', obj_get name' results = Some v') as [v' Hv'].
    { destruct Hcase as [Hnin|[= <-]].
      - destruct (Llast name' Hname') as (l & snap & v' & Hlast & Hsnap & Hv'); [by left|].
        exists v'. eapply Sbelow; [|done..]. by apply last_Some_elem_of.
      - exists v. eapply Scompl; [done| |done| | |done].
        + unfold settled_in in Hsett. by rewrite Hp in Hsett.
        + pose proof (Lreact p name (Lproms name p Hget)) as Hr. rewrite Hp in Hr.
          by injection Hr.
        + by intros ->. }
    exists v'. split; [apply last_snoc|]. split; [|done].
    rewrite lookup_app_r, Nat.sub_diag by lia. simpl. by rewrite spread_ordered.
  - unfold resumes_left in *. rewrite Hph in Lleft. simpl. lia.
  - done.
Qed.

Lemma stream_live_next w st name :
  stream_live g (w, st) ->
  phase_of st = Suspended name ->
  stream_live g (w, stream_loop g (store w)
                      (with_promises (obj_delete name (promises st)) st)).
Proof.
  intros [Lstore Lreact Lres Lproms Lnd Lbound Lphase Lyl Llast Lleft Lown] Hph. simpl in *.
  rewrite Hph in Lphase. destruct Lphase as [Hcount Hin].
  set (st1 := with_promises (obj_delete name (promises st)) st).
  destruct (stream_loop_fields g (store w) st1) as (Lh & Lr & Lp & Lc & Ly & Lph).
  assert (Hnd : NoDup (Object_keys (promises st1))) by (by apply NoDup_keys_delete).
  assert (Hcount1 : completed st1 + length (promises st1) = length (awaited g)).
  { simpl. pose proof (obj_delete_length name (promises st) Lnd Hin). lia. }
  pose proof (stream_loop_phase (store w) st1 Hnd Hcount1) as Hphase.
  constructor; simpl; rewrite ?Lh, ?Lr, ?Lp, ?Lc, ?Ly; simpl.
  - done.
  - done.
  - done.
  - intros name' p. rewrite obj_get_delete. destruct (String.eqb name name'); [done|].
    apply Lproms.
  - done.
  - done.
  - destruct (phase_of (stream_loop g (store w) st1)) as [|winner| | |]; simpl in *; done.
  - done.
  - intros name' Hname' [Hnin|Hsusp].
    + apply Llast; [done|].
      destruct (decide (name' = name)) as [->|Hne]; [by right|].
      left. intros Hin'. apply Hnin. apply elem_of_keys_delete. done.
    + exfalso. by rewrite Hsusp in Hphase.
  - unfold resumes_left. rewrite Lc. pose proof awaited_length.
    destruct (phase_of (stream_loop g (store w) st1)); simpl; (done || lia).
  - rewrite elem_of_keys_delete. by intros [_ ?].
Qed.

Lemma stream_live_step s s' :
  stream_live g s -> stream_sound g input config s ->
  stream_trans g input config s s' -> stream_live g s'.
Proof.
  intros Hl Hs Ht.
  destruct Ht as [s | w st p pr Hp Hpend | w st w' proms Hph Hstart
                 | w st w' err Hph Hstart | w st name p pr v results Hph Hget Hp Hf Hres
                 | w st name p pr e Hph Hget Hp Hf | w st name Hph].
  - done.
  - by apply stream_live_settle.
  - destruct Hl as [_ _ _ _ _ _ Lphase _ _ _ _]. simpl in Lphase. by rewrite Hph in Lphase.
  - destruct Hl as [_ _ _ _ _ _ Lphase _ _ _ _]. simpl in Lphase. by rewrite Hph in Lphase.
  - by eapply stream_live_yield.
  - destruct Hl as [Lstore Lreact Lres Lproms Lnd Lbound Lphase Lyl Llast Lleft Lown]. simpl in *.
    constructor; simpl; try done.
    + intros name' Hname' [Hnin|Hsusp]; [|done]. apply Llast; [done | by left].
    + unfold resumes_left. simpl. lia.
  - by apply stream_live_next.
Qed.

(** Every state of a run is the initial one or a live one. *)
Lemma run_stream_live evs :
  let s := run_stream g input config evs in
  s = (empty_world, not_started) \/ stream_live g s.
Proof.
  apply (run_stream_invariant g input config
           (fun s => (s = (empty_world, not_started) \/ stream_live g s)
                     /\ stream_sound g input config s)).
  - split; [by left | apply stream_sound_init].
  - intros s s' [[->|Hl] Hs] Ht; (split; [|by eapply stream_sound_step]).
    + inversion Ht; subst; simpl in *; try done; try (by left);
        try (match goal with H : [] !! _ = Some _ |- _ => by rewrite lookup_nil in H end).
      * right. by apply stream_live_start.
      * destruct stream_start_ok as (w2 & new2 & Hstart2 & _). congruence.
    + right. by eapply stream_live_step.
Qed.

End StreamLive.

(** ** Progress of a stream whose branches all resolve *)
Section StreamProgress.
Context {V E I C : Type}.
Variables (g : RunnableParallel V E I C) (input : I) (config : C).
Hypothesis Hvalid : Forall (fun e => not_a_runnable e.2 = false) (runnables g).
Hypothesis Hnames : runnableNames g = Object_keys (runnables g).
Hypothesis Hord : own_keys_ordered (runnables g) = true.
Hypothesis Hfulfil :
  Forall (fun e => exists v : V, branch_fate input config e.2 = Some (Fulfilled v))
         (runnables g).
Implicit Types (w : world V E I C) (st : stream_state V E)
  (s : world V E I C * stream_state V E) (evs : list event).

Let n := length (runnableNames g).

Lemma name_fate_fulfilled name :
  name ∈ runnableNames g -> exists v, name_fate g input config name = Some (Fulfilled v).
Proof.
  rewrite Hnames. intros Hin. apply obj_get_is_Some in Hin as [r Hr].
  unfold name_fate. rewrite Hr. simpl.
  rewrite Forall_forall in Hfulfil. apply (Hfulfil (name, r)). by apply obj_get_Some_in.
Qed.

Lemma store_fulfilled s p pr :
  stream_live g s -> stream_sound g input config s ->
  store s.1 !! p = Some pr -> exists v, fate pr = Fulfilled v.
Proof.
  intros Hl Hs Hp.
  assert (p < length (runnableNames g)) as Hlt.
  { rewrite <-(live_store _ _ Hl). by eapply lookup_lt_Some. }
  destruct (lookup_lt_is_Some_2 _ _ Hlt) as [name Hname].
  pose proof (live_reactions _ _ Hl p name Hname) as Hr. rewrite Hp in Hr. injection Hr as Hr.
  pose proof (sound_fates _ _ _ _ Hs p pr name Hp Hr) as Hfate.
  destruct (name_fate_fulfilled name) as [v Hv]; [by eapply list_elem_of_lookup_2|].
  exists v. congruence.
Qed.

Lemma stream_good_trans s s' :
  stream_good g input config s -> stream_trans g input config s s' ->
  stream_good g input config s'.
Proof.
  intros (Hl & Hs & Hnf) Ht.
  split; [by eapply stream_live_step|]. split; [by eapply stream_sound_step|].
  intros err.
  destruct Ht as [s | w st p pr Hp Hpend | w st w' proms Hph Hstart
                 | w st w' err' Hph Hstart | w st name p pr v results Hph Hget Hp Hf Hres
                 | w st name p pr e Hph Hget Hp Hf | w st name Hph]; simpl in *.
  - apply Hnf.
  - intros Hfail. apply (Hnf err). revert Hfail.
    destruct (run_reaction_fields pr st) as (_ & _ & _ & _ & Rph & _).
    unfold decide_race. rewrite Rph.
    destruct (phase_of st) as [|[?|]| | |] eqn:Hph; simpl; rewrite ?Rph, ?Hph; done.
  - pose proof (live_phase _ _ Hl) as Lphase. simpl in Lphase. by rewrite Hph in Lphase.
  - pose proof (live_phase _ _ Hl) as Lphase. simpl in Lphase. by rewrite Hph in Lphase.
  - done.
  - destruct (store_fulfilled (w, st) p pr Hl Hs Hp) as [v Hv]. congruence.
  - unfold stream_loop. by destruct (Nat.ltb _ _).
Qed.

Lemma stream_good_step ev s :
  stream_good g input config s -> stream_good g input config (stream_step g input config ev s).
Proof. intros Hg. eapply stream_good_trans; [done | apply stream_step_trans]. Qed.

Lemma stream_good_run evs s :
  stream_good g input config s ->
  stream_good g input config (fold_left (fun s ev => stream_step g input config ev s) evs s).
Proof.
  revert s. induction evs as [|ev evs IH]; intros s Hg; simpl; [done|].
  by apply IH, stream_good_step.
Qed.

(** Once started, only settlements change the store. *)
Lemma stream_step_settled ev s q :
  stream_good g input config s ->
  settled_in (store s.1) q = true ->
  settled_in (store (stream_step g input config ev s).1) q = true.
Proof.
  intros (Hl & _ & _) Hq. pose proof (live_phase _ _ Hl) as Lphase.
  destruct s as [w st], ev as [p|]; simpl in *.
  - destruct (store w !! p) as [pr|]; [|done]. destruct (is_settled pr); [done|].
    simpl. by apply settled_in_settle_mono.
  - destruct (phase_of st) as [|[name|]| | |]; try done.
    destruct (obj_get name (promises st) ≫= _) as [pr|]; [|done].
    destruct (fate pr); [|done]. by destruct (heap st !! results_ref st).
Qed.

Lemma stream_settle_settles s q :
  stream_good g input config s -> q < n ->
  settled_in (store (stream_step g input config (Settle q) s).1) q = true.
Proof.
  intros (Hl & _ & _) Hq. pose proof (live_store _ _ Hl) as Hlen.
  destruct s as [w st]. simpl in *.
  destruct (lookup_lt_is_Some_2 (store w) q) as [pr Hpr]; [by rewrite Hlen|].
  rewrite Hpr. destruct (is_settled pr) eqn:Hs; simpl.
  - unfold settled_in. by rewrite Hpr.
  - apply settled_in_settle_eq. by rewrite Hlen.
Qed.

Lemma stream_run_settled evs s q :
  stream_good g input config s -> settled_in (store s.1) q = true ->
  settled_in (store (fold_left (fun s ev => stream_step g input config ev s) evs s).1) q = true.
Proof.
  revert s. induction evs as [|ev evs IH]; intros s Hg Hq; simpl; [done|].
  apply IH; [by apply stream_good_step | by apply stream_step_settled].
Qed.

Lemma stream_run_settles evs s q :
  stream_good g input config s -> Settle q ∈ evs -> q < n ->
  settled_in (store (fold_left (fun s ev => stream_step g input config ev s) evs s).1) q = true.
Proof.
  revert s. induction evs as [|ev evs IH]; intros s Hg Hin Hq; [by apply elem_of_nil in Hin|].
  simpl. apply elem_of_cons in Hin as [<-|Hin].
  - apply stream_run_settled; [by apply stream_good_step | by apply stream_settle_settles].
  - apply IH; [by apply stream_good_step | done..].
Qed.

Lemma resumes_left_settle p s :
  resumes_left g (stream_step g input config (Settle p) s).2 = resumes_left g s.2.
Proof.
  destruct s as [w st]. simpl. destruct (store w !! p) as [pr|]; [|done].
  destruct (is_settled pr); [done|]. simpl.
  destruct (run_reaction_fields pr st) as (_ & _ & Rc & _ & Rph & _).
  unfold resumes_left, decide_race. rewrite Rph.
  destruct (phase_of st) as [|[?|]| | |] eqn:Hph; simpl; rewrite ?Rph, ?Hph, ?Rc; done.
Qed.

(** With every branch settled, no resumption is wasted. *)
Lemma resumes_left_resume s :
  stream_good g input config s -> all_settled n (store s.1) ->
  resumes_left g (stream_step g input config Resume s).2 = pred (resumes_left g s.2).
Proof.
  intros (Hl & Hs & _) Hall. destruct s as [w st].
  pose proof Hl as [Lstore Lreact Lres Lproms Lnd Lbound Lphase Lyl Llast Lleft Lown].
  pose proof (awaited_length g Hnames) as Hle.
  simpl in *. unfold resumes_left at 2.
  destruct (phase_of st) as [|[name|]|name| |] eqn:Hph; simpl.
  - done.
  - destruct Lphase as (Hcount & Hlt & p & Hget & Hsett). rewrite Hget. simpl.
    unfold settled_in in Hsett. destruct (store w !! p) as [pr|] eqn:Hp; [|done].
    assert (exists v, fate pr = Fulfilled v) as [v Hv].
    { by eapply (store_fulfilled (w, st)). }
    assert (0 < length (promises st)).
    { destruct (promises st); [done | simpl; lia]. }
    rewrite Hv. destruct Lres as [results ->]. unfold resumes_left. simpl. lia.
  - destruct Lphase as (Hcount & Hlt & Hunsettled).
    destruct (promises st) as [|[name p] proms] eqn:Hproms.
    { unfold resumes_left. rewrite Hph. simpl in Hcount. lia. }
    exfalso. apply Forall_cons in Hunsettled as [Hp _]. simpl in Hp.
    assert (runnableNames g !! p = Some name) as Hname.
    { apply Lproms. simpl. by rewrite String.eqb_refl. }
    rewrite Hall in Hp; [done|]. by eapply lookup_lt_Some.
  - destruct Lphase as [Hcount _]. unfold stream_loop. simpl.
    destruct (Nat.ltb_spec (completed st) (length (runnableNames g))); unfold resumes_left;
      simpl; lia.
  - unfold resumes_left. by rewrite Hph.
  - unfold resumes_left. by rewrite Hph.
Qed.

Lemma all_settled_step ev s :
  stream_good g input config s -> all_settled n (store s.1) ->
  all_settled n (store (stream_step g input config ev s).1).
Proof. intros Hg Hall p Hp. apply stream_step_settled; [done | by apply Hall]. Qed.

Lemma resumes_left_run evs s :
  stream_good g input config s -> all_settled n (store s.1) ->
  resumes_left g (fold_left (fun s ev => stream_step g input config ev s) evs s).2
  = resumes_left g s.2 - count_resumes evs.
Proof.
  revert s. induction evs as [|ev evs IH]; intros s Hg Hall; simpl; [lia|].
  rewrite IH; [|by apply stream_good_step | by apply all_settled_step].
  destruct ev as [p|].
  - by rewrite resumes_left_settle.
  - rewrite resumes_left_resume by done. lia.
Qed.

(** With no resumption left, every awaited branch has been handed
    out, and the generator has returned or waits for a race with no
    promise in it. *)
Lemma stream_good_done s :
  stream_good g input config s -> resumes_left g s.2 = 0 ->
  completed s.2 = length (awaited g)
  /\ promises s.2 = []
  /\ (phase_of s.2 = Finished \/ phase_of s.2 = Racing None).
Proof.
  intros (Hl & _ & Hnf) Hleft. pose proof (live_phase _ _ Hl) as Lphase.
  pose proof (live_bound _ _ Hl) as Lbound.
  pose proof (awaited_length g Hnames) as Hle.
  unfold resumes_left in Hleft.
  destruct (phase_of s.2) as [|winner|name| |err] eqn:Hph; try done.
  - destruct Lphase as (Hcount & Hlt & Hwinner).
    assert (promises s.2 = []) as Hnil by (apply length_zero_iff_nil; lia).
    split; [lia|]. split; [done|]. right.
    destruct winner as [name|]; [|done]. destruct Hwinner as (p & Hget & _).
    by rewrite Hnil in Hget.
  - destruct Lphase as [Hcompleted Hnil]. split; [lia|]. split; [done | by left].
  - by destruct (Hnf err).
Qed.

Lemma run_stream_good evs :
  let s := run_stream g input config evs in
  s = (empty_world, not_started) \/ stream_good g input config s.
Proof.
  apply (run_stream_invariant g input config
           (fun s => s = (empty_world, not_started) \/ stream_good g input config s)).
  - by left.
  - intros s s' [->|Hg] Ht; [|right; by eapply stream_good_trans].
    pose proof (stream_sound_step g input config _ _ (stream_sound_init g input config) Ht)
      as Hsound.
    inversion Ht; subst; simpl in *; try done; try (by left);
      try (match goal with H : [] !! _ = Some _ |- _ => by rewrite lookup_nil in H end).
    + right. split; [by apply (stream_live_start g input config)|]. split; [done|].
      intros err. unfold stream_loop. by destruct (Nat.ltb _ _).
    + destruct (stream_start_ok g input config Hvalid Hnames Hord) as (w2 & new2 & Hstart2 & _).
      congruence.
Qed.

(** On a fair schedule the generator does all it can. *)
Lemma stream_fair_done evs :
  fair_stream_schedule n evs ->
  stream_good g input config (run_stream g input config evs)
  /\ resumes_left g (run_stream g input config evs).2 = 0.
Proof.
  intros (evs0 & evs' & -> & Hstarted & evs1 & evs2 & -> & Hsettle & Hbudget).
  rewrite !run_stream_app.
  set (s0 := run_stream g input config evs0).
  assert (Hg0 : stream_good g input config s0).
  { destruct (run_stream_good evs0) as [Hinit|Hg]; [|done].
    apply (run_stream_started g input config) in Hstarted. fold s0 in Hstarted, Hinit.
    by rewrite Hinit in Hstarted. }
  rewrite fold_left_app.
  set (s1 := fold_left _ evs1 s0).
  assert (Hg1 : stream_good g input config s1) by (by apply stream_good_run).
  assert (Hall : all_settled n (store s1.1)).
  { intros p Hp. apply stream_run_settles; [done| |done].
    rewrite Forall_forall in Hsettle. apply Hsettle. apply elem_of_seq. lia. }
  split; [by apply stream_good_run|].
  rewrite resumes_left_run by done.
  destruct Hg1 as (Hl1 & _ & _). pose proof (live_left _ _ Hl1). fold n in H. lia.
Qed.

(** Once every awaited branch has been handed out, the last snapshot
    has the results of the awaited branches, and nothing else. *)
Lemma stream_done_snapshot s :
  stream_good g input config s ->
  completed s.2 = length (awaited g) -> promises s.2 = [] ->
  length (yielded s.2) = length (awaited g)
  /\ forall l, last (yielded s.2) = Some l ->
       exists final, heap s.2 !! l = Some final
         /\ (forall name v, name <> "__proto__" ->
                            name_fate g input config name = Some (Fulfilled v) ->
                            obj_get name final = Some v)
         /\ (forall name v, obj_get name final = Some v ->
                            name <> "__proto__"
                            /\ name_fate g input config name = Some (Fulfilled v)).
Proof.
  intros (Hl & Hs & _) Hcompleted Hproms.
  split; [by rewrite (live_yielded _ _ Hl)|].
  intros l Hlast.
  assert (Hin : l ∈ yielded s.2) by (by apply last_Some_elem_of).
  pose proof (sound_yielded _ _ _ _ Hs) as Hyl. rewrite Forall_forall in Hyl.
  destruct (Hyl l Hin) as [Hlt _].
  destruct (lookup_lt_is_Some_2 _ _ Hlt) as [final Hfinal].
  destruct (live_results _ _ Hl) as [results Hresults].
  pose proof (sound_below _ _ _ _ Hs l final results Hin Hfinal Hresults) as Hsub.
  destruct (sound_results _ _ _ _ Hs results Hresults) as [_ Hval].
  pose proof (sound_own _ _ _ _ Hs results Hresults) as Hown.
  exists final. split; [done|]. split.
  - intros name v Hne Hfate.
    assert (name ∈ Object_keys (awaited g)) as Hname.
    { apply elem_of_keys_delete. split; [done|]. apply obj_get_is_Some.
      unfold name_fate in Hfate. destruct (obj_get name (runnables g)); [eauto | done]. }
    destruct (live_last _ _ Hl name Hname) as (l' & snap & v' & Hlast' & Hsnap & Hget).
    { left. rewrite Hproms. apply not_elem_of_nil. }
    rewrite Hlast in Hlast'. injection Hlast' as <-. rewrite Hfinal in Hsnap.
    injection Hsnap as <-. rewrite Hget. f_equal.
    apply Hsub, Hval in Hget. congruence.
  - intros name v Hget. apply Hsub in Hget. split; [|by apply Hval].
    intros ->. congruence.
Qed.

End StreamProgress.

(** ** [stream] *)
Section StreamClaims.
Context {V E I C : Type}.
Implicit Types (g : RunnableParallel V E I C) (evs : list event).

Lemma run_stream_idle g (input : I) (config : C) evs :
  Resume ∉ evs -> run_stream g input config evs = (empty_world, not_started).
Proof.
  induction evs as [|ev evs IH] using rev_ind; [done|].
  rewrite not_elem_of_app, not_elem_of_cons. intros [Hevs [Hev _]].
  rewrite run_stream_app, IH by done. by destruct ev.
Qed.

Lemma run_stream_calls arg g (input : I) (config : C) evs :
  RunnableParallel_new arg = inr g ->
  own_keys_ordered (runnables g) = true ->
  Resume ∈ evs ->
  calls (run_stream g input config evs).1 = mk_invocation input config <$> runnableNames g.
Proof.
  intros Hnew Hord Hstarted.
  pose proof (RunnableParallel_new_inr _ _ Hnew) as (Hnames & Hvalid & _).
  assert (Hinv : let s := run_stream g input config evs in
            s = (empty_world, not_started)
            \/ (phase_of s.2 <> NotStarted
                /\ calls s.1 = mk_invocation input config <$> runnableNames g)).
  { apply (run_stream_invariant g input config
             (fun s => s = (empty_world, not_started)
                       \/ (phase_of s.2 <> NotStarted
                           /\ calls s.1 = mk_invocation input config <$> runnableNames g))).
    - by left.
    - intros s s' [->|[Hph Hcalls]] Ht.
      + destruct (stream_start_ok g input config Hvalid Hnames Hord)
          as (w2 & new2 & Hstart2 & Hl).
        destruct Hl as (_ & _ & Hc & _). simpl in Hc.
        inversion Ht; subst; simpl in *; try done; try (by left);
          try (match goal with H : [] !! _ = Some _ |- _ => by rewrite lookup_nil in H end).
        * right. split; [apply stream_loop_fields|]. rewrite Hnames. congruence.
        * congruence.
      + right. split; [by eapply stream_trans_started|].
        destruct Ht; simpl in *; done. }
  destruct Hinv as [Hinit|[_ Hcalls]]; [|done].
  apply (run_stream_started g input config) in Hstarted. by rewrite Hinit in Hstarted.
Qed.

(** C3 (as amended).  Every branch invocation made by [invoke] and by
    [stream] is made on the input of the group and with the very
    config object the group was given: the log of invocations lists
    each branch once, in order, all with the same reference [config].
    No [child()] copy is made, and the siblings share that object.
    ([stream] invokes no branch before the first value is asked
    for.) *)
Theorem branches_receive_the_config_of_the_group arg g (input : I) (config : C) :
  RunnableParallel_new arg = inr g ->
  own_keys_ordered (runnables g) = true ->
  (forall evs, calls (run_invoke g input config evs).1
               = mk_invocation input config <$> runnableNames g)
  /\ (forall evs, Resume ∈ evs ->
        calls (run_stream g input config evs).1
        = mk_invocation input config <$> runnableNames g)
  /\ (forall evs, Resume ∉ evs -> calls (run_stream g input config evs).1 = [])
  /\ (forall evs inv,
        inv ∈ calls (run_invoke g input config evs).1
        \/ inv ∈ calls (run_stream g input config evs).1 ->
        inv_config inv = config /\ inv_input inv = input).
Proof.
  intros Hnew Hord.
  assert (Hstream : forall evs inv, inv ∈ calls (run_stream g input config evs).1 ->
            inv ∈ mk_invocation input config <$> runnableNames g).
  { intros evs inv. destruct (decide (Resume ∈ evs)) as [Hin|Hnin].
    - by rewrite (run_stream_calls arg).
    - rewrite run_stream_idle by done. by intros ?%elem_of_nil. }
  split; [intros evs; by eapply run_invoke_calls|].
  split; [intros evs; by apply (run_stream_calls arg)|].
  split; [intros evs Hidle; by rewrite run_stream_idle|].
  intros evs inv Hin.
  assert (inv ∈ mk_invocation input config <$> runnableNames g) as Hmk.
  { destruct Hin as [Hin|Hin]; [|by eapply Hstream].
    by rewrite (run_invoke_calls arg) in Hin. }
  apply list_elem_of_fmap in Hmk as (name & -> & _). done.
Qed.


(** C5, where the code breaks it.  A group with a branch named
    [__proto__]: [promises['__proto__'] = ...] keeps no promise and
    [results['__proto__'] = ...] no result, so on no schedule does the
    generator return or yield as many snapshots as there are
    branches, and no snapshot ever has the key [__proto__]. *)
Theorem stream_never_returns_with_proto_branch arg g (input : I) (config : C) evs :
  RunnableParallel_new arg = inr g ->
  own_keys_ordered (runnables g) = true ->
  "__proto__" ∈ runnableNames g ->
  let st := (run_stream g input config evs).2 in
  phase_of st <> Finished
  /\ length (yielded st) < length (runnableNames g)
  /\ forall l snap, l ∈ yielded st -> heap st !! l = Some snap ->
                    obj_get "__proto__" snap = None.
Proof.
  intros Hnew Hord Hin st.
  pose proof (RunnableParallel_new_inr _ _ Hnew) as (Hnames & Hvalid & _).
  assert (Hless : length (awaited g) < length (runnableNames g)).
  { rewrite Hnames in Hin |- *. unfold awaited.
    pose proof (obj_delete_length "__proto__" (runnables g)
                  (keys_ordered_NoDup _ Hord) Hin) as Hlen.
    unfold Object_keys. rewrite length_map. lia. }
  pose proof (run_stream_sound g input config evs) as Hs. fold st in Hs.
  split; [|split].
  - destruct (run_stream_live g input config Hvalid Hnames Hord evs) as [Hinit|Hl].
    + unfold st. by rewrite Hinit.
    + intros Hfin. pose proof (live_phase _ _ Hl) as Lphase. fold st in Lphase.
      rewrite Hfin in Lphase. destruct Lphase as [Hcompleted _].
      pose proof (live_bound _ _ Hl) as Lbound. fold st in Lbound. lia.
  - destruct (run_stream_live g input config Hvalid Hnames Hord evs) as [Hinit|Hl].
    + unfold st. rewrite Hinit. simpl. lia.
    + pose proof (live_yielded _ _ Hl) as Lyl. pose proof (live_bound _ _ Hl) as Lbound.
      fold st in Lyl, Lbound. lia.
  - intros l snap Hl Hsnap.
    assert (Hph : phase_of st <> NotStarted).
    { intros Hidle. destruct (sound_idle _ _ _ _ Hs Hidle) as [_ Hnil].
      unfold st in Hl. rewrite Hnil in Hl. by apply elem_of_nil in Hl. }
    destruct (lookup_lt_is_Some_2 _ _ (sound_results_ref _ _ _ _ Hs Hph)) as [results Hres].
    pose proof (sound_below _ _ _ _ Hs l snap results Hl Hsnap Hres) as Hsub.
    pose proof (sound_own _ _ _ _ Hs results Hres) as Hownr.
    destruct (obj_get "__proto__" snap) as [v|] eqn:Hget; [|done].
    apply Hsub in Hget. congruence.
Qed.




End StreamClaims.

Lemma tutorial_stream_schedule_fair : fair_stream_schedule 3 Tutorial.stream_by_delay.
Proof.
  exists [Resume], [Settle 1; Resume; Resume; Settle 2; Settle 0;
                    Resume; Resume; Resume; Resume; Resume; Resume].
  split; [reflexivity|]. split; [repeat constructor|].
  exists [Settle 1; Resume; Resume; Settle 2; Settle 0],
         [Resume; Resume; Resume; Resume; Resume; Resume].
  split; [reflexivity|]. split; [repeat constructor | simpl; lia].
Defined.

Lemma tutorial_branches_resolve :
  Forall2 (fun b v => branch_fate Tutorial.input 0 b.2 = Some (Fulfilled v))
          (runnables Tutorial.parallel)
          ["summary: Local LLMs enable privacy-first AI.";
           "keywords: Local LLMs enable privacy-first AI.";
           "sentiment: Local LLMs enable privacy-first AI."].
Proof. repeat constructor. Defined.

(** The tutorial's call [parallel.invoke(input, config)]: the three
    branches are invoked with the reference [0] of the tutorial's
    config. *)
Lemma branches_receive_the_config_of_the_group_witness :
  calls (run_invoke Tutorial.parallel Tutorial.input 0 Tutorial.by_delay).1
  = mk_invocation Tutorial.input 0 <$> ["summary"; "keywords"; "sentiment"].
Proof.
  exact (proj1 (branches_receive_the_config_of_the_group
                  (JsObject Tutorial.options []) Tutorial.parallel Tutorial.input 0
                  eq_refl eq_refl) Tutorial.by_delay).
Defined.

(** C3, as stated, fails.  In the tutorial's call every branch is given
    the object at reference [0], the config of the group itself; so the
    branches are not given configs derived from it by [child()],
    whatever else the store of config objects has come to hold. *)
Lemma branches_receive_child_configs_counterexample :
  inv_config <$> calls (run_invoke Tutorial.parallel Tutorial.input 0 Tutorial.by_delay).1
  = [0; 0; 0]
  /\ ~ (forall inv,
          inv ∈ calls (run_invoke Tutorial.parallel Tutorial.input 0 Tutorial.by_delay).1 ->
          exists cs, Tutorial.config_store `prefix_of` cs
                     /\ Config.child_of cs 0 (inv_config inv)).
Proof.
  split; [reflexivity|]. intros H.
  destruct (H (mk_invocation Tutorial.input 0 "summary")) as (cs & _ & Hneq & _).
  - vm_compute. apply list_elem_of_here.
  - by apply Hneq.
Qed.


(** The group with a branch named [__proto__], streamed until
    nothing more can happen: one snapshot for two branches, with the
    result of the branch [a] only, and the generator waits for a race
    that no promise takes part in. *)
Lemma stream_never_returns_with_proto_branch_witness :
  let st := (run_stream Tutorial.proto_named Tutorial.input 0
               [Resume; Settle 0; Settle 1; Resume; Resume; Resume; Resume]).2 in
  (phase_of st <> Finished
   /\ length (yielded st) < 2
   /\ forall l snap, l ∈ yielded st -> heap st !! l = Some snap ->
                     obj_get "__proto__" snap = None)
  /\ phase_of st = Racing None
  /\ snapshots st = [[("a", "a: Local LLMs enable privacy-first AI.")]].
Proof.
  split; [|split; reflexivity].
  apply (stream_never_returns_with_proto_branch
           (JsObject (runnables Tutorial.proto_named) []) Tutorial.proto_named
           Tutorial.input 0); [reflexivity | reflexivity | apply list_elem_of_here].
Defined.



(** ** [batch] as a machine *)
Section BatchFacts.
Context {V E I C : Type}.
Implicit Types (g : RunnableParallel V E I C) (w : world V E I C)
  (ps : list (promise V E)) (st : call_status V E) (sts : list (call_status V E))
  (b : batch_state V E) (s : world V E I C * batch_state V E)
  (evs : list batch_event).

Lemma all_returned_lookup sts values i st :
  all_returned sts = Some values -> sts !! i = Some st ->
  exists r, st = Returned r /\ values !! i = Some r.
Proof.
  intros Hall%mapM_Some_1 Hi.
  destruct (Forall2_lookup_l _ _ _ _ _ Hall Hi) as (r & Hr & Hst).
  exists r. split; [|done]. destruct st; simpl in Hst; congruence.
Qed.

Lemma all_returned_None sts i st :
  sts !! i = Some st -> (forall r, st <> Returned r) -> all_returned sts = None.
Proof.
  intros Hi Hst. destruct (all_returned sts) as [values|] eqn:Hall; [|done].
  destruct (all_returned_lookup _ _ _ _ Hall Hi) as (r & -> & _). by destruct (Hst r).
Qed.

(** [Promise.all] starts as the calls warrant. *)
Lemma Promise_all_sync sts : batch_sync {| runs := sts; joined := Promise_all sts |}.
Proof.
  unfold batch_sync, Promise_all. simpl.
  destruct (find is_thrown sts) as [st|] eqn:Hfind.
  - apply find_some in Hfind as [Hin Hthrown]. destruct st as [| |err]; try done.
    simpl. apply list_elem_of_In, list_elem_of_lookup in Hin. done.
  - destruct (all_returned sts) as [values|] eqn:Hall; simpl; [done|].
    split; [|done]. intros i err Hi.
    pose proof (find_none _ _ Hfind (Thrown err)) as Hnone. simpl in Hnone.
    assert (In (Thrown err) sts) as Hin
      by (apply list_elem_of_In; by eapply list_elem_of_lookup_2).
    by specialize (Hnone Hin).
Qed.

(** ... and stays so when a call is resumed. *)
Lemma batch_sync_resume ps b i st :
  batch_sync b -> runs b !! i = Some st ->
  let st' := call_resume ps st in
  let sts' := <[i := st']> (runs b) in
  batch_sync {| runs := sts'; joined := promise_all_observe st' sts' (joined b) |}.
Proof.
  intros Hsync Hi st' sts'. unfold batch_sync in *. simpl.
  assert (Hlt : i < length (runs b)) by (by eapply lookup_lt_Some).
  assert (Hi' : sts' !! i = Some st') by (by apply list_lookup_insert_eq).
  destruct (joined b) as [|values|err] eqn:Hj; simpl.
  - destruct Hsync as [Hnothrown Hnone].
    assert (Hothers : forall j err, j <> i -> sts' !! j <> Some (Thrown err)).
    { intros j err Hne. subst sts'. rewrite list_lookup_insert_ne by done. apply Hnothrown. }
    destruct st' as [cur rest results|results|err] eqn:Hst'.
    + split; [|by eapply all_returned_None].
      intros j err. destruct (decide (j = i)) as [->|Hne]; [by rewrite Hi' | by apply Hothers].
    + destruct (all_returned sts') as [values|] eqn:Hall; simpl; [done|].
      split; [|done].
      intros j err. destruct (decide (j = i)) as [->|Hne]; [by rewrite Hi' | by apply Hothers].
    + by exists i.
  - destruct (all_returned_lookup _ _ _ _ Hsync Hi) as (r & -> & _).
    subst st' sts'. simpl. by rewrite list_insert_id.
  - destruct Hsync as [j Hj']. exists j. subst sts'.
    destruct (decide (j = i)) as [->|Hne]; [|by rewrite list_lookup_insert_ne].
    rewrite Hi in Hj'. injection Hj' as ->. subst st'. simpl.
    by rewrite list_lookup_insert_eq.
Qed.

Lemma batch_step_sync ev s : batch_sync s.2 -> batch_sync (batch_step ev s).2.
Proof.
  destruct s as [w b], ev as [p|i]; simpl; [done|].
  intros Hsync. destruct (runs b !! i) as [st|] eqn:Hi; [|done].
  simpl. by apply batch_sync_resume.
Qed.

Lemma call_outcome_settle p ps st :
  call_outcome (alter mark_settled p ps) st = call_outcome ps st.
Proof.
  destruct st as [cur rest results| |]; [|done..].
  apply (join_todo_ext _ _ (cur :: rest)). intros q. apply fate_settle.
Qed.

Lemma call_needs_settle p ps st :
  call_needs (alter mark_settled p ps) st = call_needs ps st.
Proof.
  destruct st as [cur rest results| |]; [|done..].
  apply (needs_todo_ext _ _ (cur :: rest)). intros q. apply fate_settle.
Qed.

Local Abbreviation batch_run evs s := (fold_left (fun s0 ev => batch_step ev s0) evs s).

Lemma batch_run_sync evs s : batch_sync s.2 -> batch_sync (batch_run evs s).2.
Proof.
  revert s. induction evs as [|ev evs IH]; intros s Hs; simpl; [done|].
  by apply IH, batch_step_sync.
Qed.

Lemma batch_step_fields ev s :
  calls (batch_step ev s).1 = calls s.1
  /\ length (store (batch_step ev s).1) = length (store s.1)
  /\ length (runs (batch_step ev s).2) = length (runs s.2)
  /\ (forall q, settled_in (store s.1) q = true ->
                settled_in (store (batch_step ev s).1) q = true).
Proof.
  destruct s as [w b], ev as [p|i]; simpl.
  - rewrite length_alter. repeat split; try done. intros q. apply settled_in_settle_mono.
  - destruct (runs b !! i) as [st|]; simpl; [|done]. by rewrite length_insert.
Qed.

Lemma batch_run_fields evs s :
  calls (batch_run evs s).1 = calls s.1
  /\ length (store (batch_run evs s).1) = length (store s.1)
  /\ length (runs (batch_run evs s).2) = length (runs s.2)
  /\ (forall q, settled_in (store s.1) q = true ->
                settled_in (store (batch_run evs s).1) q = true).
Proof.
  revert s. induction evs as [|ev evs IH]; intros s; simpl; [done|].
  destruct (IH (batch_step ev s)) as (-> & -> & -> & Hmono).
  destruct (batch_step_fields ev s) as (-> & -> & -> & Hmono1).
  repeat split; try done. intros q Hq. by apply Hmono, Hmono1.
Qed.

Lemma batch_run_settles evs s q :
  BSettle q ∈ evs -> q < length (store s.1) ->
  settled_in (store (batch_run evs s).1) q = true.
Proof.
  revert s. induction evs as [|ev evs IH]; intros s Hin Hlt; [by apply elem_of_nil in Hin|].
  simpl. apply elem_of_cons in Hin as [<-|Hin].
  - apply batch_run_fields. destruct s as [w b]. simpl. by apply settled_in_settle_eq.
  - apply IH; [done|]. by destruct (batch_step_fields ev s) as (_ & -> & _).
Qed.

Lemma batch_step_needs_suffix ev s i :
  exists k, batch_needs (batch_step ev s) i = drop k (batch_needs s i).
Proof.
  unfold batch_needs. destruct s as [w b], ev as [p|j]; simpl.
  - exists 0. destruct (runs b !! i) as [st|]; [|done]. apply call_needs_settle.
  - destruct (runs b !! j) as [stj|] eqn:Hj; simpl; [|by exists 0].
    destruct (decide (j = i)) as [->|Hne].
    + rewrite list_lookup_insert_eq by (by eapply lookup_lt_Some). rewrite Hj.
      apply call_needs_resume_suffix.
    + exists 0. by rewrite list_lookup_insert_ne.
Qed.

(** With the promises it needs settled, each resumption of the [i]-th
    call takes it one [await] further. *)
Lemma batch_run_needs_progress evs s i :
  Forall (fun p => settled_in (store s.1) p = true) (batch_needs s i) ->
  batch_needs (batch_run evs s) i = drop (count_bresumes i evs) (batch_needs s i).
Proof.
  revert s. induction evs as [|ev evs IH]; intros s Hall; simpl; [done|].
  assert (Hstep : batch_needs (batch_step ev s) i
            = match ev with
              | BResume j => if Nat.eqb i j then tail (batch_needs s i) else batch_needs s i
              | BSettle _ => batch_needs s i
              end).
  { unfold batch_needs in *. destruct s as [w b], ev as [p|j]; simpl in *.
    - destruct (runs b !! i) as [st|]; [|done]. apply call_needs_settle.
    - destruct (Nat.eqb_spec i j) as [<-|Hne].
      + destruct (runs b !! i) as [st|] eqn:Hi; simpl; [|by rewrite Hi].
        rewrite list_lookup_insert_eq by (by eapply lookup_lt_Some).
        by apply call_needs_resume.
      + destruct (runs b !! j) as [stj|]; simpl; [|done].
        by rewrite list_lookup_insert_ne. }
  rewrite IH.
  - rewrite Hstep. destruct ev as [p|j]; [done|].
    destruct (Nat.eqb i j); [|done].
    destruct (batch_needs s i); simpl; [by rewrite drop_nil | done].
  - destruct (batch_step_needs_suffix ev s i) as [k ->].
    apply Forall_drop. eapply Forall_impl; [done|]. intros q Hq.
    by apply batch_step_fields.
Qed.

Lemma needs_todo_length ps todo : length (needs_todo ps todo) <= length todo.
Proof.
  induction todo as [|[name p] todo IH]; simpl; [done|].
  destruct (fate <$> ps !! p) as [[?|?]|]; simpl; lia.
Qed.

Lemma holds_promise_of_ext (input : I) (config : C) ps ps' t (e : string * js_value V E I C) :
  (forall q pr, ps !! q = Some pr -> exists pr', ps' !! q = Some pr' /\ fate pr' = fate pr) ->
  holds_promise_of input config ps t e -> holds_promise_of input config ps' t e.
Proof.
  intros Hext [Hname (pr & Hp & Hf)]. split; [done|].
  destruct (Hext _ _ Hp) as (pr' & Hp' & Hfate). exists pr'. by rewrite Hfate.
Qed.

Lemma needs_todo_holds (input : I) (config : C) ps todo (entries : list (string * js_value V E I C)) :
  Forall2 (holds_promise_of input config ps) todo entries ->
  Forall (fun p => p < length ps) (needs_todo ps todo)
  /\ length (needs_todo ps todo) <= length entries.
Proof.
  intros Hholds. split.
  - induction Hholds as [|[name p] e todo entries [_ (pr & Hp & _)] _ IH]; simpl; [done|].
    simpl in Hp. rewrite Hp. simpl. constructor; [by eapply lookup_lt_Some|].
    by destruct (fate pr).
  - rewrite <-(Forall2_length _ _ _ Hholds). apply needs_todo_length.
Qed.

Lemma batch_start_spec arg g inputs (config : C) w :
  RunnableParallel_new arg = inr g ->
  own_keys_ordered (runnables g) = true ->
  exists w' sts,
    batch_start_all g inputs config w = (w', sts)
    /\ calls w' = calls w
                  ++ concat ((fun input => mk_invocation input config <$> runnableNames g)
                             <$> inputs)
    /\ length (store w') = length (store w) + length inputs * length (runnableNames g)
    /\ (forall q, q < length (store w) -> store w' !! q = store w !! q)
    /\ Forall2 (fun input st => call_of g input config (store w') st) inputs sts.
Proof.
  intros Hnew Hord. pose proof (RunnableParallel_new_inr _ _ Hnew) as (Hnames & _ & _).
  assert (Hn : length (runnableNames g) = length (runnables g)).
  { rewrite Hnames. unfold Object_keys. by rewrite length_map. }
  revert w. induction inputs as [|input inputs IH]; intros w; simpl.
  - exists w, []. rewrite app_nil_r, Nat.add_0_r. repeat split; done.
  - destruct (call_initial arg g input config w Hnew Hord) as (w1 & started & -> & Hl).
    destruct (launched_awaited _ _ _ _ _ _ _ Hl) as (Hholds & _ & _).
    destruct Hl as (_ & _ & Hcalls & Hlen & Hold & _).
    destruct (IH w1) as (w' & sts & -> & Hcalls' & Hlen' & Hold' & Hruns).
    exists w', (call_loop (obj_delete "__proto__" started) [] :: sts). split; [done|].
    split; [by rewrite Hcalls', Hcalls, <-app_assoc, Hnames|].
    split; [rewrite Hlen', Hlen; lia|].
    split; [intros q Hq; rewrite Hold' by lia; by apply Hold|].
    constructor; [|done]. exists (obj_delete "__proto__" started). split; [done|].
    eapply Forall2_impl; [done|]. intros t e. apply holds_promise_of_ext.
    intros q pr Hq. exists pr. split; [|done]. rewrite Hold'; [done|].
    by eapply lookup_lt_Some.
Qed.

Lemma batch_tracks_step g inputs (config : C) ev s :
  batch_tracks g inputs config s -> batch_tracks g inputs config (batch_step ev s).
Proof.
  intros Htr i input st' Hinput Hi'.
  destruct s as [w b], ev as [p|j]; simpl in *.
  - destruct (Htr i input st' Hinput Hi') as (todo & k & Hholds & Hout & Hneeds).
    simpl in Hholds, Hout, Hneeds. exists todo, k. split; [|split].
    + eapply Forall2_impl; [done|]. intros t e. apply holds_promise_of_ext.
      intros q pr Hq. simpl in *. rewrite lookup_settle, Hq. simpl.
      eexists. split; [done|]. by case_decide.
    + rewrite call_outcome_settle, Hout. apply join_todo_ext. intros q.
      symmetry. apply fate_settle.
    + rewrite call_needs_settle, Hneeds. f_equal. apply needs_todo_ext. intros q.
      symmetry. apply fate_settle.
  - destruct (runs b !! j) as [stj|] eqn:Hj; simpl in *; [|by apply (Htr i)].
    destruct (decide (j = i)) as [->|Hne].
    + rewrite list_lookup_insert_eq in Hi' by (by eapply lookup_lt_Some).
      injection Hi' as <-.
      destruct (Htr i input stj Hinput Hj) as (todo & k & Hholds & Hout & Hneeds).
      simpl in Hholds, Hout, Hneeds.
      destruct (call_needs_resume_suffix (store w) stj) as [k' Hk'].
      exists todo, (k + k'). split; [done|]. split; [by rewrite call_outcome_resume|].
      by rewrite Hk', Hneeds, drop_drop.
    + rewrite list_lookup_insert_ne in Hi' by done. by apply (Htr i).
Qed.

(** What holds of every state of every batch run. *)
Lemma run_batch_facts arg g inputs (config : C) evs :
  RunnableParallel_new arg = inr g ->
  own_keys_ordered (runnables g) = true ->
  let s := run_batch g inputs config evs in
  batch_sync s.2
  /\ batch_tracks g inputs config s
  /\ calls s.1 = concat ((fun input => mk_invocation input config <$> runnableNames g)
                         <$> inputs)
  /\ length (store s.1) = length inputs * length (runnableNames g)
  /\ length (runs s.2) = length inputs.
Proof.
  intros Hnew Hord. unfold run_batch, batch.
  destruct (batch_start_spec arg g inputs config empty_world Hnew Hord)
    as (w0 & sts0 & -> & Hcalls & Hlen & _ & Hruns).
  simpl in *.
  set (s0 := (w0, {| runs := sts0; joined := Promise_all sts0 |})).
  assert (Htr0 : batch_tracks g inputs config s0).
  { intros i input st Hinput Hi. simpl in *.
    destruct (Forall2_lookup_lr _ _ _ _ _ _ Hruns Hinput Hi) as (todo & -> & Hholds).
    exists todo, 0. split; [done|]. by rewrite call_outcome_loop, call_needs_loop. }
  destruct (batch_run_fields evs s0) as (-> & -> & -> & _). simpl.
  split; [apply batch_run_sync, Promise_all_sync|].
  split; [|split; [done|split; [done|by apply Forall2_length in Hruns]]].
  clear -Htr0. revert Htr0. generalize s0. clear s0.
  induction evs as [|ev evs IH]; intros s0 Htr0; simpl; [done|].
  by apply IH, batch_tracks_step.
Qed.

(** A call of a batch that has ended has ended as [invoke] ends on
    its input. *)
Lemma batch_tracks_ended arg g inputs (config : C) s i input st :
  RunnableParallel_new arg = inr g ->
  own_keys_ordered (runnables g) = true ->
  batch_tracks g inputs config s ->
  inputs !! i = Some input -> runs s.2 !! i = Some st ->
  is_awaiting st = false ->
  invoke_ends_as g input config st.
Proof.
  intros Hnew Hord Htr Hinput Hi Hend.
  destruct (Htr i input st Hinput Hi) as (todo & _ & Hholds & Hout & _).
  apply (invoke_ends_as_join arg g input config (store s.1) todo); [done..|].
  rewrite <-Hout. by destruct st.
Qed.

(** Once every promise has settled and every call has been resumed
    often enough, no call of the batch is still suspended. *)
Lemma run_batch_fair_ended arg g inputs (config : C) evs :
  RunnableParallel_new arg = inr g ->
  own_keys_ordered (runnables g) = true ->
  fair_batch_schedule (length inputs * length (runnableNames g)) (length inputs)
                      (length (runnableNames g)) evs ->
  Forall (fun st => is_awaiting st = false) (runs (run_batch g inputs config evs).2).
Proof.
  intros Hnew Hord (evs1 & evs2 & -> & Hsettle & Hres).
  pose proof (run_batch_facts arg g inputs config [] Hnew Hord) as (_ & _ & _ & Hlen0 & _).
  pose proof (run_batch_facts arg g inputs config evs1 Hnew Hord)
    as (_ & Htr1 & _ & Hlen1 & Hruns1).
  pose proof (run_batch_facts arg g inputs config (evs1 ++ evs2) Hnew Hord)
    as (_ & _ & _ & _ & Hruns2).
  pose proof (RunnableParallel_new_inr _ _ Hnew) as (Hnames & _ & _).
  assert (Hn : length (runnableNames g) = length (runnables g)).
  { rewrite Hnames. unfold Object_keys. by rewrite length_map. }
  cbv zeta in *. unfold run_batch in *. rewrite fold_left_app in *.
  set (s0 := batch g inputs config empty_world) in *.
  set (s1 := fold_left (fun s ev => batch_step ev s) evs1 s0) in *.
  assert (Hall : forall q, q < length (store s1.1) -> settled_in (store s1.1) q = true).
  { intros q Hq. apply batch_run_settles; [|simpl in *; lia].
    rewrite Forall_forall in Hsettle. apply Hsettle. apply elem_of_seq. lia. }
  apply Forall_lookup. intros i st2 Hi2.
  assert (Hi : i < length inputs) by (rewrite <-Hruns2; by eapply lookup_lt_Some).
  destruct (lookup_lt_is_Some_2 inputs i Hi) as [input Hinput].
  destruct (lookup_lt_is_Some_2 (runs s1.2) i) as [st1 Hi1]; [lia|].
  destruct (Htr1 i input st1 Hinput Hi1) as (todo & k & Hholds & _ & Hneeds).
  destruct (needs_todo_holds _ _ _ _ _ Hholds) as [Hvalid Hshort].
  pose proof (batch_run_needs_progress evs2 s1 i) as Hprog.
  unfold batch_needs in Hprog. rewrite Hi1, Hi2, Hneeds in Hprog.
  pose proof (awaited_length g Hnames) as Hle.
  apply (call_needs_nil (store (fold_left (fun s ev => batch_step ev s) evs2 s1).1)).
  rewrite Hprog.
  - apply drop_ge. rewrite length_drop. specialize (Hres i Hi). lia.
  - apply Forall_drop. eapply Forall_impl; [done|]. intros q Hq. by apply Hall.
Qed.

(** What [Promise.all] has settled as tells how the calls ended. *)
Lemma run_batch_joined arg g inputs (config : C) evs :
  RunnableParallel_new arg = inr g ->
  own_keys_ordered (runnables g) = true ->
  let s := run_batch g inputs config evs in
  (forall i input st, inputs !! i = Some input -> runs s.2 !! i = Some st ->
     is_awaiting st = false -> invoke_ends_as g input config st)
  /\ (forall values, joined s.2 = AllFulfilled values ->
        Forall2 (fun input results => invoke_ends_as g input config (Returned results))
                inputs values)
  /\ (forall i err, runs s.2 !! i = Some (Thrown err) -> exists err', joined s.2 = AllRejected err')
  /\ (forall err, joined s.2 = AllRejected err ->
        exists input, input ∈ inputs /\ invoke_ends_as g input config (Thrown err)).
Proof.
  intros Hnew Hord s.
  destruct (run_batch_facts arg g inputs config evs Hnew Hord) as (Hsync & Htr & _ & _ & Hlen).
  fold s in Hsync, Htr, Hlen. unfold batch_sync in Hsync. split; [|split; [|split]].
  - intros i input st Hinput Hi Hend. by eapply (batch_tracks_ended arg).
  - intros values Hj. rewrite Hj in Hsync.
    pose proof (Forall2_length _ _ _ (mapM_Some_1 _ _ _ Hsync)) as Hlenv.
    apply Forall2_same_length_lookup. split; [lia|].
    intros i input results Hinput Hresults.
    destruct (lookup_lt_is_Some_2 (runs s.2) i) as [st Hi].
    { rewrite Hlen. by eapply lookup_lt_Some. }
    destruct (all_returned_lookup _ _ _ _ Hsync Hi) as (r & -> & Hr).
    rewrite Hresults in Hr. injection Hr as <-.
    by apply (batch_tracks_ended arg g inputs config s i input _ Hnew Hord Htr Hinput Hi).
  - intros i err Hi. destruct (joined s.2) as [|values|err'] eqn:Hj; [| |by eauto].
    + destruct Hsync as [Hno _]. by destruct (Hno i err).
    + by destruct (all_returned_lookup _ _ _ _ Hsync Hi) as (r & ? & _).
  - intros err Hj. rewrite Hj in Hsync. destruct Hsync as [i Hi].
    destruct (lookup_lt_is_Some_2 inputs i) as [input Hinput].
    { rewrite <-Hlen. by eapply lookup_lt_Some. }
    exists input. split; [by eapply list_elem_of_lookup_2|].
    by apply (batch_tracks_ended arg g inputs config s i input _ Hnew Hord Htr Hinput Hi).
Qed.

End BatchFacts.

(** ** The claim on [batch] *)
Section BatchClaims.
Context {V E I C : Type}.


End BatchClaims.

(** ** Where the errors of a constructed group come from *)
Section ErrorFacts.
Context {V E I C : Type}.
Variables (g : RunnableParallel V E I C) (input : I) (config : C).
Hypothesis Hvalid : Forall (fun e => not_a_runnable e.2 = false) (runnables g).
Hypothesis Hnames : runnableNames g = Object_keys (runnables g).
Hypothesis Hord : own_keys_ordered (runnables g) = true.
Implicit Types (w : world V E I C) (st : stream_state V E)
  (s : world V E I C * stream_state V E) (evs : list event).

Lemma name_fate_rejected name e :
  name_fate g input config name = Some (Rejected e) ->
  raised_by_branch g input config (Reason e).
Proof.
  unfold name_fate. destruct (obj_get name (runnables g)) as [r|] eqn:Hr; [|done].
  simpl. intros Hrej. exists (name, r), e. split; [by apply obj_get_Some_in | done].
Qed.

Lemma stream_errors_trans s s' :
  s = (empty_world, not_started) \/ stream_live g s ->
  stream_sound g input config s ->
  (forall err, phase_of s.2 = Failed err -> raised_by_branch g input config err) ->
  stream_trans g input config s s' ->
  forall err, phase_of s'.2 = Failed err -> raised_by_branch g input config err.
Proof.
  intros Hl Hs Herr Ht err.
  destruct Ht as [s | w st p pr Hp Hpend | w st w' proms Hph Hstart
                 | w st w' err' Hph Hstart | w st name p pr v results Hph Hget Hp Hf Hres
                 | w st name p pr e Hph Hget Hp Hf | w st name Hph]; simpl in *.
  - apply Herr.
  - intros Hfail. apply Herr. revert Hfail.
    destruct (run_reaction_fields pr st) as (_ & _ & _ & _ & Rph & _).
    unfold decide_race. rewrite Rph.
    destruct (phase_of st) as [|[?|]| | |] eqn:Hph; simpl; rewrite ?Rph, ?Hph; done.
  - unfold stream_loop. by destruct (Nat.ltb _ _).
  - destruct Hl as [[= -> ->]|Hl].
    + destruct (stream_start_ok g input config Hvalid Hnames Hord) as (w2 & new2 & Hstart2 & _).
      congruence.
    + pose proof (live_phase _ _ Hl) as Lphase. simpl in Lphase. by rewrite Hph in Lphase.
  - done.
  - intros [= <-]. destruct Hl as [[= -> ->]|Hl]; [done|].
    pose proof (live_promises _ _ Hl name p Hget) as Hname. simpl in Hname.
    pose proof (live_reactions _ _ Hl p name Hname) as Hr. simpl in Hr.
    rewrite Hp in Hr. injection Hr as Hr.
    pose proof (sound_fates _ _ _ _ Hs p pr name Hp Hr) as Hfate.
    apply (name_fate_rejected name). by rewrite Hfate, Hf.
  - unfold stream_loop. by destruct (Nat.ltb _ _).
Qed.

(** A stream of a validated group fails only as one of its branches
    does. *)
Lemma run_stream_errors evs err :
  phase_of (run_stream g input config evs).2 = Failed err ->
  raised_by_branch g input config err.
Proof.
  revert err. induction evs as [|ev evs IH] using rev_ind; [done|].
  rewrite run_stream_app. cbn [fold_left].
  apply (stream_errors_trans (run_stream g input config evs)).
  - apply (run_stream_live g input config Hvalid Hnames Hord).
  - apply run_stream_sound.
  - exact IH.
  - apply stream_step_trans.
Qed.

End ErrorFacts.

Section ConstructedFacts.
Context {V E I C : Type}.

(** A call of a constructed group throws only as one of its branches
    rejects. *)
Lemma run_invoke_errors arg (g : RunnableParallel V E I C) (input : I) (config : C) evs err :
  RunnableParallel_new arg = inr g ->
  own_keys_ordered (runnables g) = true ->
  (run_invoke g input config evs).2 = Thrown err ->
  raised_by_branch g input config err.
Proof.
  intros Hnew Hord Hthrown.
  destruct (invoke_ends arg g input config Hnew Hord) as (final & Hends & Hshape).
  destruct Hends as [_ Hany].
  specialize (Hany evs). rewrite Hthrown in Hany. specialize (Hany eq_refl). subst final.
  destruct Hshape as (br & e & Hbr & Hfate & ->).
  exists br, e. split; [|done].
  by apply (sublist_subseteq _ _ (obj_delete_sublist "__proto__" (runnables g))).
Qed.

(** When the constructor throws. *)
Lemma RunnableParallel_new_inl (arg : js_value V E I C) :
  (exists err, RunnableParallel_new arg = inl err)
  <-> arg <> JsUndefined
      /\ (typeof arg <> "object" \/ Array_isArray arg = true \/ arg = JsNull
          \/ exists own proto,
               arg = JsObject own proto
               /\ Exists (fun e => not_a_runnable e.2 = true) own).
Proof.
  unfold RunnableParallel_new.
  destruct arg as [| |b|z| |str|f|elements props|own proto]; simpl.
  - split; [by intros [err ?] | by intros [? _]].
  - split; [|by eauto]. intros _. split; [done|]. by right; right; left.
  - split; [|by eauto]. intros _. split; [done|]. by left.
  - split; [|by eauto]. intros _. split; [done|]. by left.
  - split; [|by eauto]. intros _. split; [done|]. by left.
  - split; [|by eauto]. intros _. split; [done|]. by left.
  - split; [|by eauto]. intros _. split; [done|]. by left.
  - split; [|by eauto]. intros _. split; [done|]. by right; left.
  - destruct (find _ (Object_entries own)) as [[name r]|] eqn:Hfind.
    + split; [|by eauto]. intros _. split; [done|]. right; right; right.
      exists own, proto. split; [done|]. apply find_some in Hfind as [Hin Hr].
      apply Exists_exists. exists (name, r). split; [by apply list_elem_of_In | done].
    + split; [by intros [err ?]|]. intros [_ [?|[?|[?|(own' & proto' & [= <- <-] & Hex)]]]];
        try done.
      apply Exists_exists in Hex as (e & Hin & He).
      pose proof (find_none _ _ Hfind e) as Hnone. simpl in Hnone.
      rewrite Hnone in He; [done|]. by apply list_elem_of_In.
Qed.

End ConstructedFacts.

(** ** The claim on the constructor *)
Section ConstructorClaims.
Context {V E I C : Type}.

(** C4, amended.  [new RunnableParallel(arg)] throws exactly when
    [arg] is not [undefined] and is not an object, or is an array, or
    is [null], or is an object with an own property whose value is
    falsy or has no [invoke] function; an [undefined] argument is
    replaced by the empty mapping.  Validation is never deferred: in a
    group the constructor returns, every branch has an [invoke]
    function, and [invoke], [stream] and [batch] never raise an error
    of the constructor. *)
Theorem constructor_throws_exactly_on_invalid_options (arg : js_value V E I C) :
  ((exists err, RunnableParallel_new arg = inl err)
   <-> arg <> JsUndefined
       /\ (typeof arg <> "object" \/ Array_isArray arg = true \/ arg = JsNull
           \/ exists own proto,
                arg = JsObject own proto
                /\ Exists (fun e => not_a_runnable e.2 = true) own))
  /\ forall g,
       RunnableParallel_new arg = inr g ->
       (arg = JsUndefined /\ runnables g = [] \/ exists proto, arg = JsObject (runnables g) proto)
       /\ runnableNames g = Object_keys (runnables g)
       /\ Forall (fun br => exists f, get_property br.2 "invoke" = JsFunction f) (runnables g)
       /\ (own_keys_ordered (runnables g) = true ->
           forall (input : I) (config : C) message,
             (forall evs, (run_invoke g input config evs).2 <> Thrown (Error message))
             /\ (forall evs, phase_of (run_stream g input config evs).2 <> Failed (Error message))
             /\ (forall inputs evs,
                   joined (run_batch g inputs config evs).2 <> AllRejected (Error message))).
Proof.
  split; [apply RunnableParallel_new_inl|].
  intros g Hnew.
  pose proof (RunnableParallel_new_inr _ _ Hnew) as (Hnames & Hvalid & Harg).
  split; [done|]. split; [done|]. split.
  - eapply Forall_impl; [done|]. intros br Hbr. by apply not_a_runnable_false.
  - intros Hord input config message. split; [|split].
    + intros evs Hthrown.
      by destruct (run_invoke_errors arg g input config evs _ Hnew Hord Hthrown)
        as (br & e & _ & _ & ?).
    + intros evs Hfailed.
      by destruct (run_stream_errors g input config Hvalid Hnames Hord evs _ Hfailed)
        as (br & e & _ & _ & ?).
    + intros inputs evs Hrejected.
      destruct (run_batch_joined arg g inputs config evs Hnew Hord) as (_ & _ & _ & Hrej).
      destruct (Hrej _ Hrejected) as (input' & _ & Hthrows).
      destruct (invoke_ends arg g input' config Hnew Hord) as (final & Hends & Hshape).
      destruct (invoke_ends_as_inj g input' config _ _ Hthrows Hends).
      by destruct Hshape as (br & e & _ & _ & ?).
Qed.

End ConstructorClaims.

Lemma tutorial_batch_schedule_fair : fair_batch_schedule 6 2 3 Tutorial.second_input_first.
Proof.
  exists [BSettle 4; BSettle 5; BSettle 3; BResume 1; BResume 1;
          BSettle 1; BSettle 2; BSettle 0],
         [BResume 1; BResume 0; BResume 1; BResume 0; BResume 1; BResume 0].
  split; [reflexivity|]. split; [repeat constructor|].
  intros [|[|i]] Hi; simpl; lia.
Defined.


(** An array of Runnables is refused by the constructor. *)
Lemma constructor_throws_exactly_on_invalid_options_witness :
  exists err,
    RunnableParallel_new (JsArray [Tutorial.LabelRunnable "summary" 400] []) = inl err.
Proof.
  apply (proj2 (proj1 (constructor_throws_exactly_on_invalid_options
                         (JsArray [Tutorial.LabelRunnable "summary" 400] [])))).
  split; [discriminate|]. right. left. reflexivity.
Defined.

(** A function that carries an [invoke] function is a Runnable to the
    constructor; a function or an array without one is not. *)
Lemma constructor_accepts_callable_branches :
  let runnable := Tutorial.LabelRunnable "summary" 400 in
  let carrier := JsFunction (Callable (fun _ _ => Fulfilled "")
                               [("invoke", get_property runnable "invoke")]) in
  RunnableParallel_new (JsObject [("summary", carrier)] [])
  = inr {| runnables := [("summary", carrier)]; runnableNames := ["summary"] |}
  /\ RunnableParallel_new (JsObject [("summary", get_property runnable "invoke")] [])
     = inl (Error "Property 'summary' must be a Runnable with an invoke() method")
  /\ RunnableParallel_new (JsObject [("summary", JsArray [runnable] [])] [])
     = inl (Error "Property 'summary' must be a Runnable with an invoke() method").
Proof. repeat split; reflexivity. Qed.

(** C4, as stated, fails.  [undefined] is not an object, so it is not
    a mapping of names to Runnables, and [new RunnableParallel(undefined)]
    does not throw: the default parameter [options = {}] takes its
    place and the constructor returns the group with no branch. *)
Lemma constructor_accepts_undefined_counterexample :
  typeof (@JsUndefined string string string nat) = "undefined"
  /\ RunnableParallel_new (@JsUndefined string string string nat)
     = inr {| runnables := []; runnableNames := [] |}.
Proof. split; reflexivity. Qed.

(** * Further properties of the class *)

(** ** The accessors *)
Section AccessorFacts.
Context {V E I C : Type}.
Implicit Types (g : RunnableParallel V E I C) (own proto : list (string * js_value V E I C)).

Lemma obj_has_elem_of {A} k (o : list (string * A)) : obj_has k o = true <-> k ∈ Object_keys o.
Proof.
  unfold obj_has. rewrite <-obj_get_is_Some.
  destruct (obj_get k o) as [v|]; split; intros H.
  - by exists v.
  - done.
  - done.
  - by destruct H.
Qed.

(** X1.  The accessors of a group built from the object [JsObject own proto]
    agree with what the constructor was given: [getRunnames()] is the
    list of its own keys; [hasRunnable(name)] holds of these names and
    of the names the object inherits, and of no other; for a name of
    [getRunnames()], [getRunnable(name)] is the value given under that
    name, which has an [invoke] function; for any other name it is what
    the object inherits under that name, which the constructor never
    looked at, or [undefined]. *)
Theorem accessors_agree_with_constructor own proto g :
  RunnableParallel_new (JsObject own proto) = inr g ->
  getRunnames g = Object_keys own
  /\ (forall name,
        hasRunnable g proto name = true
        <-> name ∈ getRunnames g \/ name ∈ Object_keys proto)
  /\ (forall name,
        name ∈ getRunnames g ->
        obj_get name own = Some (getRunnable g proto name)
        /\ exists f, get_property (getRunnable g proto name) "invoke" = JsFunction f)
  /\ (forall name,
        name ∉ getRunnames g ->
        getRunnable g proto name = default JsUndefined (obj_get name proto)).
Proof.
  intros Hnew.
  pose proof (RunnableParallel_new_inr _ _ Hnew) as (Hnames & Hvalid & [[? _]|[proto' Harg]]);
    [done|].
  injection Harg as -> _. unfold getRunnames, hasRunnable, getRunnable, this_runnables.
  rewrite Hnames. split; [done|]. split; [|split].
  - intros name. simpl. by rewrite orb_true_iff, !obj_has_elem_of.
  - intros name [r Hr]%obj_get_is_Some. simpl. rewrite Hr. split; [done|].
    apply not_a_runnable_false. rewrite Forall_forall in Hvalid.
    apply (Hvalid (name, r)). by apply obj_get_Some_in.
  - intros name Hname%obj_get_None. simpl. rewrite Hname. by destruct (obj_get name proto).
Qed.

End AccessorFacts.

(** ** Nothing to run: the empty group and the empty batch *)
Section EmptyFacts.
Context {V E I C : Type}.
Implicit Types (g : RunnableParallel V E I C) (evs : list event).

(** A call that has ended stays as it ended. *)
Lemma call_run_done evs (s : world V E I C * call_status V E) :
  is_awaiting s.2 = false -> (call_run evs s).2 = s.2.
Proof.
  revert s. induction evs as [|ev evs IH]; intros s Hend; [done|].
  change (call_run (ev :: evs) s) with (call_run evs (call_step ev s)).
  rewrite IH; destruct ev, s as [w [[??]??| |]]; done.
Qed.

(** A settled [Promise.all] stays as it settled. *)
Lemma batch_run_settled (evs : list batch_event) (s : world V E I C * batch_state V E) :
  joined s.2 <> AllPending ->
  joined (fold_left (fun s0 ev => batch_step ev s0) evs s).2 = joined s.2.
Proof.
  revert s. induction evs as [|ev evs IH]; intros s Hs; simpl; [done|].
  assert (Hstep : joined (batch_step ev s).2 = joined s.2).
  { destruct s as [w b], ev as [p|i]; simpl in *; [done|].
    destruct (runs b !! i); simpl; [|done]. by destruct (joined b). }
  rewrite IH; [done | by rewrite Hstep].
Qed.

Lemma Promise_all_returned (rs : list (list (string * V))) :
  Promise_all (Returned (E := E) <$> rs) = AllFulfilled rs.
Proof.
  unfold Promise_all.
  assert (find is_thrown (Returned (E := E) <$> rs) = None) as ->.
  { induction rs as [|r rs IH]; simpl; done. }
  assert (all_returned (Returned (E := E) <$> rs) = Some rs) as ->; [|done].
  unfold all_returned. apply mapM_Some. induction rs as [|r rs IH]; by constructor.
Qed.

(** X2.  [batch([], config)]: whatever the group, nothing is invoked and
    the batch is fulfilled with the empty list from the start, on
    every schedule. *)
Theorem batch_of_no_inputs_is_empty g (config : C) (evs : list batch_event) :
  let s := run_batch g [] config evs in
  joined s.2 = AllFulfilled [] /\ runs s.2 = [] /\ calls s.1 = [].
Proof.
  unfold run_batch, batch. cbn [batch_start_all].
  set (s0 := (empty_world, {| runs := []; joined := Promise_all [] |})).
  split; [by rewrite batch_run_settled|]. split.
  - pose proof (batch_run_fields evs s0) as (_ & _ & Hlen & _).
    by apply nil_length_inv.
  - by pose proof (batch_run_fields evs s0) as (-> & _).
Qed.

(** X3.  [new RunnableParallel()] and [new RunnableParallel({})] build the
    group with no branch.  Its [invoke] returns the empty object
    without waiting for anything, its stream ends at the first
    [next()] without a snapshot, and its [batch] is fulfilled from the
    start with one empty object per input; nothing is ever invoked. *)
Theorem empty_group_settles_at_once (arg : js_value V E I C) :
  arg = JsUndefined \/ (exists proto, arg = JsObject [] proto) ->
  exists g,
    RunnableParallel_new arg = inr g
    /\ getRunnames g = []
    /\ forall (input : I) (config : C),
         (forall evs, (run_invoke g input config evs).2 = Returned []
                      /\ calls (run_invoke g input config evs).1 = [])
         /\ (forall evs, Resume ∈ evs ->
               let s := run_stream g input config evs in
               phase_of s.2 = Finished /\ yielded s.2 = [] /\ calls s.1 = [])
         /\ (forall inputs (evs : list batch_event),
               let s := run_batch g inputs config evs in
               joined s.2 = AllFulfilled (replicate (length inputs) [])
               /\ calls s.1 = []).
Proof.
  intros Harg. set (g0 := {| runnables := []; runnableNames := [] |} : RunnableParallel V E I C).
  exists g0. split; [by destruct Harg as [->|[proto ->]]|]. split; [done|].
  intros input config. split; [|split].
  - intros evs. unfold run_invoke. rewrite call_run_calls. by rewrite call_run_done.
  - intros evs Hstarted s.
    assert (Hinv : s = (empty_world, not_started)
                   \/ (phase_of s.2 = Finished /\ yielded s.2 = []
                       /\ s.1 = empty_world)).
    { apply (run_stream_invariant g0 input config
               (fun s => s = (empty_world, not_started)
                         \/ (phase_of s.2 = Finished /\ yielded s.2 = []
                             /\ s.1 = empty_world))).
      - by left.
      - intros s1 s2 [->|(Hph & Hyl & Hw)] Ht.
        + inversion Ht; subst; simpl in *; try done; try (by left);
            try (match goal with H : [] !! _ = Some _ |- _ => by rewrite lookup_nil in H end).
          right. by match goal with H : (_, _) = (_, _) |- _ => injection H as <- <- end.
        + destruct s1 as [w1 st1]. simpl in *. subst w1.
          inversion Ht; subst; simpl in *; try congruence; try (by right);
            try (match goal with H : [] !! _ = Some _ |- _ => by rewrite lookup_nil in H end). }
    destruct Hinv as [Hinit|(Hph & Hyl & Hw)].
    + apply (run_stream_started g0 input config) in Hstarted. fold s in Hstarted.
      by rewrite Hinit in Hstarted.
    + by rewrite Hw.
  - intros inputs evs. unfold run_batch, batch.
    assert (Hstart : forall w : world V E I C,
              batch_start_all g0 inputs config w
              = (w, Returned (E := E) <$> replicate (length inputs) [])).
    { induction inputs as [|i inputs IH]; intros w; simpl; [done|]. by rewrite IH. }
    rewrite Hstart, Promise_all_returned. simpl.
    split; [by rewrite batch_run_settled|].
    by pose proof (batch_run_fields evs
                     (empty_world,
                      {| runs := Returned (E := E) <$> replicate (length inputs) [];
                         joined := AllFulfilled (replicate (length inputs) []) |}))
      as (-> & _).
Qed.

End EmptyFacts.

(** ** [invoke] waits: it is not fail-fast *)
Section WaitFacts.
Context {V E I C : Type}.
Implicit Types (g : RunnableParallel V E I C) (evs : list event)
  (s : world V E I C * call_status V E) (ps : list (promise V E)).

(** A promise is settled only by its own settlement. *)
Lemma call_run_settled_inv evs s p :
  settled_in (store (call_run evs s).1) p = true ->
  settled_in (store s.1) p = true \/ Settle p ∈ evs.
Proof.
  revert s. induction evs as [|ev evs IH]; intros s Hp; [by left|].
  change (call_run (ev :: evs) s) with (call_run evs (call_step ev s)) in Hp.
  destruct (IH _ Hp) as [Hstep|Hin]; [|right; by apply list_elem_of_further].
  destruct s as [w st], ev as [q|]; simpl in Hstep; [|by left].
  destruct (decide (q = p)) as [->|Hne]; [right; apply list_elem_of_here|].
  left. simpl. unfold settled_in in *. by rewrite list_lookup_alter_ne in Hstep.
Qed.

(** One resumption takes the call past at most one [await], and only
    past a settled promise. *)
Lemma call_resume_passed ps st :
  exists k,
    call_needs ps (call_resume ps st) = drop k (call_needs ps st)
    /\ forall i p, i < k -> call_needs ps st !! i = Some p -> settled_in ps p = true.
Proof.
  destruct st as [[name p] rest results| |]; simpl; try (exists 0; split; [done|lia]).
  destruct (ps !! p) as [pr|] eqn:Hlk; simpl;
    [|exists 0; simpl; rewrite Hlk; split; [done|lia]].
  destruct (is_settled pr) eqn:Hs; [|exists 0; simpl; rewrite Hlk; split; [done|lia]].
  exists 1. split.
  - simpl. rewrite drop_0. destruct (fate pr); [apply call_needs_loop | done].
  - intros [|i] q Hi; [|lia]. simpl. intros [= <-]. unfold settled_in. by rewrite Hlk.
Qed.

(** The promises a call no longer needs have all settled. *)
Lemma call_run_passed evs s :
  exists k,
    call_needs (store (call_run evs s).1) (call_run evs s).2
    = drop k (call_needs (store s.1) s.2)
    /\ forall i p, i < k -> call_needs (store s.1) s.2 !! i = Some p ->
                   settled_in (store (call_run evs s).1) p = true.
Proof.
  induction evs as [|ev evs IH] using rev_ind; [exists 0; split; [done|lia]|].
  destruct IH as (k & Hdrop & Hpassed). rewrite call_run_app.
  change (call_run [ev] (call_run evs s)) with (call_step ev (call_run evs s)).
  destruct ev as [q|].
  - exists k. rewrite call_needs_step_settle. split; [done|].
    intros i p Hi Hp. destruct (call_run evs s) as [w st]. simpl.
    apply settled_in_settle_mono. by eapply Hpassed.
  - destruct (call_run evs s) as [w st]. simpl in *.
    destruct (call_resume_passed (store w) st) as (k0 & Hdrop0 & Hpassed0).
    exists (k + k0). split; [by rewrite Hdrop0, Hdrop, drop_drop|].
    intros i p Hi Hp. destruct (decide (i < k)) as [Hlt|Hge]; [by eapply Hpassed|].
    apply (Hpassed0 (i - k)); [lia|]. rewrite Hdrop, lookup_drop.
    by replace (k + (i - k)) with i by lia.
Qed.

(** The promises of the leading branches that resolve, and of the
    first branch that does not, are all awaited. *)
Lemma needs_todo_leading (input : I) (config : C) ps todo
    (pre post : list (string * js_value V E I C)) (vs : list V) :
  Forall2 (holds_promise_of input config ps) todo (pre ++ post) ->
  Forall2 (fun br v => branch_fate input config br.2 = Some (Fulfilled v)) pre vs ->
  forall i t, i <= length pre -> todo !! i = Some t -> needs_todo ps todo !! i = Some t.2.
Proof.
  revert todo vs. induction pre as [|br pre IH]; intros todo vs Hholds Hvs i t Hi Ht.
  - assert (i = 0) as -> by (simpl in Hi; lia).
    destruct todo as [|[name p] todo]; [done|]. simpl in *. by injection Ht as <-.
  - apply Forall2_cons_inv_l in Hvs as (v & vs' & Hv & Hvs & ->).
    simpl in Hholds. apply Forall2_cons_inv_r in Hholds as (t0 & todo' & Hh & Hholds & ->).
    destruct t0 as [name p]. destruct Hh as [_ (pr & Hp & Hf)]. simpl in *.
    destruct i as [|i]; [by injection Ht as <-|]. simpl.
    rewrite Hp. simpl. rewrite Hv in Hf. injection Hf as <-.
    apply (IH todo' vs'); [done | done | lia | done].
Qed.

(** X4.  [invoke] is pending as long as a promise it has yet to await is
    pending.  In a group with no branch named [__proto__], the promise
    of the branch at position [p] of the mapping is the promise [p].
    As long as a branch has not settled that
    comes before the first branch that does not resolve, or is that
    branch, the call has neither returned nor thrown, whatever has
    become of the later branches: a rejection is reported only after
    every earlier branch has settled, and a result only after every
    branch has. *)
Theorem invoke_settles_only_after_leading_branches
    arg g (input : I) (config : C) pre post (vs : list V) :
  RunnableParallel_new arg = inr g ->
  own_keys_ordered (runnables g) = true ->
  "__proto__" ∉ runnableNames g ->
  runnables g = pre ++ post ->
  Forall2 (fun br v => branch_fate input config br.2 = Some (Fulfilled v)) pre vs ->
  forall evs p,
    p <= length pre -> p < length (runnableNames g) ->
    is_awaiting (run_invoke g input config evs).2 = false ->
    Settle p ∈ evs.
Proof.
  intros Hnew Hord Hown Hsplit Hvs evs p Hp Hlt Hend.
  destruct (call_initial_plain arg g input config empty_world Hnew Hord Hown)
    as (w' & todo & Hcall & Hl).
  pose proof (RunnableParallel_new_inr _ _ Hnew) as (Hnames & _ & _).
  pose proof (launched_holds _ _ _ _ _ _ _ Hl) as [Hholds Hpending].
  destruct Hl as (_ & Hids & _ & Hlen & _). simpl in Hids, Hlen.
  assert (Hn : length (runnableNames g) = length (runnables g)).
  { rewrite Hnames. unfold Object_keys. by rewrite length_map. }
  assert (exists t, todo !! p = Some t /\ t.2 = p) as (t & Ht & Htp).
  { assert (todo.*2 !! p = Some p) as Hid.
    { rewrite Hids. apply lookup_seq. lia. }
    rewrite list_lookup_fmap in Hid. destruct (todo !! p) as [t|]; [|done].
    exists t. split; [done|]. simpl in Hid. by injection Hid. }
  rewrite Hsplit in Hholds.
  pose proof (needs_todo_leading input config (store w') todo pre post vs Hholds Hvs p t Hp Ht)
    as Hneeded.
  unfold run_invoke in Hend. rewrite Hcall in Hend.
  destruct (call_run_passed evs (w', call_loop todo [])) as (k & Hdrop & Hpassed).
  simpl in Hdrop, Hpassed. rewrite call_needs_loop in Hdrop, Hpassed.
  assert (call_needs (store (call_run evs (w', call_loop todo [])).1)
            (call_run evs (w', call_loop todo [])).2 = []) as Hnone.
  { by destruct (call_run evs (w', call_loop todo [])).2. }
  rewrite Hnone in Hdrop. symmetry in Hdrop. apply drop_nil_inv in Hdrop.
  assert (settled_in (store (call_run evs (w', call_loop todo [])).1) p = true) as Hsettled.
  { apply (Hpassed p); [|by rewrite Hneeded, Htp].
    apply lookup_lt_Some in Hneeded. lia. }
  destruct (call_run_settled_inv _ _ _ Hsettled) as [Hinit|Hin]; [|done].
  simpl in Hinit. rewrite <-Hsplit in Hholds.
  assert (runnables g !! p = None \/ is_Some (runnables g !! p)) as [Hnone'|[br Hbr]].
  { destruct (runnables g !! p); [right; by eexists | by left]. }
  - apply lookup_ge_None in Hnone'. lia.
  - destruct (Forall2_lookup_lr _ _ _ _ _ _ Hpending Ht Hbr) as [_ Hunsettled].
    rewrite Htp in Hunsettled. congruence.
Qed.

End WaitFacts.

(** ** A stream with a branch that rejects *)
Section StreamFailFacts.
Context {V E I C : Type}.
Variables (g : RunnableParallel V E I C) (input : I) (config : C).
Hypothesis Hvalid : Forall (fun e => not_a_runnable e.2 = false) (runnables g).
Hypothesis Hnames : runnableNames g = Object_keys (runnables g).
Hypothesis Hord : own_keys_ordered (runnables g) = true.
Hypothesis Hown : "__proto__" ∉ runnableNames g.
Implicit Types (w : world V E I C) (st : stream_state V E)
  (s : world V E I C * stream_state V E) (evs : list event).

Let n := length (runnableNames g).

Lemma awaited_all : awaited g = runnables g.
Proof. apply awaited_plain. by rewrite <-Hnames. Qed.

Lemma stream_live_run evs s :
  stream_live g s -> stream_sound g input config s ->
  let s' := fold_left (fun s ev => stream_step g input config ev s) evs s in
  stream_live g s' /\ stream_sound g input config s'.
Proof.
  revert s. induction evs as [|ev evs IH]; intros s Hl Hs; simpl; [done|].
  apply IH.
  - eapply stream_live_step; [done..|apply stream_step_trans].
  - eapply stream_sound_step; [done|apply stream_step_trans].
Qed.

Lemma stream_live_step_settled ev s q :
  stream_live g s ->
  settled_in (store s.1) q = true ->
  settled_in (store (stream_step g input config ev s).1) q = true.
Proof.
  intros Hl Hq. pose proof (live_phase _ _ Hl) as Lphase.
  destruct s as [w st], ev as [p|]; simpl in *.
  - destruct (store w !! p) as [pr|]; [|done]. destruct (is_settled pr); [done|].
    simpl. by apply settled_in_settle_mono.
  - destruct (phase_of st) as [|[name|]| | |]; try done.
    destruct (obj_get name (promises st) ≫= _) as [pr|]; [|done].
    destruct (fate pr); [|done]. by destruct (heap st !! results_ref st).
Qed.

Lemma stream_live_run_settles evs s q :
  stream_live g s -> stream_sound g input config s -> Settle q ∈ evs -> q < n ->
  settled_in (store (fold_left (fun s ev => stream_step g input config ev s) evs s).1) q = true.
Proof.
  revert s. induction evs as [|ev evs IH]; intros s Hl Hs Hin Hq;
    [by apply elem_of_nil in Hin|].
  assert (Hl' : stream_live g (stream_step g input config ev s)).
  { eapply stream_live_step; [done..|apply stream_step_trans]. }
  assert (Hs' : stream_sound g input config (stream_step g input config ev s)).
  { eapply stream_sound_step; [done|apply stream_step_trans]. }
  simpl. apply elem_of_cons in Hin as [<-|Hin]; [|by apply IH].
  assert (Hnow : settled_in (store (stream_step g input config (Settle q) s).1) q = true).
  { pose proof (live_store _ _ Hl) as Hlen. destruct s as [w st]. simpl in *.
    destruct (lookup_lt_is_Some_2 (store w) q) as [pr Hpr]; [by rewrite Hlen|].
    rewrite Hpr. destruct (is_settled pr) eqn:Hsett; simpl.
    - unfold settled_in. by rewrite Hpr.
    - apply settled_in_settle_eq. by rewrite Hlen. }
  clear IH. revert Hl' Hs' Hnow. generalize (stream_step g input config (Settle q) s).
  induction evs as [|ev evs IH]; intros s1 Hl1 Hs1 Hq1; simpl; [done|].
  apply IH.
  - eapply stream_live_step; [done..|apply stream_step_trans].
  - eapply stream_sound_step; [done|apply stream_step_trans].
  - by apply stream_live_step_settled.
Qed.

(** With every branch settled, each resumption takes the generator
    one step closer to its end, or ends it. *)
Lemma resumes_left_resume_le s :
  stream_live g s -> all_settled n (store s.1) ->
  resumes_left g (stream_step g input config Resume s).2 <= pred (resumes_left g s.2).
Proof.
  intros Hl Hall. destruct s as [w st].
  pose proof Hl as [Lstore Lreact Lres Lproms Lnd Lbound Lphase Lyl Llast Lleft Lown].
  simpl in *. unfold resumes_left at 2.
  destruct (phase_of st) as [|[name|]|name| |] eqn:Hph; simpl.
  - done.
  - destruct Lphase as (Hcount & Hlt & p & Hget & Hsett). rewrite Hget. simpl.
    assert (0 < length (promises st)) as Hsome.
    { destruct (promises st); [done | simpl; lia]. }
    unfold settled_in in Hsett. destruct (store w !! p) as [pr|] eqn:Hp; [|done].
    destruct (fate pr) as [v|e]; [|unfold resumes_left; simpl; lia].
    destruct Lres as [results ->]. unfold resumes_left. simpl. lia.
  - destruct Lphase as (Hcount & Hlt & Hunsettled).
    destruct (promises st) as [|[name p] proms] eqn:Hproms.
    { unfold resumes_left. rewrite Hph. simpl in Hcount. lia. }
    exfalso. apply Forall_cons in Hunsettled as [Hp _]. simpl in Hp.
    assert (runnableNames g !! p = Some name) as Hname.
    { apply Lproms. simpl. by rewrite String.eqb_refl. }
    rewrite Hall in Hp; [done|]. by eapply lookup_lt_Some.
  - destruct Lphase as [Hcount _]. unfold stream_loop. simpl.
    destruct (Nat.ltb_spec (completed st) (length (runnableNames g))); unfold resumes_left;
      simpl; lia.
  - unfold resumes_left. by rewrite Hph.
  - unfold resumes_left. by rewrite Hph.
Qed.

Lemma resumes_left_run_le evs s :
  stream_live g s -> stream_sound g input config s -> all_settled n (store s.1) ->
  resumes_left g (fold_left (fun s ev => stream_step g input config ev s) evs s).2
  <= resumes_left g s.2 - count_resumes evs.
Proof.
  revert s. induction evs as [|ev evs IH]; intros s Hl Hs Hall; simpl; [lia|].
  assert (Hl' : stream_live g (stream_step g input config ev s)).
  { eapply stream_live_step; [done..|apply stream_step_trans]. }
  assert (Hs' : stream_sound g input config (stream_step g input config ev s)).
  { eapply stream_sound_step; [done|apply stream_step_trans]. }
  assert (Hall' : all_settled n (store (stream_step g input config ev s).1)).
  { intros p Hp. apply stream_live_step_settled; [done | by apply Hall]. }
  specialize (IH _ Hl' Hs' Hall'). destruct ev as [p|].
  - by rewrite resumes_left_settle in IH.
  - pose proof (resumes_left_resume_le s Hl Hall). lia.
Qed.

(** The name of a branch that rejects is never taken out of
    [promises]. *)
Lemma rejecting_name_stays s name e :
  stream_live g s -> stream_sound g input config s ->
  name ∈ runnableNames g -> name_fate g input config name = Some (Rejected e) ->
  name ∈ Object_keys (promises s.2).
Proof.
  intros Hl Hs Hname Hrej.
  destruct (decide (name ∈ Object_keys (promises s.2))) as [|Hnin]; [done|].
  rewrite Hnames, <-awaited_all in Hname.
  destruct (live_last _ _ Hl name Hname) as (l & snap & v & Hlast & Hsnap & Hget);
    [by left|].
  destruct (live_results _ _ Hl) as [results Hresults].
  pose proof (sound_below _ _ _ _ Hs l snap results (last_Some_elem_of _ _ Hlast)
                Hsnap Hresults) as Hsub.
  destruct (sound_results _ _ _ _ Hs results Hresults) as [_ Hval].
  apply Hsub, Hval in Hget. congruence.
Qed.

(** The generator throws before it has yielded once per branch. *)
Lemma run_stream_failed_early evs err :
  phase_of (run_stream g input config evs).2 = Failed err ->
  length (yielded (run_stream g input config evs).2) < n.
Proof.
  revert err. induction evs as [|ev evs IH] using rev_ind; [done|].
  rewrite run_stream_app. cbn [fold_left].
  pose proof (run_stream_live g input config Hvalid Hnames Hord evs) as Hl.
  pose proof (stream_step_trans g input config ev (run_stream g input config evs)) as Ht.
  revert Hl Ht IH. cbv zeta. generalize (run_stream g input config evs).
  generalize (stream_step g input config ev).
  intros f s Hl Ht IH err.
  destruct Ht as [s | w st p pr Hp Hpend | w st w' proms Hph Hstart
                 | w st w' err' Hph Hstart | w st name p pr v results Hph Hget Hp Hf Hres
                 | w st name p pr e Hph Hget Hp Hf | w st name Hph]; simpl in *.
  - apply IH.
  - destruct (run_reaction_fields pr st) as (_ & _ & _ & Ry & Rph & _).
    destruct (decide_race_fields p (run_reaction pr st)) as (_ & _ & _ & _ & Dy & _).
    rewrite Dy, Ry. intros Hfail. apply (IH err). revert Hfail.
    unfold decide_race. rewrite Rph.
    destruct (phase_of st) as [|[?|]| | |] eqn:Hph; simpl; rewrite ?Rph, ?Hph; done.
  - unfold stream_loop. by destruct (Nat.ltb _ _).
  - destruct Hl as [[= -> ->]|Hl].
    + destruct (stream_start_ok g input config Hvalid Hnames Hord) as (w2 & new2 & Hstart2 & _).
      congruence.
    + pose proof (live_phase _ _ Hl) as Lphase. simpl in Lphase. by rewrite Hph in Lphase.
  - done.
  - intros _. destruct Hl as [[= -> ->]|Hl]; [done|].
    pose proof (live_phase _ _ Hl) as Lphase. simpl in Lphase. rewrite Hph in Lphase.
    pose proof (live_yielded _ _ Hl) as Lyl. simpl in Lyl. unfold n. lia.
  - unfold stream_loop. by destruct (Nat.ltb _ _).
Qed.

(** When a branch rejects, the generator never returns; on a fair
    schedule it throws. *)
Lemma stream_with_rejection name e :
  name ∈ runnableNames g -> name_fate g input config name = Some (Rejected e) ->
  (forall evs, phase_of (run_stream g input config evs).2 <> Finished)
  /\ (forall evs, fair_stream_schedule n evs ->
        exists err, phase_of (run_stream g input config evs).2 = Failed err).
Proof.
  intros Hname Hrej.
  assert (Hnever : forall evs, phase_of (run_stream g input config evs).2 <> Finished).
  { intros evs Hfin.
    destruct (run_stream_live g input config Hvalid Hnames Hord evs) as [Hinit|Hl].
    { by rewrite Hinit in Hfin. }
    pose proof (rejecting_name_stays _ name e Hl (run_stream_sound g input config evs)
                  Hname Hrej) as Hin.
    pose proof (live_phase _ _ Hl) as Lphase. rewrite Hfin in Lphase.
    destruct Lphase as [_ Hnil]. rewrite Hnil in Hin. by apply elem_of_nil in Hin. }
  split; [done|].
  intros evs Hfair. specialize (Hnever evs). revert Hnever.
  destruct Hfair as (evs0 & evs' & -> & Hstarted & evs1 & evs2 & -> & Hsettle & Hbudget).
  rewrite !run_stream_app.
  set (s0 := run_stream g input config evs0).
  assert (Hl0 : stream_live g s0).
  { destruct (run_stream_live g input config Hvalid Hnames Hord evs0) as [Hinit|Hl]; [|done].
    apply (run_stream_started g input config) in Hstarted. fold s0 in Hstarted, Hinit.
    by rewrite Hinit in Hstarted. }
  pose proof (run_stream_sound g input config evs0) as Hs0. fold s0 in Hs0.
  rewrite fold_left_app.
  destruct (stream_live_run evs1 s0 Hl0 Hs0) as [Hl1 Hs1].
  set (s1 := fold_left _ evs1 s0) in *.
  assert (Hall : all_settled n (store s1.1)).
  { intros p Hp. apply stream_live_run_settles; [done..| |done].
    rewrite Forall_forall in Hsettle. apply Hsettle. apply elem_of_seq. lia. }
  destruct (stream_live_run evs2 s1 Hl1 Hs1) as [Hl2 _].
  pose proof (resumes_left_run_le evs2 s1 Hl1 Hs1 Hall) as Hleft.
  pose proof (live_left _ _ Hl1) as Hbound. fold n in Hbound.
  pose proof (live_phase _ _ Hl2) as Lphase.
  set (s2 := fold_left _ evs2 s1) in *.
  unfold resumes_left in Hleft at 1.
  assert (Hawaited : length (awaited g) = n).
  { rewrite awaited_all. unfold n. rewrite Hnames. unfold Object_keys. by rewrite length_map. }
  destruct (phase_of s2.2) as [|winner|name'| |err] eqn:Hph; try done.
  - destruct Lphase as (_ & Hlt & _). fold n in Hlt. lia.
  - lia.
  - intros _. by exists err.
Qed.

End StreamFailFacts.

Section StreamFurtherClaims.
Context {V E I C : Type}.
Implicit Types (g : RunnableParallel V E I C) (evs : list event).



End StreamFurtherClaims.

(** ** How much a snapshot holds *)
Section StreamSizeFacts.
Context {V E I C : Type}.
Variables (g : RunnableParallel V E I C) (input : I) (config : C).
Hypothesis Hvalid : Forall (fun e => not_a_runnable e.2 = false) (runnables g).
Hypothesis Hnames : runnableNames g = Object_keys (runnables g).
Hypothesis Hord : own_keys_ordered (runnables g) = true.
Implicit Types (w : world V E I C) (st : stream_state V E)
  (s : world V E I C * stream_state V E) (evs : list event).

(** A step of a started stream hands out at most one snapshot, at a
    [yield]. *)
Lemma stream_trans_yields s s' :
  stream_trans g input config s s' -> phase_of s.2 <> NotStarted ->
  yielded s'.2 = yielded s.2
  \/ exists l name results,
       yielded s'.2 = yielded s.2 ++ [l] /\ phase_of s'.2 = Suspended name
       /\ heap s.2 !! results_ref s.2 = Some results
       /\ heap s'.2 !! l = Some (spread results).
Proof.
  intros Ht Hph.
  destruct Ht as [s | w st p pr Hp Hpend | w st w' proms Hph' Hstart
                 | w st w' err' Hph' Hstart | w st name p pr v results Hph' Hget Hp Hf Hres
                 | w st name p pr e Hph' Hget Hp Hf | w st name Hph']; simpl in *;
    try done; try (by left).
  - left. destruct (run_reaction_fields pr st) as (_ & _ & _ & Ry & _).
    destruct (decide_race_fields p (run_reaction pr st)) as (_ & _ & _ & _ & Dy & _).
    by rewrite Dy, Ry.
  - right. exists (length (heap st)), name, results. split; [done|]. split; [done|].
    split; [done|]. by rewrite lookup_app_r, Nat.sub_diag by lia.
  - left. by destruct (stream_loop_fields g (store w)
                         (with_promises (obj_delete name (promises st)) st))
      as (_ & _ & _ & _ & -> & _).
Qed.

(** At a [yield], the snapshot handed out has a result for every
    branch that has completed. *)
Lemma suspended_snapshot_size s name l snap :
  stream_live g s -> phase_of s.2 = Suspended name ->
  last (yielded s.2) = Some l -> heap s.2 !! l = Some snap ->
  completed s.2 <= length snap.
Proof.
  intros Hl Hph Hlast Hsnap.
  pose proof (live_phase _ _ Hl) as Lphase. rewrite Hph in Lphase.
  destruct Lphase as [Hcount Hin].
  assert (Hsub : Object_keys (awaited g)
                 ⊆+ filter (fun k => k <> name) (Object_keys (promises s.2))
                    ++ Object_keys snap).
  { apply NoDup_submseteq; [by apply keys_ordered_NoDup, own_keys_ordered_delete|].
    intros k Hk. apply elem_of_app.
    destruct (decide (k ∈ Object_keys (promises s.2) /\ k <> name)) as [[Hkin Hne]|Hno].
    - left. by apply list_elem_of_filter.
    - right. destruct (live_last _ _ Hl k Hk) as (l' & snap' & v & Hlast' & Hsnap' & Hget).
      + destruct (decide (k ∈ Object_keys (promises s.2))) as [Hkin|]; [|by left].
        right. destruct (decide (k = name)) as [->|Hne]; [done|]. by destruct Hno.
      + rewrite Hlast in Hlast'. injection Hlast' as <-. rewrite Hsnap in Hsnap'.
        injection Hsnap' as <-. apply obj_get_is_Some. by eexists. }
  apply submseteq_length in Hsub. rewrite length_app in Hsub.
  pose proof (length_filter_lt (fun k => k <> name) (Object_keys (promises s.2)) name Hin)
    as Hlt.
  unfold Object_keys in *. rewrite !length_map in *.
  assert (length (filter (fun k => k <> name) (map fst (promises s.2)))
          < length (promises s.2)) by (apply Hlt; by intros ?).
  lia.
Qed.

Lemma stream_first_step_yields_nothing ev :
  yielded (stream_step g input config ev (empty_world, not_started)).2 = [].
Proof.
  destruct ev as [p|]; simpl; [done|].
  destruct (stream_start_all _ _ _ _ _ _) as [w' [err|proms]]; simpl; [done|].
  by destruct (stream_loop_fields g (store w') (with_promises proms (stream_begin not_started)))
    as (_ & _ & _ & _ & -> & _).
Qed.

(** The snapshot handed out at the [i]-th [yield], counting from
    [0], has at least [i + 1] entries, under different keys. *)
Lemma run_stream_snapshot_sizes evs i l snap :
  let st := (run_stream g input config evs).2 in
  yielded st !! i = Some l -> heap st !! l = Some snap ->
  i < length snap /\ own_keys_ordered snap = true.
Proof.
  revert i l snap. induction evs as [|ev evs IH] using rev_ind; [done|].
  intros i l snap. rewrite run_stream_app. cbn [fold_left]. cbv zeta.
  pose proof (run_stream_live g input config Hvalid Hnames Hord (evs ++ [ev])) as Hl'.
  rewrite run_stream_app in Hl'. cbn [fold_left] in Hl'. cbv zeta in Hl'.
  pose proof (run_stream_live g input config Hvalid Hnames Hord evs) as Hl.
  pose proof (run_stream_sound g input config evs) as Hs.
  pose proof (stream_step_trans g input config ev (run_stream g input config evs)) as Ht.
  pose proof (stream_trans_stable g input config _ _ Hs Ht) as [_ Hheap].
  cbv zeta in IH, Hl. revert IH Hl Hl' Hs Ht Hheap.
  generalize (run_stream g input config evs). intros s IH Hl Hl' Hs Ht Hheap Hi Hsnap.
  destruct Hl as [->|Hl].
  { rewrite stream_first_step_yields_nothing in Hi. by rewrite lookup_nil in Hi. }
  assert (phase_of s.2 <> NotStarted) as Hph.
  { intros Hidle. pose proof (live_phase _ _ Hl) as Lphase. by rewrite Hidle in Lphase. }
  destruct (stream_trans_yields _ _ Ht Hph)
    as [Hsame|(l1 & name & results & Hadd & Hsusp & Hres & Hcopy)].
  - rewrite Hsame in Hi. apply (IH i l snap Hi).
    rewrite <-Hheap; [done|]. by eapply list_elem_of_lookup_2.
  - destruct (decide (i < length (yielded s.2))) as [Hold|Hnew].
    + rewrite Hadd, lookup_app_l in Hi by done. apply (IH i l snap Hi).
      rewrite <-Hheap; [done|]. by eapply list_elem_of_lookup_2.
    + destruct Hl' as [Hinit|Hl'].
      { rewrite Hinit in Hsusp. done. }
      assert (i = length (yielded s.2)) as ->.
      { apply lookup_lt_Some in Hi. rewrite Hadd, length_app in Hi. simpl in Hi. lia. }
      assert (l1 = l) as ->.
      { rewrite Hadd, lookup_app_r, Nat.sub_diag in Hi by lia. by injection Hi. }
      assert (last (yielded (stream_step g input config ev s).2) = Some l) as Hlast
        by (by rewrite Hadd, last_snoc).
      pose proof (suspended_snapshot_size _ name l snap Hl' Hsusp Hlast Hsnap) as Hsize.
      pose proof (live_yielded _ _ Hl') as Hyl. rewrite Hadd, length_app in Hyl.
      simpl in Hyl. split; [lia|].
      destruct (sound_results _ _ _ _ Hs results Hres) as [Hordered _].
      rewrite Hsnap in Hcopy. injection Hcopy as ->. by rewrite spread_ordered.
Qed.

End StreamSizeFacts.

(** ** The first branch to settle *)
Section StreamFirstFacts.
Context {V E I C : Type}.
Variables (g : RunnableParallel V E I C) (input : I) (config : C).
Hypothesis Hvalid : Forall (fun e => not_a_runnable e.2 = false) (runnables g).
Hypothesis Hnames : runnableNames g = Object_keys (runnables g).
Hypothesis Hord : own_keys_ordered (runnables g) = true.
Implicit Types (w : world V E I C) (st : stream_state V E)
  (s : world V E I C * stream_state V E) (evs : list event).

Lemma obj_set_empty {A} k (v : A) : obj_set k v [] = [(k, v)].
Proof. unfold obj_set. simpl. by destruct (array_index k). Qed.

Lemma obj_assign_empty {A} k (v : A) : k <> "__proto__" -> obj_assign k v [] = [(k, v)].
Proof.
  intros Hk. unfold obj_assign. destruct (String.eqb_spec k "__proto__"); [done|].
  apply obj_set_empty.
Qed.

(** In a [promises] object no promise of which is there twice, the
    entry of a promise is the one found for it. *)
Lemma find_promise (proms : list (string * nat)) name p :
  NoDup proms.*2 -> (name, p) ∈ proms ->
  find (fun e => Nat.eqb e.2 p) (Object_entries proms) = Some (name, p).
Proof.
  unfold Object_entries.
  induction proms as [|[name' q] proms IH]; intros Hnd Hin; simpl;
    [by apply elem_of_nil in Hin|].
  simpl in Hnd. apply NoDup_cons in Hnd as [Hq Hnd].
  apply elem_of_cons in Hin as [[= <- <-]|Hin]; [by rewrite Nat.eqb_refl|].
  destruct (Nat.eqb_spec q p) as [->|Hne]; [|by apply IH].
  destruct Hq. apply list_elem_of_fmap. by exists (name, p).
Qed.

Lemma elem_of_obj_delete {A} k k0 (v : A) o :
  (k, v) ∈ o -> k <> k0 -> (k, v) ∈ obj_delete k0 o.
Proof.
  intros Hin Hne. induction o as [|[k' v'] o IH]; simpl; [done|].
  apply elem_of_cons in Hin as [[= <- <-]|Hin].
  - destruct (String.eqb_spec k k0); [done|]. apply list_elem_of_here.
  - destruct (String.eqb k' k0); [by apply IH|]. apply list_elem_of_further. by apply IH.
Qed.

(** A stream that has thrown stays as it is. *)
Lemma stream_failed_stays evs s err :
  phase_of s.2 = Failed err ->
  let s' := fold_left (fun s ev => stream_step g input config ev s) evs s in
  phase_of s'.2 = Failed err /\ yielded s'.2 = yielded s.2.
Proof.
  revert s. induction evs as [|ev evs IH]; intros s Hph; simpl; [done|].
  assert (phase_of (stream_step g input config ev s).2 = Failed err
          /\ yielded (stream_step g input config ev s).2 = yielded s.2) as [Hph' Hyl'].
  { destruct s as [w st], ev as [p|]; simpl in *; [|by rewrite Hph].
    destruct (store w !! p) as [pr|]; [|done]. destruct (is_settled pr); [done|]. simpl.
    destruct (run_reaction_fields pr st) as (_ & _ & _ & Ry & Rph & _).
    destruct (decide_race_fields p (run_reaction pr st)) as (_ & _ & _ & _ & Dy & _).
    rewrite Dy, Ry. split; [|done]. unfold decide_race. rewrite Rph, Hph.
    by rewrite Rph. }
  destruct (IH _ Hph') as [IH1 IH2]. cbv zeta in IH1, IH2. split; [done|].
  by rewrite IH2.
Qed.

(** The consumer asks for a value, then the promise of the branch at
    position [p] is the first to settle, then the generator resumes. *)
Lemma stream_first_settled p name r :
  runnables g !! p = Some (name, r) -> name <> "__proto__" ->
  exists f,
    branch_fate input config r = Some f
    /\ let s := run_stream g input config [Resume; Settle p; Resume] in
       match f with
       | Fulfilled v =>
           yielded s.2 = [1] /\ heap s.2 !! 1 = Some [(name, v)]
       | Rejected e =>
           yielded s.2 = [] /\ phase_of s.2 = Failed (Reason e)
       end.
Proof.
  intros Hbr Hplain.
  destruct (stream_start_ok g input config Hvalid Hnames Hord) as (w' & new & Hstart & Hl).
  pose proof (launched_holds _ _ _ _ _ _ _ Hl) as [_ Hpending].
  destruct Hl as (Hk & Hids & _ & Hlen & _ & Hnew). simpl in Hids, Hlen, Hnew.
  destruct (Hnew p _ Hbr) as (f & Hf & Hp). simpl in Hf, Hp.
  exists f. split; [done|].
  assert (Hn : length (runnableNames g) = length (runnables g)).
  { rewrite Hnames. unfold Object_keys. by rewrite length_map. }
  assert (Hlt : p < length (runnables g)) by (by eapply lookup_lt_Some).
  assert (Hlennew : length new = length (runnables g)).
  { by rewrite <-(length_fmap snd new), Hids, length_seq. }
  assert (Hnd : NoDup (Object_keys new)).
  { unfold Object_keys. change (map fst new) with (new.*1). rewrite Hk.
    by apply keys_ordered_NoDup. }
  assert (Hentry : new !! p = Some (name, p)).
  { destruct (lookup_lt_is_Some_2 new p) as [[name' q] Ht]; [lia|].
    assert (new.*1 !! p = Some name') as H1 by (by rewrite list_lookup_fmap, Ht).
    assert (new.*2 !! p = Some q) as H2 by (by rewrite list_lookup_fmap, Ht).
    rewrite Hk in H1. unfold Object_keys in H1.
    change (map fst (runnables g)) with ((runnables g).*1) in H1.
    rewrite list_lookup_fmap, Hbr in H1. injection H1 as <-.
    rewrite Hids in H2. apply lookup_seq in H2 as [-> _]. done. }
  set (proms := obj_delete "__proto__" new) in *.
  assert (Hnd' : NoDup (Object_keys proms)) by (by apply NoDup_keys_delete).
  assert (Hget : obj_get name proms = Some p).
  { unfold proms. rewrite obj_get_delete.
    destruct (String.eqb_spec "__proto__" name); [done|].
    apply obj_get_NoDup; [done|]. by eapply list_elem_of_lookup_2. }
  assert (Hrace : race (store w') proms = None).
  { pose proof (race_spec (store w') proms Hnd') as Hspec.
    destruct (race (store w') proms) as [name'|]; [|done].
    destruct Hspec as (q & Hq & Hsettled). apply obj_get_Some_in in Hq.
    apply (sublist_subseteq _ _ (obj_delete_sublist "__proto__" new)) in Hq.
    apply list_elem_of_lookup in Hq as [i Hi].
    destruct (lookup_lt_is_Some_2 (runnables g) i) as [br Hbr'].
    { rewrite <-Hlennew. by eapply lookup_lt_Some. }
    destruct (Forall2_lookup_lr _ _ _ _ _ _ Hpending Hi Hbr') as [_ Hunsettled].
    simpl in Hunsettled. congruence. }
  assert (Hfind : find (fun e => Nat.eqb e.2 p) (Object_entries proms) = Some (name, p)).
  { apply find_promise.
    - apply (sublist_NoDup _ (new.*2)); [rewrite Hids; apply NoDup_seq|].
      apply fmap_sublist, obj_delete_sublist.
    - apply elem_of_obj_delete; [by eapply list_elem_of_lookup_2 | done]. }
  unfold run_stream. cbn [fold_left stream_step stream_resume phase_of not_started].
  rewrite Hstart. unfold stream_loop. cbn [completed with_promises stream_begin].
  assert (Nat.ltb 0 (length (runnableNames g)) = true) as -> by (apply Nat.ltb_lt; lia).
  cbn [promises with_promises with_phase stream_settle store]. rewrite Hrace, Hp.
  cbn [is_settled]. unfold run_reaction, decide_race.
  cbn [fate reaction]. destruct f as [v|e]; simpl; rewrite Hfind; simpl; rewrite Hget; simpl;
    rewrite list_lookup_alter_eq, Hp; simpl; [|done].
  rewrite obj_assign_empty by done. split; [done|]. unfold spread, Object_entries. simpl.
  by rewrite obj_set_empty.
Qed.

End StreamFirstFacts.

(** ** One failing call of a batch *)
Section BatchFailFacts.
Context {V E I C : Type}.

(** Once every promise has settled and the call on the [i]-th input
    has been resumed often enough, that call has ended, whatever has
    become of the others. *)
Lemma run_batch_call_ended arg (g : RunnableParallel V E I C) inputs (config : C)
    (evs1 evs2 : list batch_event) i :
  RunnableParallel_new arg = inr g ->
  own_keys_ordered (runnables g) = true ->
  Forall (fun p => BSettle p ∈ evs1) (seq 0 (length inputs * length (runnableNames g))) ->
  i < length inputs ->
  length (runnableNames g) <= count_bresumes i evs2 ->
  exists st, runs (run_batch g inputs config (evs1 ++ evs2)).2 !! i = Some st
             /\ is_awaiting st = false.
Proof.
  intros Hnew Hord Hsettle Hi Hres.
  pose proof (run_batch_facts arg g inputs config [] Hnew Hord) as (_ & _ & _ & Hlen0 & _).
  pose proof (run_batch_facts arg g inputs config evs1 Hnew Hord)
    as (_ & Htr1 & _ & Hlen1 & Hruns1).
  pose proof (run_batch_facts arg g inputs config (evs1 ++ evs2) Hnew Hord)
    as (_ & _ & _ & _ & Hruns2).
  pose proof (RunnableParallel_new_inr _ _ Hnew) as (Hnames & _ & _).
  assert (Hn : length (runnableNames g) = length (runnables g)).
  { rewrite Hnames. unfold Object_keys. by rewrite length_map. }
  cbv zeta in *. unfold run_batch in *. rewrite fold_left_app in *.
  set (s0 := batch g inputs config empty_world) in *.
  set (s1 := fold_left (fun s ev => batch_step ev s) evs1 s0) in *.
  assert (Hall : forall q, q < length (store s1.1) -> settled_in (store s1.1) q = true).
  { intros q Hq. apply batch_run_settles; [|simpl in *; lia].
    rewrite Forall_forall in Hsettle. apply Hsettle. apply elem_of_seq. lia. }
  destruct (lookup_lt_is_Some_2 (runs (fold_left (fun s ev => batch_step ev s) evs2 s1).2) i)
    as [st2 Hi2]; [lia|].
  exists st2. split; [done|].
  destruct (lookup_lt_is_Some_2 inputs i Hi) as [input Hinput].
  destruct (lookup_lt_is_Some_2 (runs s1.2) i) as [st1 Hi1]; [lia|].
  destruct (Htr1 i input st1 Hinput Hi1) as (todo & k & Hholds & _ & Hneeds).
  destruct (needs_todo_holds _ _ _ _ _ Hholds) as [Hvalid Hshort].
  pose proof (batch_run_needs_progress evs2 s1 i) as Hprog.
  unfold batch_needs in Hprog. rewrite Hi1, Hi2, Hneeds in Hprog.
  apply (call_needs_nil (store (fold_left (fun s ev => batch_step ev s) evs2 s1).1)).
  pose proof (awaited_length g Hnames) as Hle.
  rewrite Hprog.
  - apply drop_ge. rewrite length_drop. lia.
  - apply Forall_drop. eapply Forall_impl; [done|]. intros q Hq. by apply Hall.
Qed.

End BatchFailFacts.

Section FurtherClaims.


(** X8.  The constructor reports the first invalid property in enumeration
    order: when the values before [name] all pass the check and the
    value under [name] does not, the error message names [name],
    whatever comes after it and whatever the object inherits. *)
Theorem constructor_reports_first_invalid_property {V E I C}
    (pre post proto : list (string * js_value V E I C)) name r :
  Forall (fun e => not_a_runnable e.2 = false) pre ->
  not_a_runnable r = true ->
  RunnableParallel_new (JsObject (pre ++ (name, r) :: post) proto)
  = inl (Error ("Property '" +:+ name +:+ "' must be a Runnable with an invoke() method")).
Proof.
  intros Hpre Hr. unfold RunnableParallel_new. simpl. unfold Object_entries.
  assert (find (fun e : string * js_value V E I C => not_a_runnable e.2)
               (pre ++ (name, r) :: post) = Some (name, r)) as ->; [|done].
  induction Hpre as [|e pre He _ IH]; simpl.
  - by rewrite Hr.
  - by rewrite He.
Qed.

(** X9.  A group of LabelRunnables, as [main] builds one, none of them
    under the name [__proto__]: the constructor accepts it, and for
    every input [invoke] resolves, on every fair schedule, to the map
    from each name to [`${label}: ${input}`], in the order of the
    options; it never throws. *)
Theorem labelled_group_resolves (specs : list (string * string * Z)) (input : string)
    (config : nat) :
  own_keys_ordered (Tutorial.labelled specs) = true ->
  "__proto__" ∉ (fun spec => spec.1.1) <$> specs ->
  exists g,
    RunnableParallel_new (JsObject (Tutorial.labelled specs) []) = inr g
    /\ getRunnames g = (fun spec => spec.1.1) <$> specs
    /\ (forall evs,
          fair_schedule (seq 0 (length specs)) (length specs) evs ->
          (run_invoke g input config evs).2
          = Returned ((fun spec => (spec.1.1, Tutorial.label_of input spec)) <$> specs))
    /\ (forall evs err, (run_invoke g input config evs).2 <> Thrown err).
Proof.
  intros Hord Hown.
  set (g := {| runnables := Tutorial.labelled specs;
               runnableNames := Object_keys (Tutorial.labelled specs) |}).
  assert (Hnew : RunnableParallel_new (JsObject (Tutorial.labelled specs) []) = inr g).
  { unfold RunnableParallel_new. simpl. unfold Object_entries.
    assert (find (fun e : string * js_value string string string nat => not_a_runnable e.2)
                 (Tutorial.labelled specs) = None) as ->; [|done].
    clear Hown g. induction specs as [|spec specs IH]; simpl; [done|]. apply IH.
    revert Hord. unfold own_keys_ordered. simpl. by intros [_ ?]%andb_true_iff. }
  assert (Hvs : Forall2 (fun e v => branch_fate input config e.2 = Some (Fulfilled v))
                        (runnables g) (Tutorial.label_of input <$> specs)).
  { clear. simpl. induction specs as [|spec specs IH]; simpl; by constructor. }
  assert (Hkeys : Object_keys (Tutorial.labelled specs) = (fun spec => spec.1.1) <$> specs).
  { clear. induction specs as [|spec specs IH]; [done|].
    change (Tutorial.labelled (spec :: specs))
      with ((spec.1.1, Tutorial.LabelRunnable spec.1.2 spec.2) :: Tutorial.labelled specs).
    cbn [Object_keys map fmap list_fmap fst]. f_equal. apply IH. }
  assert (Hzip : zip (runnableNames g) (Tutorial.label_of input <$> specs)
                 = (fun spec => (spec.1.1, Tutorial.label_of input spec)) <$> specs).
  { change (runnableNames g) with (Object_keys (Tutorial.labelled specs)). clear.
    induction specs as [|spec specs IH]; [done|].
    change (Tutorial.labelled (spec :: specs))
      with ((spec.1.1, Tutorial.LabelRunnable spec.1.2 spec.2) :: Tutorial.labelled specs).
    cbn [Object_keys map fmap list_fmap zip_with fst]. f_equal. apply IH. }
  assert (Hlen : length (runnableNames g) = length specs).
  { change (runnableNames g) with (Object_keys (Tutorial.labelled specs)).
    by rewrite Hkeys, length_fmap. }
  assert (Hown' : "__proto__" ∉ runnableNames g).
  { change (runnableNames g) with (Object_keys (Tutorial.labelled specs)). by rewrite Hkeys. }
  destruct (run_invoke_fulfilled _ g input config _ Hnew Hord Hown' Hvs) as [Hfair Hended].
  exists g. split; [done|]. split; [done|]. split.
  - intros evs Hevs. rewrite <-Hzip. apply Hfair. by rewrite Hlen.
  - intros evs err Hthrown. specialize (Hended evs). rewrite Hthrown in Hended.
    by specialize (Hended eq_refl).
Qed.


(** X11.  [batch] is fail-fast.  When some branch of a group with no
    branch named [__proto__] rejects on the [i]-th input, the batch
    is rejected as soon as the promises have settled
    and the call on that input has been resumed often enough: no other
    call has to end, or even to be resumed. *)
Theorem batch_rejects_without_waiting_for_other_calls {V E I C} arg
    (g : RunnableParallel V E I C) (inputs : list I) (config : C) i input
    (evs1 evs2 : list batch_event) :
  RunnableParallel_new arg = inr g ->
  own_keys_ordered (runnables g) = true ->
  "__proto__" ∉ runnableNames g ->
  inputs !! i = Some input ->
  Exists (fun br => exists e : E, branch_fate input config br.2 = Some (Rejected e))
         (runnables g) ->
  Forall (fun p => BSettle p ∈ evs1) (seq 0 (length inputs * length (runnableNames g))) ->
  length (runnableNames g) <= count_bresumes i evs2 ->
  exists err, joined (run_batch g inputs config (evs1 ++ evs2)).2 = AllRejected err.
Proof.
  intros Hnew Hord Hown Hinput Hex Hsettle Hres.
  pose proof (RunnableParallel_new_inr _ _ Hnew) as (Hnames & _ & _).
  destruct (run_batch_call_ended arg g inputs config evs1 evs2 i Hnew Hord Hsettle)
    as (st & Hi & Hend); [by eapply lookup_lt_Some | done |].
  destruct (run_batch_joined arg g inputs config (evs1 ++ evs2) Hnew Hord)
    as (Hruns & _ & Hthrown & _).
  pose proof (Hruns i input st Hinput Hi Hend) as Hst.
  destruct (invoke_ends arg g input config Hnew Hord) as (final & Hfinal & Hshape).
  pose proof (invoke_ends_as_inj _ _ _ _ _ Hfinal Hst) as ->.
  destruct st as [cur rest results|results|err]; [done| |by eapply Hthrown].
  rewrite awaited_plain in Hshape by (by rewrite <-Hnames).
  apply Exists_exists in Hex as (br & [j Hj]%list_elem_of_lookup & e & Hrejects).
  destruct (Forall2_lookup_l _ _ _ _ _ Hshape Hj) as (kv & _ & _ & Hkv). congruence.
Qed.


End FurtherClaims.

(** The accessors of the tutorial's group. *)
Lemma accessors_agree_with_constructor_witness :
  getRunnames Tutorial.parallel = ["summary"; "keywords"; "sentiment"].
Proof.
  exact (proj1 (accessors_agree_with_constructor Tutorial.options [] Tutorial.parallel
                  eq_refl)).
Defined.

(** [new RunnableParallel()] *)
Lemma empty_group_settles_at_once_witness :
  exists g,
    RunnableParallel_new (@JsUndefined string string string nat) = inr g
    /\ getRunnames g = [].
Proof.
  destruct (empty_group_settles_at_once (@JsUndefined string string string nat)
              (or_introl eq_refl)) as (g & Hnew & Hnone & _).
  exists g. split; [exact Hnew | exact Hnone].
Defined.

(** The group whose second and third branches fail: when its call has
    thrown, the promise of the second branch has settled. *)
Lemma invoke_settles_only_after_leading_branches_witness :
  is_awaiting (run_invoke Tutorial.both_fail Tutorial.input 0
                 [Settle 2; Settle 0; Resume; Settle 1; Resume; Resume]).2 = false
  /\ Settle 1 ∈ [Settle 2; Settle 0; Resume; Settle 1; Resume; Resume].
Proof.
  split; [reflexivity|].
  apply (invoke_settles_only_after_leading_branches
           (JsObject (runnables Tutorial.both_fail) []) Tutorial.both_fail Tutorial.input 0
           [("ok", Tutorial.LabelRunnable "ok" 0)]
           [("slow", Tutorial.FailingRunnable "slow failure");
            ("fast", Tutorial.FailingRunnable "fast failure")]
           ["ok: Local LLMs enable privacy-first AI."]);
    [reflexivity | reflexivity | apply no_proto_name; reflexivity | reflexivity
     | repeat constructor | simpl; lia | simpl; lia | reflexivity].
Defined.




(** A string in the place of a Runnable. *)
Lemma constructor_reports_first_invalid_property_witness :
  RunnableParallel_new
    (JsObject [("summary", Tutorial.LabelRunnable "summary" 400);
               ("keywords", JsString "keywords");
               ("sentiment", JsNull)] [])
  = inl (Error "Property 'keywords' must be a Runnable with an invoke() method").
Proof.
  apply (constructor_reports_first_invalid_property
           [("summary", Tutorial.LabelRunnable "summary" 400)] [("sentiment", JsNull)] []
           "keywords" (JsString "keywords"));
    [repeat constructor | reflexivity].
Defined.

(** The group of [main]. *)
Lemma labelled_group_resolves_witness :
  exists g,
    RunnableParallel_new
      (JsObject (Tutorial.labelled [("summary", "summary", 400%Z);
                                    ("keywords", "keywords", 200%Z);
                                    ("sentiment", "sentiment", 300%Z)]) []) = inr g
    /\ getRunnames g = ["summary"; "keywords"; "sentiment"].
Proof.
  destruct (labelled_group_resolves [("summary", "summary", 400%Z);
                                     ("keywords", "keywords", 200%Z);
                                     ("sentiment", "sentiment", 300%Z)]
              Tutorial.input 0 eq_refl
              (no_proto_name ["summary"; "keywords"; "sentiment"] eq_refl))
    as (g & Hnew & Hnames & _).
  exists g. split; [exact Hnew | exact Hnames].
Defined.



(** A batch of the group whose second branch fails: the call on the
    second input ends, the call on the first one is never resumed. *)
Lemma batch_rejects_without_waiting_for_other_calls_witness :
  exists err,
    joined (run_batch Tutorial.second_fails Tutorial.batch_inputs 0
              ([BSettle 0; BSettle 1; BSettle 2; BSettle 3] ++ [BResume 1; BResume 1])).2
    = AllRejected err.
Proof.
  apply (batch_rejects_without_waiting_for_other_calls
           (JsObject (runnables Tutorial.second_fails) []) Tutorial.second_fails
           Tutorial.batch_inputs 0 1 "Agents compose small tools.");
    [reflexivity | reflexivity | apply no_proto_name; reflexivity | reflexivity |
    | repeat constructor | simpl; lia].
  apply Exists_cons_tl, Exists_cons_hd. by exists "boom".
Defined.

(** * The logger *)
Section LoggerClaims.
Variable inherited : string -> bool.

(** X12.  Which messages a logger writes, by the level it was given.  The
    level is taken for [info] unless it is [warn] or [debug]: the
    number of [error] is [0], which [||] replaces by [2], so a logger
    made with the level [error] still writes warnings and
    informations; an unknown name does the same.  A level that names a
    member of [Object.prototype] silences the logger altogether.
    [error] and [warn] write to [console.error] and [console.warn],
    [info] and [debug] to [console.log]. *)
Theorem logger_writes_by_level (o : Logger.options) (time message : string)
    (data : option string) :
  let lg := Logger.new inherited o in
  let l := Logger.level lg in
  let silent := match obj_get l Logger.levels with
                | Some _ => false
                | None => inherited l
                end in
  Logger.error inherited lg time message data
  = (if silent then []
     else [(Logger.console_error, Logger._format lg time "error" message data)])
  /\ Logger.warn inherited lg time message data
     = (if silent then []
        else [(Logger.console_warn, Logger._format lg time "warn" message data)])
  /\ Logger.info inherited lg time message data
     = (if silent || String.eqb l "warn" then []
        else [(Logger.console_log, Logger._format lg time "info" message data)])
  /\ Logger.debug inherited lg time message data
     = (if String.eqb l "debug"
        then [(Logger.console_log, Logger._format lg time "debug" message data)]
        else [])
  /\ (l = "error" ->
      Logger.warn inherited lg time message data <> []
      /\ Logger.info inherited lg time message data <> []).
Proof.
  intros lg l silent.
  unfold Logger.error, Logger.warn, Logger.info, Logger.debug.
  change (Logger.currentLevel lg) with (Logger.or_2 (Logger.levels_get inherited l)).
  unfold silent, Logger.levels_get, Logger.levels. cbn [obj_get].
  rewrite (String.eqb_sym l "warn"), (String.eqb_sym l "debug").
  destruct (String.eqb_spec "error" l) as [He|He].
  { rewrite <-He. simpl. repeat split; done. }
  destruct (String.eqb_spec "warn" l) as [Hw|Hw].
  { rewrite <-Hw. simpl. repeat split; done. }
  destruct (String.eqb_spec "info" l) as [Hi|Hi].
  { rewrite <-Hi. simpl. repeat split; done. }
  destruct (String.eqb_spec "debug" l) as [Hd|Hd].
  { rewrite <-Hd. simpl. repeat split; done. }
  destruct (inherited l); cbn -[String.eqb]; repeat split; try done;
    intros Hl; by destruct He.
Qed.

End LoggerClaims.

(** * The token counter *)
Section TokenCounterFacts.
Context {U : Type}.
Implicit Types (tc : TokenCounter.TokenCounter U) (text estimate result : list U).

Lemma ceil_div_bounds n r :
  (0 < r)%Z ->
  (r * (TokenCounter.ceil_div n r - 1) < n <= r * TokenCounter.ceil_div n r)%Z.
Proof.
  intros Hr. unfold TokenCounter.ceil_div.
  pose proof (Z.div_mod (- n) r) as Hdiv.
  pose proof (Z.mod_pos_bound (- n) r Hr) as Hmod. lia.
Qed.

Lemma ceil_div_le n r m : (0 < r)%Z -> (TokenCounter.ceil_div n r <= m <-> n <= m * r)%Z.
Proof. intros Hr. pose proof (ceil_div_bounds n r Hr). nia. Qed.

(** Without a tokenizer, or when it throws, a text that is not empty
    counts for its length divided by the ratio, rounded up. *)
Lemma count_estimate tc text :
  text <> [] ->
  (TokenCounter.tokenizer tc = None
   \/ exists encode, TokenCounter.tokenizer tc = Some encode /\ encode text = None) ->
  TokenCounter.count tc text
  = TokenCounter.ceil_div (Z.of_nat (length text)) (TokenCounter.estimationRatio tc).
Proof.
  intros Hne Hfails. unfold TokenCounter.count.
  destruct text as [|u text]; [done|].
  by destruct Hfails as [->|(encode & -> & ->)].
Qed.

(** The loop of [truncateToTokens] ends within as many iterations as
    the text is long, on a prefix of the text that fits or is empty. *)
Lemma truncate_loop_spec tc maxTokens fuel estimate :
  length estimate <= fuel ->
  exists result,
    TokenCounter.truncate_loop tc maxTokens fuel estimate = Some result
    /\ result `prefix_of` estimate
    /\ ((TokenCounter.count tc result <= maxTokens)%Z \/ result = [])
    /\ ((TokenCounter.count tc estimate <= maxTokens)%Z -> result = estimate).
Proof.
  revert estimate. induction fuel as [|fuel IH]; intros estimate Hfuel.
  - destruct estimate; [|simpl in Hfuel; lia]. exists []. simpl.
    rewrite andb_false_r. repeat split; by try right.
  - cbn [TokenCounter.truncate_loop].
    destruct ((maxTokens <? TokenCounter.count tc estimate)%Z
              && Nat.ltb 0 (length estimate)) eqn:Hcond.
    + apply andb_true_iff in Hcond as [Hover%Z.ltb_lt Hlen%Nat.ltb_lt].
      destruct (IH (take (length estimate - TokenCounter.chunkSize estimate) estimate))
        as (result & -> & Hprefix & Hfits & _).
      { rewrite length_take. unfold TokenCounter.chunkSize. lia. }
      exists result. split; [done|]. split; [|split; [done|lia]].
      etrans; [done|]. eexists. symmetry. apply take_drop.
    + exists estimate. split; [done|]. split; [done|]. split; [|done].
      apply andb_false_iff in Hcond as [Hfit%Z.ltb_ge|Hempty%Nat.ltb_ge]; [by left|].
      right. apply nil_length_inv. lia.
Qed.

(** With the estimate, a text over the budget loses at most a tenth
    of the budget. *)
Lemma truncate_loop_keeps tc maxTokens fuel estimate result :
  TokenCounter.tokenizer tc = None ->
  (0 < TokenCounter.estimationRatio tc)%Z -> (0 <= maxTokens)%Z ->
  length estimate <= fuel ->
  TokenCounter.truncate_loop tc maxTokens fuel estimate = Some result ->
  (maxTokens < TokenCounter.count tc estimate)%Z ->
  (Z.of_nat (length result) <= maxTokens * TokenCounter.estimationRatio tc
   /\ 9 * maxTokens * TokenCounter.estimationRatio tc <= 10 * Z.of_nat (length result))%Z.
Proof.
  intros Htok Hr Hmax. revert estimate.
  assert (Hcount : forall text, text <> [] ->
            TokenCounter.count tc text
            = TokenCounter.ceil_div (Z.of_nat (length text)) (TokenCounter.estimationRatio tc)).
  { intros text Hne. apply count_estimate; [done | by left]. }
  induction fuel as [|fuel IH]; intros estimate Hfuel Hloop Hover.
  - destruct estimate; [simpl in Hover; lia | simpl in Hfuel; lia].
  - assert (Hne : estimate <> []) by (intros ->; simpl in Hover; lia).
    assert (Hlen : 0 < length estimate) by (destruct estimate; [done | simpl; lia]).
    assert (Hlong : (maxTokens * TokenCounter.estimationRatio tc
                     < Z.of_nat (length estimate))%Z).
    { rewrite (Hcount _ Hne) in Hover.
      pose proof (ceil_div_le (Z.of_nat (length estimate)) (TokenCounter.estimationRatio tc)
                    maxTokens Hr). lia. }
    cbn [TokenCounter.truncate_loop] in Hloop.
    assert ((maxTokens <? TokenCounter.count tc estimate)%Z && Nat.ltb 0 (length estimate)
            = true) as Hcond.
    { apply andb_true_iff. split; [by apply Z.ltb_lt | by apply Nat.ltb_lt]. }
    rewrite Hcond in Hloop.
    set (estimate' := take (length estimate - TokenCounter.chunkSize estimate) estimate) in *.
    assert (Hlen' : length estimate'
                    = length estimate - Nat.max 1 (length estimate / 10)).
    { unfold estimate'. rewrite length_take. unfold TokenCounter.chunkSize. lia. }
    assert (Hfuel' : length estimate' <= fuel) by lia.
    destruct (Z.lt_ge_cases maxTokens (TokenCounter.count tc estimate')) as [Hover'|Hfit].
    { by apply (IH estimate'). }
    destruct (truncate_loop_spec tc maxTokens fuel estimate' Hfuel')
      as (result' & Hloop' & _ & _ & Hsame).
    rewrite Hloop in Hloop'. injection Hloop' as <-. rewrite (Hsame Hfit). split.
    + destruct (decide (estimate' = [])) as [->|Hne']; [simpl; lia|].
      rewrite (Hcount _ Hne') in Hfit.
      by apply (ceil_div_le _ _ _ Hr).
    + rewrite Hlen'.
      pose proof (Nat.div_mod_eq (length estimate) 10) as Hdiv.
      pose proof (Nat.mod_upper_bound (length estimate) 10). lia.
Qed.

End TokenCounterFacts.

Section TokenCounterClaims.
Context {U : Type}.
Implicit Types (tc : TokenCounter.TokenCounter U) (text result : list U).



(** X15.  With the estimate (no tokenizer, a ratio that is a positive
    integer), truncating a
    text that is over a budget of [maxTokens >= 0] tokens leaves at
    most [maxTokens * ratio] code units and at least nine tenths of
    that: cutting a tenth at a time wastes less than a tenth of the
    budget. *)
Theorem truncateToTokens_keeps_most_of_budget tc text (maxTokens : Z) result :
  TokenCounter.tokenizer tc = None ->
  (0 < TokenCounter.estimationRatio tc)%Z -> (0 <= maxTokens)%Z ->
  (maxTokens < TokenCounter.count tc text)%Z ->
  TokenCounter.truncateToTokens tc text maxTokens = Some result ->
  (Z.of_nat (length result) <= maxTokens * TokenCounter.estimationRatio tc
   /\ 9 * maxTokens * TokenCounter.estimationRatio tc <= 10 * Z.of_nat (length result))%Z.
Proof.
  intros Htok Hr Hmax Hover. unfold TokenCounter.truncateToTokens.
  destruct text as [|u text]; [simpl in Hover; lia|].
  intros Hloop. by eapply truncate_loop_keeps.
Qed.

(** X16.  The report of [isWithinLimit] is consistent: the count is the one
    of [count]; the text is within the limit exactly when count and
    buffer stay strictly below the context size, which is exactly when
    some tokens remain, so a text that fills the context to the last
    token is reported as over the limit; the remaining tokens are
    never negative, and within the limit they are what is left of
    the context. *)
Theorem isWithinLimit_report_is_consistent tc text (bufferTokens : option Z) :
  let report := TokenCounter.isWithinLimit tc text bufferTokens in
  let buffer := default 512%Z bufferTokens in
  TokenCounter.tokenCount report = TokenCounter.count tc text
  /\ (TokenCounter.isWithinLimit_ report = true
      <-> (TokenCounter.count tc text + buffer < TokenCounter.contextSize tc)%Z)
  /\ (TokenCounter.isWithinLimit_ report = true
      <-> (0 < TokenCounter.remainingTokens report)%Z)
  /\ (0 <= TokenCounter.remainingTokens report)%Z
  /\ (TokenCounter.isWithinLimit_ report = true ->
      (TokenCounter.tokenCount report + buffer + TokenCounter.remainingTokens report
       = TokenCounter.contextSize tc)%Z).
Proof.
  intros report buffer. unfold report, TokenCounter.isWithinLimit. simpl. fold buffer.
  rewrite Z.ltb_lt. repeat split; lia.
Qed.

(** X17.  [countMessages] charges each message its content and four tokens
    more: nothing for an argument that is not an array or for the
    empty array, and the sum of the charges of two lists for their
    concatenation. *)
Theorem countMessages_adds_up tc (message : option (list U))
    (messages1 messages2 : list (option (list U))) :
  TokenCounter.countMessages tc None = 0%Z
  /\ TokenCounter.countMessages tc (Some []) = 0%Z
  /\ TokenCounter.countMessages tc (Some [message])
     = (TokenCounter.count tc (default [] message) + 4)%Z
  /\ TokenCounter.countMessages tc (Some (messages1 ++ messages2))
     = (TokenCounter.countMessages tc (Some messages1)
        + TokenCounter.countMessages tc (Some messages2))%Z.
Proof.
  split; [done|]. split; [done|]. split; [simpl; lia|].
  unfold TokenCounter.countMessages. rewrite fold_left_app.
  generalize (fold_left (fun total message => (total + TokenCounter.count tc (default [] message) + 4)%Z)
                messages1 0%Z).
  assert (forall msgs z,
            fold_left (fun total message =>
                         (total + TokenCounter.count tc (default [] message) + 4)%Z) msgs z
            = (z + fold_left (fun total message =>
                                (total + TokenCounter.count tc (default [] message) + 4)%Z)
                     msgs 0)%Z) as Hshift.
  { induction msgs as [|m msgs IH]; intros z; simpl; [lia|].
    rewrite IH, (IH (0 + _ + 4)%Z). lia. }
  intros z. apply Hshift.
Qed.

End TokenCounterClaims.

(** * The retry manager *)
Section RetryFacts.
Context {num : Type} {number : RetryManager.Number num} {A Err : Type}.
Variable message : Err -> string.
Implicit Types (rm : RetryManager.RetryManager num Err) (fn : nat -> A + Err).

(** From attempt [a] on, up to the first attempt [k] that succeeds or
    fails for good. *)
Lemma attempts_decisive rm fn left a k delay lastError :
  (Z.of_nat k <= RetryManager.maxRetries rm)%Z ->
  a <= k -> k < a + left ->
  delay = RetryManager.backoff rm a ->
  (forall j, a <= j < k ->
     exists e, fn j = inr e /\ RetryManager.shouldRetry rm e = true) ->
  ((exists v, fn k = inl v)
   \/ exists e, fn k = inr e /\ RetryManager.shouldRetry rm e = false) ->
  let run := RetryManager.attempts message rm fn left a delay lastError in
  RetryManager.calls_made run.1 = seq a (S k - a)
  /\ RetryManager.sleeps_made run.1 = RetryManager.backoff rm <$> seq a (k - a)
  /\ run.2 = match fn k with
             | inl v => inl v
             | inr e => inr (RetryManager.Rethrown e)
             end.
Proof.
  revert a delay lastError.
  induction left as [|left IH]; intros a delay lastError Hk Ha Hleft Hdelay Hfail Hdec; [lia|].
  cbn [RetryManager.attempts].
  destruct (decide (a = k)) as [->|Hne].
  - replace (S k - k) with 1 by lia. rewrite Nat.sub_diag.
    destruct Hdec as [[v ->]|(e & -> & ->)]; done.
  - destruct (Hfail a) as (e & -> & ->); [lia|]. cbn [negb].
    assert ((Z.of_nat a <? RetryManager.maxRetries rm)%Z = true) as -> by (apply Z.ltb_lt; lia).
    destruct (IH (S a) (RetryManager.Math_min
                          (RetryManager.mul delay (RetryManager.backoffMultiplier rm))
                          (RetryManager.maxDelay rm)) (Some e))
      as (Hcalls & Hsleeps & Hend); [lia | lia | lia | by rewrite Hdelay | | done |].
    { intros j Hj. apply Hfail. lia. }
    cbv zeta in *. cbn [fst snd].
    split; [|split; [|done]].
    + unfold RetryManager.calls_made in *. cbn [omap list_omap]. rewrite Hcalls.
      by replace (S k - a) with (S (S k - S a)) by lia.
    + unfold RetryManager.sleeps_made in *. cbn [omap list_omap]. rewrite Hsleeps, Hdelay.
      by replace (k - a) with (S (k - S a)) by lia.
Qed.

(** From attempt [a] on, when every attempt fails and may be retried. *)
Lemma attempts_exhausted rm fn left a delay lastError e_last :
  a + left = S (Z.to_nat (RetryManager.maxRetries rm)) ->
  (0 <= RetryManager.maxRetries rm)%Z -> 0 < left ->
  delay = RetryManager.backoff rm a ->
  (forall j, a <= j < a + left ->
     exists e, fn j = inr e /\ RetryManager.shouldRetry rm e = true) ->
  fn (Z.to_nat (RetryManager.maxRetries rm)) = inr e_last ->
  let run := RetryManager.attempts message rm fn left a delay lastError in
  RetryManager.calls_made run.1 = seq a left
  /\ RetryManager.sleeps_made run.1 = RetryManager.backoff rm <$> seq a (left - 1)
  /\ run.2 = inr (RetryManager.failed_after message rm (Some e_last)).
Proof.
  revert a delay lastError.
  induction left as [|left IH]; intros a delay lastError Hsum Hmax Hpos Hdelay Hfail Hlast;
    [lia|].
  cbn [RetryManager.attempts].
  destruct (Hfail a) as (e & He & Hretry); [lia|]. rewrite He, Hretry. cbn [negb].
  destruct left as [|left].
  - assert (a = Z.to_nat (RetryManager.maxRetries rm)) as Ha by lia.
    assert ((Z.of_nat a <? RetryManager.maxRetries rm)%Z = false) as ->
      by (apply Z.ltb_ge; lia).
    rewrite <-Ha, He in Hlast. injection Hlast as <-. done.
  - assert ((Z.of_nat a <? RetryManager.maxRetries rm)%Z = true) as -> by (apply Z.ltb_lt; lia).
    destruct (IH (S a) (RetryManager.Math_min
                          (RetryManager.mul delay (RetryManager.backoffMultiplier rm))
                          (RetryManager.maxDelay rm)) (Some e))
      as (Hcalls & Hsleeps & Hend); [lia | done | lia | by rewrite Hdelay | | done |].
    { intros j Hj. apply Hfail. lia. }
    cbv zeta in *. cbn [fst snd].
    split; [|split; [|done]].
    + unfold RetryManager.calls_made in *. cbn [omap list_omap]. by rewrite Hcalls.
    + unfold RetryManager.sleeps_made in *. cbn [omap list_omap]. rewrite Hsleeps, Hdelay.
      by replace (S (S left) - 1) with (S (S left - 1)) by lia.
Qed.

End RetryFacts.

Section RetryClaims.
Context {num : Type} {number : RetryManager.Number num} {A Err : Type}.
Variable message : Err -> string.
Implicit Types (rm : RetryManager.RetryManager num Err) (fn : nat -> A + Err).



(** X20.  The delays are an exponential backoff with a cap.  For
    integer settings with a multiplier of at least [1],
    [0 <= initialDelay <= maxDelay] and [maxDelay * multiplier] at
    most [2 ^ 53], every product the loop computes is an integer of
    at most [2 ^ 53], the delay after attempt [k] is
    [initialDelay * multiplier ^ k] or [maxDelay], whichever is
    smaller, and the delays never decrease. *)
Theorem backoff_is_capped_exponential (rm : RetryManager.RetryManager Z Err) (k : nat) :
  (1 <= RetryManager.backoffMultiplier rm)%Z ->
  (0 <= RetryManager.initialDelay rm <= RetryManager.maxDelay rm)%Z ->
  (RetryManager.maxDelay rm * RetryManager.backoffMultiplier rm <= 2 ^ 53)%Z ->
  (0 <= RetryManager.backoff rm k * RetryManager.backoffMultiplier rm <= 2 ^ 53)%Z
  /\ RetryManager.backoff rm k
     = Z.min (RetryManager.initialDelay rm * RetryManager.backoffMultiplier rm ^ Z.of_nat k)
             (RetryManager.maxDelay rm)
  /\ (RetryManager.backoff rm k <= RetryManager.backoff rm (S k))%Z.
Proof.
  intros Hmult Hdelay Hsafe.
  assert (Hstep : forall j,
            RetryManager.backoff rm (S j)
            = Z.min (RetryManager.backoff rm j * RetryManager.backoffMultiplier rm)
                    (RetryManager.maxDelay rm)) by done.
  assert (Hform : forall j,
            RetryManager.backoff rm j
            = Z.min (RetryManager.initialDelay rm
                     * RetryManager.backoffMultiplier rm ^ Z.of_nat j)
                    (RetryManager.maxDelay rm)).
  { induction j as [|j IH].
    - cbn [RetryManager.backoff]. change (Z.of_nat 0) with 0%Z. rewrite Z.pow_0_r. lia.
    - rewrite Hstep, IH, Nat2Z.inj_succ, Z.pow_succ_r by lia.
      rewrite (Z.mul_comm (RetryManager.backoffMultiplier rm)), Z.mul_assoc.
      assert (0 <= RetryManager.initialDelay rm
                   * RetryManager.backoffMultiplier rm ^ Z.of_nat j)%Z as Hpos.
      { apply Z.mul_nonneg_nonneg; [lia|]. apply Z.pow_nonneg. lia. }
      revert Hpos.
      generalize (RetryManager.initialDelay rm
                  * RetryManager.backoffMultiplier rm ^ Z.of_nat j)%Z.
      intros x Hx.
      destruct (Z.le_gt_cases x (RetryManager.maxDelay rm)) as [Hle|Hgt].
      + by rewrite (Z.min_l x) by done.
      + rewrite (Z.min_r x) by lia.
        rewrite !Z.min_r; [done | nia | nia]. }
  assert (Hpos : (0 <= RetryManager.initialDelay rm
                      * RetryManager.backoffMultiplier rm ^ Z.of_nat k)%Z).
  { apply Z.mul_nonneg_nonneg; [lia|]. apply Z.pow_nonneg. lia. }
  assert (Hrange : (0 <= RetryManager.backoff rm k <= RetryManager.maxDelay rm)%Z).
  { rewrite Hform. lia. }
  split; [nia|]. split; [apply Hform|].
  rewrite Hstep. apply Z.min_glb; [nia | lia].
Qed.


End RetryClaims.

(** A logger made with the level [error] still writes warnings. *)
Lemma logger_writes_by_level_witness :
  Logger.warn (fun _ => false)
    (Logger.new (fun _ => false) Resilient.errors_only_options) "10:15:00" "disk almost full"
    None
  = [(Logger.console_warn, "[AI-Agent] [WARN] disk almost full")].
Proof.
  exact (proj1 (proj2 (logger_writes_by_level (fun _ => false) Resilient.errors_only_options
                         "10:15:00" "disk almost full" None))).
Defined.


(** The prompt of tutorial 04 cut to 10 tokens: 58 code units, then
    53, 48, 44 and 40, which fit. *)
Lemma truncateToTokens_keeps_most_of_budget_witness :
  (Z.of_nat (length (take 40 Resilient.prompt)) <= 10 * 4
   /\ 9 * 10 * 4 <= 10 * Z.of_nat (length (take 40 Resilient.prompt)))%Z.
Proof.
  apply (truncateToTokens_keeps_most_of_budget Resilient.counter Resilient.prompt 10
           (take 40 Resilient.prompt));
    [reflexivity | reflexivity | discriminate | reflexivity | reflexivity].
Defined.

(** ** Runs of the retry manager *)
Section RetryRuns.
Import PrimFloat.



End RetryRuns.

(** Tutorial 04's backoff reaches its cap at the fourth delay. *)
Lemma backoff_is_capped_exponential_witness :
  (0 <= RetryManager.backoff Resilient.retry 3 * 2 <= 2 ^ 53)%Z
  /\ RetryManager.backoff Resilient.retry 3 = 2000%Z
  /\ (RetryManager.backoff Resilient.retry 3 <= RetryManager.backoff Resilient.retry 4)%Z.
Proof.
  apply (backoff_is_capped_exponential (Err := string) Resilient.retry 3); simpl; lia.
Defined.
